(** * Word counter: a shallow embedding of the text-analysis core of [src/App.tsx]

    The development follows the source file from top to bottom: the constants,
    the helpers [formatTime], [countSyllables] and [ordinal], the sentence
    heatmap ([analyzeSentence], [getSentenceHeatmap]) and its decorations, the
    [stats] record computed by the [App] component, and the text that
    [downloadMarkdown] writes.

    Conventions of the embedding.
    - A JavaScript string is the list of its UTF-16 code units ([list N]);
      [.length] is the length of that list.
    - A JavaScript number that holds an integer (an array length, a counter,
      an offset, the result of [Math.round]) is a [Z]; on these [+], [-], [%]
      and [Math.floor (a / b)] are exact below 2^53, which every length the
      program can build respects.
    - A JavaScript number that holds a fraction is an IEEE-754 binary64 value,
      taken from [SpecFloat] with [prec = 53] and [emax = 1024].
    - Regular expressions are run by a small greedy matcher over character
      classes, enough for the patterns of the source. *)

From Stdlib Require Import String Ascii DecimalString.
From Stdlib Require Import ZArith NArith List Bool Lia SpecFloat.
From Stdlib Require Import Sorted Permutation.
Import ListNotations.

Open Scope Z_scope.

(* ------------------------------------------------------------------------- *)
(** ** JavaScript strings *)
(* ------------------------------------------------------------------------- *)

Definition jsstring := list N.

(** An ASCII literal of the source, as code units. *)
Definition js (s : string) : jsstring :=
  map N_of_ascii (list_ascii_of_string s).

Definition jslength (s : jsstring) : Z := Z.of_nat (length s).

(** [a.length] of an array. *)
Definition alength {A : Type} (a : list A) : Z := Z.of_nat (length a).

Fixpoint jseqb (a b : jsstring) : bool :=
  match a, b with
  | [], [] => true
  | x :: a', y :: b' => N.eqb x y && jseqb a' b'
  | _, _ => false
  end.

(** [!s] is true for the empty string only. *)
Definition falsy (s : jsstring) : bool :=
  match s with [] => true | _ => false end.

(** A template literal renders an integer in decimal. *)
Definition render (n : Z) : jsstring :=
  js (NilZero.string_of_int (Z.to_int n)).

(** *** Character classes *)

Definition cls := N -> bool.

Definition in_range (lo hi c : N) : bool := (N.leb lo c && N.leb c hi)%N.

Definition one_of (l : list N) : cls := fun c => existsb (N.eqb c) l.

Definition cneg (p : cls) : cls := fun c => negb (p c).

(** [\s], which is also what [trim] removes: WhiteSpace and LineTerminator. *)
Definition is_space : cls := fun c =>
  in_range 9 13 c || one_of [32; 160; 5760; 8232; 8233; 8239; 8287; 12288; 65279]%N c
  || in_range 8192 8202 c.

(** [[a-z]] *)
Definition is_az : cls := in_range 97 122.

(** [[a-z0-9]] *)
Definition is_az09 : cls := fun c => is_az c || in_range 48 57 c.

(** [[aeiouy]] *)
Definition is_vowel : cls := one_of [97; 101; 105; 111; 117; 121]%N.

(** [[.!?]] *)
Definition is_term : cls := one_of [46; 33; 63]%N.

(** [[,;:—–]]: comma, semicolon, colon, em dash U+2014, en dash U+2013. *)
Definition is_punct : cls := one_of [44; 59; 58; 8212; 8211]%N.

(** *** String methods *)

Fixpoint dropWhile (p : cls) (s : jsstring) : jsstring :=
  match s with
  | [] => []
  | c :: r => if p c then dropWhile p r else s
  end.

Fixpoint takeWhile (p : cls) (s : jsstring) : jsstring :=
  match s with
  | [] => []
  | c :: r => if p c then c :: takeWhile p r else []
  end.

Definition trimStart (s : jsstring) : jsstring := dropWhile is_space s.
Definition trimEnd (s : jsstring) : jsstring := rev (dropWhile is_space (rev s)).
Definition trim (s : jsstring) : jsstring := trimEnd (trimStart s).

(** [toLowerCase].  Only three kinds of code unit have a lower-case image that
    meets [[a-z0-9]]: the letters A-Z, U+212A KELVIN SIGN (image [k]) and
    U+0130 (image [i] followed by U+0307).  Every other code unit has an image
    outside [[a-z0-9]]; both places where the source lower-cases a string
    delete such images at once ([replace] below), so they are left as they
    are here. *)
Definition lower_unit (c : N) : jsstring :=
  if in_range 65 90 c then [c + 32]%N
  else if N.eqb c 8490 then [107]%N
  else if N.eqb c 304 then [105; 775]%N
  else [c].

Definition toLowerCase (s : jsstring) : jsstring := flat_map lower_unit s.

Definition endsWith (s suffix : jsstring) : bool :=
  jseqb (skipn (length s - length suffix) s) suffix.

(* ------------------------------------------------------------------------- *)
(** ** Regular expressions *)
(* ------------------------------------------------------------------------- *)

Module Regex.

(** One piece [C{min,max}] of a pattern; [rmax = None] is no upper bound. *)
Record item := Item { icls : cls; rmin : nat; rmax : option nat }.

Definition regex := list item.

Definition plus (p : cls) : item := Item p 1 None.
Definition star (p : cls) : item := Item p 0 None.
Definition once (p : cls) : item := Item p 1 (Some 1%nat).

Definition may_more (bound : option nat) : bool :=
  match bound with Some O => false | _ => true end.

Definition less (bound : option nat) : option nat :=
  match bound with Some n => Some (pred n) | None => None end.

(** The longest prefix of [s] in class [p], at most [bound] long. *)
Fixpoint munch (p : cls) (bound : option nat) (s : jsstring)
  : jsstring * jsstring :=
  match s with
  | [] => ([], [])
  | c :: r =>
      if p c && may_more bound
      then let (a, b) := munch p (less bound) r in (c :: a, b)
      else ([], s)
  end.

(** The match of [re] anchored at the head of [s]: what it takes and what
    is left.  Each piece takes as much as it can; no pattern of the source
    needs to give anything back, because a piece is never followed by a
    piece of an overlapping class. *)
Fixpoint exec (re : regex) (s : jsstring) : option (jsstring * jsstring) :=
  match re with
  | [] => Some ([], s)
  | i :: re' =>
      let (a, rest) := munch (icls i) (rmax i) s in
      if (length a <? rmin i)%nat then None
      else match exec re' rest with
           | Some (b, rest') => Some (a ++ b, rest')
           | None => None
           end
  end.

(** The matches of a [/g] pattern from left to right.  [skip] counts the
    code units still covered by the match found last ([lastIndex]). *)
Fixpoint matchAll (re : regex) (s : jsstring) (skip : nat) : list jsstring :=
  match s with
  | [] =>
      match skip, exec re [] with
      | O, Some (m, _) => [m]
      | _, _ => []
      end
  | _ :: r =>
      match skip with
      | S k => matchAll re r k
      | O =>
          match exec re s with
          | Some (m, _) => m :: matchAll re r (pred (length m))
          | None => matchAll re r 0
          end
      end
  end.

(** [s.match(re)] with the [g] flag: [null] when nothing matches. *)
Definition match_g (re : regex) (s : jsstring) : option (list jsstring) :=
  match matchAll re s 0 with
  | [] => None
  | l => Some l
  end.

(** [s.split(re)], for a pattern that cannot match the empty string (both
    separators of the source are of the form [C+]).  [cur] holds the piece
    being read, last code unit first. *)
Fixpoint splitGo (re : regex) (s cur : jsstring) (skip : nat)
  : list jsstring :=
  match s with
  | [] => [rev cur]
  | c :: r =>
      match skip with
      | S k => splitGo re r cur k
      | O =>
          match exec re s with
          | Some ((_ :: _) as m, _) => rev cur :: splitGo re r [] (pred (length m))
          | _ => splitGo re r (c :: cur) 0
          end
      end
  end.

Definition split (re : regex) (s : jsstring) : list jsstring :=
  splitGo re s [] 0.

(** [s.replace(/C/g, "")] for a one-character class. *)
Definition remove (p : cls) (s : jsstring) : jsstring :=
  filter (cneg p) s.

End Regex.

Import Regex.

(** [/\s+/] *)
Definition re_spaces : regex := [plus is_space].
(** [/[.!?]+/] *)
Definition re_terms : regex := [plus is_term].
(** [/[aeiouy]{1,2}/g] *)
Definition re_vowels : regex := [Item is_vowel 1 (Some 2%nat)].
(** [/[,;:—–]/g] *)
Definition re_punct : regex := [once is_punct].
(** [/[^.!?]+[.!?]*/g] *)
Definition re_sentence : regex := [plus (cneg is_term); star is_term].

(* ------------------------------------------------------------------------- *)
(** ** Binary64 arithmetic *)
(* ------------------------------------------------------------------------- *)

Module F64.

Definition prec : Z := 53.
Definition emax : Z := 1024.

Definition t := spec_float.

Definition of_Z (z : Z) : t := binary_normalize prec emax z 0 false.

Definition add : t -> t -> t := SFadd prec emax.
Definition sub : t -> t -> t := SFsub prec emax.
Definition mul : t -> t -> t := SFmul prec emax.
Definition div : t -> t -> t := SFdiv prec emax.

(** [a >= b] and [a > b]; both are false when an argument is NaN. *)
Definition geb (a b : t) : bool := SFleb b a.
Definition gtb (a b : t) : bool := SFltb b a.

(** A decimal literal [n / 10^k] of the source: the double nearest to it,
    which is the correctly rounded quotient of two exact integers. *)
Definition lit (n : Z) (k : nat) : t := div (of_Z n) (of_Z (10 ^ Z.of_nat k)).

(** [Math.round]: the nearest integer, a tie going towards +infinity, which
    is [floor (x + 1/2)] on the exact value; [None] for NaN and the two
    infinities. *)
Definition round (x : t) : option Z :=
  match x with
  | S754_zero _ => Some 0
  | S754_finite s m e =>
      let v := if s then Z.neg m else Z.pos m in
      Some (if 0 <=? e then v * 2 ^ e
            else (2 * v + 2 ^ (- e)) / 2 ^ (1 - e))
  | _ => None
  end.

(** [x.toFixed(1)], for NaN, the infinities and |x| < 1e21: the integer [n]
    for which [n / 10] is nearest to |x| (the larger one on a tie), printed
    with one decimal. *)
Definition toFixed1 (x : t) : jsstring :=
  match x with
  | S754_nan => js "NaN"
  | S754_infinity s => js (if s then "-Infinity" else "Infinity")
  | S754_zero _ => js "0.0"
  | S754_finite s m e =>
      let n := if 0 <=? e then 10 * Z.pos m * 2 ^ e
               else (20 * Z.pos m + 2 ^ (- e)) / 2 ^ (1 - e) in
      (if s then js "-" else []) ++ render (n / 10) ++ js "." ++ render (n mod 10)
  end.

End F64.

(* ------------------------------------------------------------------------- *)
(** ** Constants *)
(* ------------------------------------------------------------------------- *)

Definition READING_WPM : Z := 238.
Definition SPEAKING_WPM : Z := 158.

Definition STOP_WORDS : list jsstring :=
  map js [ "the"; "and"; "a"; "to"; "of"; "in"; "is"; "it"; "that"; "on";
           "for"; "with"; "as"; "at"; "this"; "by"; "an"; "be"; "are";
           "from"; "or"; "was"; "were"; "but"; "not" ]%string.

(** [STOP_WORDS.has(key)] *)
Definition STOP_WORDS_has (key : jsstring) : bool :=
  existsb (jseqb key) STOP_WORDS.

(* ------------------------------------------------------------------------- *)
(** ** Helpers *)
(* ------------------------------------------------------------------------- *)

(** [Math.round((words / wpm) * 60)] *)
Definition totalSeconds (words wpm : Z) : option Z :=
  F64.round (F64.mul (F64.div (F64.of_Z words) (F64.of_Z wpm)) (F64.of_Z 60)).

Definition formatTime (words wpm : Z) : jsstring :=
  if words =? 0 then js "0 min"
  else
    match totalSeconds words wpm with
    | Some seconds =>
        let m := seconds / 60 in
        let s := Z.rem seconds 60 in
        if m =? 0 then render s ++ js " sec"
        else if s =? 0 then render m ++ js " min"
        else render m ++ js " min " ++ render s ++ js " sec"
    | None =>
        (* [seconds] is NaN or infinite: [m] is not 0 and [s] is NaN *)
        let m := F64.mul (F64.div (F64.of_Z words) (F64.of_Z wpm)) (F64.of_Z 60) in
        match m with
        | S754_infinity false => js "Infinity min NaN sec"
        | S754_infinity true => js "-Infinity min NaN sec"
        | _ => js "NaN min NaN sec"
        end
    end.

Definition countSyllables (word : jsstring) : Z :=
  let w := remove (cneg is_az) (toLowerCase word) in
  if falsy w then 0
  else if jslength w <=? 3 then 1
  else
    let vowels := match_g re_vowels w in
    let count := match vowels with Some l => alength l | None => 0 end in
    let count := if endsWith w (js "e") then count - 1 else count in
    let count := if endsWith w (js "le") then count + 1 else count in
    Z.max 1 count.

(** [a[i]]: [undefined] outside the array. *)
Definition at_index {A : Type} (a : list A) (i : Z) : option A :=
  if i <? 0 then None else nth_error a (Z.to_nat i).

(** [x || y] on possibly undefined strings. *)
Definition or_else (x y : option jsstring) : option jsstring :=
  match x with
  | Some (_ :: _) => x
  | _ => y
  end.

Definition ordinal (n : Z) : jsstring :=
  let suffixes := map js ["th"; "st"; "nd"; "rd"]%string in
  let v := Z.rem n 100 in
  let suffix :=
    or_else (or_else (at_index suffixes (Z.rem (v - 20) 10))
                     (at_index suffixes v))
            (at_index suffixes 0) in
  render n ++ match suffix with Some s => s | None => js "undefined" end.

(* ------------------------------------------------------------------------- *)
(** ** The document tree of the editor *)
(* ------------------------------------------------------------------------- *)

(** The part of ProseMirror's [Node] and [Fragment] that the source calls:
    [isBlock], [isTextblock], [textContent], [childCount], [descendants] and
    [nodesBetween].  A text node carries its text; any other node carries the
    flags of its type and its children. *)
Module PM.

Record NodeType := MkType
  { tyBlock : bool;          (* the type is a block (not inline) *)
    tyInlineContent : bool;  (* its content expression is inline *)
    tyLeaf : bool }.         (* it allows no content *)

#[warnings="-register-all"]
Inductive Node :=
| Text (text : jsstring)
| Elem (type : NodeType) (content : list Node).

Definition isBlock (n : Node) : bool :=
  match n with Text _ => false | Elem ty _ => tyBlock ty end.

Definition isTextblock (n : Node) : bool :=
  match n with
  | Text _ => false
  | Elem ty _ => tyBlock ty && tyInlineContent ty
  end.

Definition children (n : Node) : list Node :=
  match n with Text _ => [] | Elem _ cs => cs end.

Definition childCount (n : Node) : Z := alength (children n).

Fixpoint textContent (n : Node) : jsstring :=
  match n with
  | Text s => s
  | Elem _ cs => flat_map textContent cs
  end.

Fixpoint nodeSize (n : Node) : Z :=
  match n with
  | Text s => jslength s
  | Elem ty cs =>
      if tyLeaf ty then 1
      else 2 + fold_right (fun c acc => nodeSize c + acc) 0 cs
  end.

Definition fragmentSize (cs : list Node) : Z :=
  fold_right (fun c acc => nodeSize c + acc) 0 cs.

(** [n.content.size] *)
Definition contentSize (n : Node) : Z := fragmentSize (children n).

Section Traversal.

Context {St : Type}.

(** The callback: the node, its position and the state of the closure;
    the boolean is false when the callback returns [false]. *)
Variable f : Node -> Z -> St -> bool * St.

(** The loop of [Fragment.nodesBetween] over the children [cs], the
    first of which is at offset [pos]: a child that ends after [from] is
    given to the callback, and entered ([enter]) unless the callback
    refused it or its content is empty. *)
Definition visitChildren (enter : Node -> Z -> Z -> Z -> St -> St)
    (from to nodeStart : Z) : list Node -> Z -> St -> St :=
  fix loop (cs : list Node) (pos : Z) (st : St) {struct cs} : St :=
    match cs with
    | [] => st
    | child :: rest =>
        if pos <? to then
          let end_ := pos + nodeSize child in
          let st1 :=
            if end_ >? from then
              let (go, st') := f child (nodeStart + pos) st in
              if go && negb (contentSize child =? 0) then
                let start := pos + 1 in
                enter child
                      (Z.max 0 (from - start))
                      (Z.min (contentSize child) (to - start))
                      (nodeStart + start) st'
              else st'
            else st in
          loop rest end_ st1
        else st
    end.

(** [n.nodesBetween(from, to, f, nodeStart)], which runs the loop on
    [n.content]. *)
Fixpoint nodesBetween (n : Node) (from to nodeStart : Z) (st : St) : St :=
  match n with
  | Text _ => st
  | Elem _ cs => visitChildren nodesBetween from to nodeStart cs 0 st
  end.

(** [n.descendants(f)] *)
Definition descendants (n : Node) (st : St) : St :=
  nodesBetween n 0 (contentSize n) 0 st.

End Traversal.

(** What every schema guarantees of a document: a text node is not empty,
    a leaf has no content, and the content of a textblock is inline all the
    way down. *)
Fixpoint inline_only (n : Node) : bool :=
  match n with
  | Text _ => true
  | Elem ty cs => negb (tyBlock ty) && forallb inline_only cs
  end.

Fixpoint valid (n : Node) : bool :=
  match n with
  | Text s => negb (falsy s)
  | Elem ty cs =>
      (if tyLeaf ty then match cs with [] => true | _ => false end else true)
      && (if tyBlock ty && tyInlineContent ty
          then forallb inline_only cs else true)
      && forallb valid cs
  end.

(** The node types of the editor as the source configures it. *)
Definition doc_t : NodeType := MkType true false false.
Definition paragraph_t : NodeType := MkType true true false.
Definition blockquote_t : NodeType := MkType true false false.

Definition paragraph (s : jsstring) : Node :=
  Elem paragraph_t (match s with [] => [] | _ => [Text s] end).

End PM.

Import PM.

(* ------------------------------------------------------------------------- *)
(** ** Heatmap *)
(* ------------------------------------------------------------------------- *)

Inductive Level := warn | danger.

Record SentenceHeat := MkHeat { from : Z; to : Z; level : Level }.

(** [words.reduce((sum, w) => sum + countSyllables(w), 0)] *)
Definition sumSyllables (words : list jsstring) : Z :=
  fold_left (fun sum w => sum + countSyllables w) words 0.

(** [score] of [analyzeSentence]. *)
Definition sentenceScore (sentence : jsstring) : F64.t :=
  let words := split re_spaces (trim sentence) in
  let wordCount := alength words in
  let syllables := sumSyllables words in
  let avgSyllables :=
    F64.div (F64.of_Z syllables) (F64.of_Z (Z.max wordCount 1)) in
  let punctuation :=
    alength (match match_g re_punct sentence with Some l => l | None => [] end) in
  F64.add
    (F64.add (F64.mul (F64.of_Z wordCount) (F64.lit 5 1))
             (F64.mul avgSyllables (F64.of_Z 10)))
    (F64.mul (F64.of_Z punctuation) (F64.of_Z 2)).

Definition analyzeSentence (sentence : jsstring) : option Level :=
  let score := sentenceScore sentence in
  if F64.geb score (F64.of_Z 35) then Some danger
  else if F64.geb score (F64.of_Z 25) then Some warn
  else None.

(** The [for (const part of parts)] loop of [getSentenceHeatmap]; [results]
    grows at its end, as [push] does. *)
Fixpoint heatLoop (pos : Z) (parts : list jsstring) (offset : Z)
    (results : list SentenceHeat) : list SentenceHeat :=
  match parts with
  | [] => results
  | part :: rest =>
      let trimmed := trim part in
      if falsy trimmed then heatLoop pos rest (offset + jslength part) results
      else
        match analyzeSentence trimmed with
        | None => heatLoop pos rest (offset + jslength part) results
        | Some level =>
            let from := pos + 1 + offset in
            let to := from + jslength trimmed in
            heatLoop pos rest (offset + jslength part)
                     (results ++ [MkHeat from to level])
        end
  end.

(** The callback given to [descendants]; it never returns [false]. *)
Definition heatVisit (node : Node) (pos : Z) (results : list SentenceHeat)
  : bool * list SentenceHeat :=
  if negb (isTextblock node) || falsy (textContent node) then (true, results)
  else
    let text := textContent node in
    match match_g re_sentence text with
    | None => (true, results)
    | Some parts => (true, heatLoop pos parts 0 results)
    end.

Definition getSentenceHeatmap (doc : Node) : list SentenceHeat :=
  descendants heatVisit doc [].

(* ------------------------------------------------------------------------- *)
(** ** Statistics *)
(* ------------------------------------------------------------------------- *)

(** *** The object [freq] *)

(** What a property of [freq] can hold or a lookup can give: [undefined], a
    number, a string, or the function [Object] that every object literal
    inherits as [constructor]. *)
Inductive jsval :=
| Undefined
| Num (n : Z)
| Str (s : jsstring)
| ObjectCtor.

(** The own properties of an object literal, in creation order. *)
Definition object := list (jsstring * jsval).

Fixpoint own (o : object) (key : jsstring) : option jsval :=
  match o with
  | [] => None
  | (k, v) :: o' => if jseqb k key then Some v else own o' key
  end.

(** [o[key]].  A key of [freq] is made of [a-z0-9] only, and the one property
    of [Object.prototype] with such a name is [constructor]. *)
Definition get (o : object) (key : jsstring) : jsval :=
  match own o key with
  | Some v => v
  | None => if jseqb key (js "constructor") then ObjectCtor else Undefined
  end.

(** [o[key] = v]: an own property keeps its place, a new one comes last. *)
Fixpoint set (o : object) (key : jsstring) (v : jsval) : object :=
  match o with
  | [] => [(key, v)]
  | (k, w) :: o' =>
      if jseqb k key then (k, v) :: o' else (k, w) :: set o' key v
  end.

(** [(x ?? 0) + 1]: addition on a number, concatenation on a string; the
    function [Object] is first turned into its source text. *)
Definition bump (x : jsval) : jsval :=
  match x with
  | Undefined => Num 1
  | Num n => Num (n + 1)
  | Str s => Str (s ++ js "1")
  | ObjectCtor => Str (js "function Object() { [native code] }" ++ js "1")
  end.

Definition is_digit : cls := in_range 48 57.

Fixpoint digits_value (s : jsstring) (acc : Z) : Z :=
  match s with
  | [] => acc
  | c :: r => digits_value r (10 * acc + (Z.of_N c - 48))
  end.

(** The array index a property key denotes, if any: a decimal numeral without
    a leading zero, below 2^32 - 1. *)
Definition array_index (key : jsstring) : option Z :=
  match key with
  | [] => None
  | c :: r =>
      if forallb is_digit key && (negb (N.eqb c 48) || falsy r)
         && (digits_value key 0 <? 4294967295)
      then Some (digits_value key 0) else None
  end.

Definition is_index (key : jsstring) : bool :=
  match array_index key with Some _ => true | None => false end.

Definition index_of (key : jsstring) : Z :=
  match array_index key with Some i => i | None => 0 end.

Fixpoint insert_index (e : jsstring * jsval) (l : object) : object :=
  match l with
  | [] => [e]
  | e' :: l' =>
      if index_of (fst e) <? index_of (fst e') then e :: l
      else e' :: insert_index e l'
  end.

(** [Object.entries(o)]: the array-index keys in ascending order, then the
    other keys in creation order. *)
Definition Object_entries (o : object) : list (jsstring * jsval) :=
  fold_right insert_index [] (filter (fun e => is_index (fst e)) o)
  ++ filter (fun e => negb (is_index (fst e))) o.

(** [ToNumber] where the source applies it to a property of [freq]; [None] is
    NaN.  The strings [bump] builds start with [function] and denote no
    number. *)
Definition toNumber (v : jsval) : option Z :=
  match v with
  | Num n => Some n
  | _ => None
  end.

Definition toFloat (v : jsval) : F64.t :=
  match toNumber v with
  | Some n => F64.of_Z n
  | None => S754_nan
  end.

(** The comparator [(a, b) => b[1] - a[1]]; a NaN counts as 0. *)
Definition byCount (a b : jsstring * jsval) : Z :=
  match toNumber (snd b), toNumber (snd a) with
  | Some y, Some x => y - x
  | _, _ => 0
  end.

Section Sort.

Context {A : Type}.
Variable cmp : A -> A -> Z.

Fixpoint sort_insert (x : A) (l : list A) : list A :=
  match l with
  | [] => [x]
  | y :: l' => if cmp x y >? 0 then y :: sort_insert x l' else x :: l
  end.

(** [a.sort(cmp)]: the stable sort the language requires, here by
    insertion.  With a comparator that is not a consistent order (as
    [byCount] is once a count is NaN) the language leaves the result to the
    engine; this is then one of the allowed results. *)
Definition sort (l : list A) : list A := fold_right sort_insert [] l.

End Sort.

(** *** The record [stats] *)

Record Keyword := MkKeyword { word : jsstring; density : jsstring }.

Record Stats := MkStats
  { words : Z;
    characters : Z;
    charactersWithFormatting : Z;
    sentences : Z;
    paragraphs : Z;
    readingTime : jsstring;
    speakingTime : jsstring;
    readingGrade : jsstring;
    keywords : list Keyword }.

Record Selection := MkSelection { sel_from : Z; sel_to : Z }.

(** [editor.state], when there is an editor. *)
Record Editor := MkEditor { doc : Node; selection : Selection }.

(** The em dash shown when there is no grade. *)
Definition noGrade : jsstring := [8212%N].

(** [word.toLowerCase().replace(/[^a-z0-9]/g, "")] *)
Definition keyOf (w : jsstring) : jsstring :=
  remove (cneg is_az09) (toLowerCase w).

(** The [for (const word of words)] loop that fills [freq]. *)
Fixpoint tally (ws : list jsstring) (freq : object) : object :=
  match ws with
  | [] => freq
  | w :: rest =>
      let key := keyOf w in
      if falsy key || STOP_WORDS_has key then tally rest freq
      else tally rest (set freq key (bump (get freq key)))
  end.

Definition countBlock (node : Node) (pos : Z) (count : Z) : bool * Z :=
  (true, if isBlock node then count + 1 else count).

Definition countParagraphs (editor : option Editor) : Z :=
  match editor with
  | None => 0
  | Some ed =>
      let from := sel_from (selection ed) in
      let to := sel_to (selection ed) in
      if from =? to then childCount (doc ed)
      else nodesBetween countBlock (doc ed) from to 0 0
  end.

Definition wordsOf (trimmed : jsstring) : list jsstring :=
  if falsy trimmed then [] else split re_spaces trimmed.

Definition sentencesOf (trimmed : jsstring) : list jsstring :=
  if falsy trimmed then []
  else filter (fun x => negb (falsy x)) (split re_terms trimmed).

Definition gradeOf (nwords nsentences syllables : Z) : F64.t :=
  if negb (nwords =? 0) && negb (nsentences =? 0) then
    F64.sub
      (F64.add
         (F64.mul (F64.lit 39 2)
                  (F64.div (F64.of_Z nwords) (F64.of_Z nsentences)))
         (F64.mul (F64.lit 118 1)
                  (F64.div (F64.of_Z syllables) (F64.of_Z nwords))))
      (F64.lit 1559 2)
  else F64.of_Z 0.

Definition gradeLabel (grade : F64.t) : jsstring :=
  if F64.gtb grade (F64.of_Z 0) then
    match F64.round grade with
    | Some r => ordinal (Z.max 1 r)
    | None => js "Infinityth"
    end
  else noGrade.

(** [Object.entries(freq).sort(...).slice(0, 10)] *)
Definition topEntries (freq : object) : list (jsstring * jsval) :=
  firstn 10 (sort byCount (Object_entries freq)).

Definition toKeyword (nwords : Z) (e : jsstring * jsval) : Keyword :=
  let (w, count) := e in
  MkKeyword w (F64.toFixed1
                 (F64.mul (F64.div (toFloat count) (F64.of_Z nwords))
                          (F64.of_Z 100))).

Definition stats (selectionText textSnapshot : jsstring)
    (editor : option Editor) : Stats :=
  let activeText := if falsy selectionText then textSnapshot else selectionText in
  let trimmed := trim activeText in
  let words := wordsOf trimmed in
  let sentences := sentencesOf trimmed in
  let syllables := sumSyllables words in
  let grade := gradeOf (alength words) (alength sentences) syllables in
  let freq := tally words [] in
  let paragraphs := countParagraphs editor in
  MkStats
    (alength words)
    (jslength (remove is_space trimmed))
    (jslength trimmed)
    (alength sentences)
    paragraphs
    (formatTime (alength words) READING_WPM)
    (formatTime (alength words) SPEAKING_WPM)
    (gradeLabel grade)
    (map (toKeyword (alength words)) (topEntries freq)).

(* ------------------------------------------------------------------------- *)
(** ** The specification's wording of the helpers *)
(* ------------------------------------------------------------------------- *)

(** The rule in the words of the specification: the teens take [th],
    otherwise a last digit 1, 2 or 3 takes [st], [nd] or [rd], and everything
    else takes [th]. *)
Definition ordinal_suffix_spec (n : Z) : jsstring :=
  if (11 <=? n mod 100) && (n mod 100 <=? 13) then js "th"
  else if n mod 10 =? 1 then js "st"
  else if n mod 10 =? 2 then js "nd"
  else if n mod 10 =? 3 then js "rd"
  else js "th".

Definition ordinal_spec (n : Z) : jsstring :=
  render n ++ ordinal_suffix_spec n.

(** The suffix the source picks for [v = n % 100]. *)
Definition picked_suffix (v : Z) : option jsstring :=
  let suffixes := map js ["th"; "st"; "nd"; "rd"]%string in
  or_else (or_else (at_index suffixes (Z.rem (v - 20) 10))
                   (at_index suffixes v))
          (at_index suffixes 0).


(** [countSyllables] in the words of the specification.  The syllable nuclei
    are the runs of one or two consecutive vowels, read from the left without
    overlap. *)
Fixpoint vowelRuns (w : jsstring) : Z :=
  match w with
  | [] => 0
  | c :: r =>
      if is_vowel c then
        match r with
        | c' :: r' => if is_vowel c' then 1 + vowelRuns r' else 1 + vowelRuns r
        | [] => 1
        end
      else vowelRuns r
  end.

Definition countSyllables_spec (word : jsstring) : Z :=
  let w := filter is_az (toLowerCase word) in
  match w with
  | [] => 0
  | _ =>
      if (length w <=? 3)%nat then 1
      else
        let nuclei := vowelRuns w in
        let silent_e := if endsWith w (js "e") then 1 else 0 in
        let le_back := if endsWith w (js "le") then 1 else 0 in
        Z.max 1 (nuclei - silent_e + le_back)
  end.

(** A letter of the English alphabet, in either case. *)
Definition is_letter : cls := fun c => in_range 65 90 c || in_range 97 122 c.

(** The score of the risk scorer in the words of the specification. *)
Definition syllableTotal_spec (tokens : list jsstring) : Z :=
  fold_right Z.add 0 (map countSyllables tokens).

Definition punctuationCount_spec (sentence : jsstring) : Z :=
  alength (filter is_punct sentence).

Definition score_spec (sentence : jsstring) : F64.t :=
  let tokens := split re_spaces sentence in
  let wordCount := alength tokens in
  let avgSyllablesPerWord :=
    F64.div (F64.of_Z (syllableTotal_spec tokens))
            (F64.of_Z (Z.max wordCount 1)) in
  F64.add
    (F64.add (F64.mul (F64.of_Z wordCount) (F64.lit 5 1))
             (F64.mul avgSyllablesPerWord (F64.of_Z 10)))
    (F64.mul (F64.of_Z (punctuationCount_spec sentence)) (F64.of_Z 2)).

(** The two-sentence scenario of the specification. *)
Definition scenario : jsstring :=
  js "This is a short sentence. But here is a much longer and more syntactically complicated sentence, containing several clauses, semicolons; and extra punctuation: to push its score past the danger threshold.".

(* ------------------------------------------------------------------------- *)
(** ** Notions used to state the properties of the heatmap *)
(* ------------------------------------------------------------------------- *)

(** The sum of the lengths of the runs of a block. *)
Definition totalLength (parts : list jsstring) : Z :=
  fold_right (fun p acc => jslength p + acc) 0 parts.

(** The spans one visit of the callback adds. *)
Definition blockSpans (node : Node) (pos : Z) : list SentenceHeat :=
  snd (heatVisit node pos []).

(** A callback that records the nodes [descendants] visits, with their
    positions. *)
Definition collectVisit (node : Node) (pos : Z) (seen : list (Node * Z))
  : bool * list (Node * Z) :=
  (true, seen ++ [(node, pos)]).

Definition visited (doc : Node) : list (Node * Z) :=
  descendants collectVisit doc [].

(** The spans of [l] follow one another inside [lo, hi]: each is not empty
    and starts no earlier than the one before it ends. *)
Fixpoint chain (lo hi : Z) (l : list SentenceHeat) : Prop :=
  match l with
  | [] => lo <= hi
  | s :: r => lo <= from s /\ from s < to s /\ chain (to s) hi r
  end.

(* ------------------------------------------------------------------------- *)
(** ** Notions used to state the properties of the keyword list *)
(* ------------------------------------------------------------------------- *)

(** A key that the tally counts: not empty and not a stop word. *)
Definition counted (key : jsstring) : bool :=
  negb (falsy key || STOP_WORDS_has key).

(** The keys of the words of a text that are counted, in text order. *)
Definition countedKeys (ws : list jsstring) : list jsstring :=
  filter counted (map keyOf ws).

(** One turn of the tally loop on a counted key. *)
Definition addKey (freq : object) (key : jsstring) : object :=
  set freq key (bump (get freq key)).

(** How often a key occurs among the counted keys. *)
Definition frequency (k : jsstring) (keys : list jsstring) : Z :=
  alength (filter (jseqb k) keys).

(** Where a key is first seen among the counted keys. *)
Fixpoint firstIndex (k : jsstring) (keys : list jsstring) : nat :=
  match keys with
  | [] => O
  | x :: r => if jseqb k x then O else S (firstIndex k r)
  end.

(** [a] occurs in [l] at an earlier place than [b]. *)
Definition before {A : Type} (l : list A) (a b : A) : Prop :=
  exists l1 l2 l3, l = l1 ++ a :: l2 ++ b :: l3.

(** The order of the keys in [Object.entries(freq)]: array indices first, by
    ascending value, then the other keys as first seen. *)
Definition entriesOrder (keys : list jsstring) (a b : jsstring) : Prop :=
  match array_index a, array_index b with
  | Some i, Some j => i <= j
  | Some _, None => True
  | None, Some _ => False
  | None, None => (firstIndex a keys < firstIndex b keys)%nat
  end.

(** The count an entry of [freq] holds, 0 when it is not a number. *)
Definition countOf (e : jsstring * jsval) : Z :=
  match toNumber (snd e) with Some n => n | None => 0 end.

(** What the tally holds once the counted keys [seen] have been read, none
    of them being [constructor]: one property per key seen, holding the
    number of times it was seen, the properties being in first-seen order. *)
Definition tallied (o : object) (seen : list jsstring) : Prop :=
  NoDup (map fst o)
  /\ (forall k, own o k = if frequency k seen =? 0 then None
                          else Some (Num (frequency k seen)))
  /\ (forall a b, before (map fst o) a b ->
                  (firstIndex a seen < firstIndex b seen)%nat).


(* ------------------------------------------------------------------------- *)
(** ** Decorations *)
(* ------------------------------------------------------------------------- *)

(** What [Decoration.inline(from, to, { class })] is given. *)
Record Decoration := MkDecoration
  { deco_from : Z; deco_to : Z; deco_class : jsstring }.

Definition heatClass (l : Level) : jsstring :=
  match l with
  | danger => js "heatmap-red"
  | warn => js "heatmap-orange"
  end.

(** The [decorations] property of the plugin: [null] when no sentence is
    flagged, else the decorations handed to [DecorationSet.create]. *)
Definition decorations (doc : Node) : option (list Decoration) :=
  let sentences := getSentenceHeatmap doc in
  match sentences with
  | [] => None
  | _ =>
      Some (map (fun s => MkDecoration (from s) (to s) (heatClass (level s)))
                sentences)
  end.

(* ------------------------------------------------------------------------- *)
(** ** Markdown export *)
(* ------------------------------------------------------------------------- *)

(** What [.] does not match without the [s] flag: the line terminators. *)
Definition is_lineterm : cls := one_of [10; 13; 8232; 8233]%N.

Definition is_lt : cls := one_of [60]%N.
Definition is_gt : cls := one_of [62]%N.
Definition is_nl : cls := one_of [10]%N.

(** The line feed of the replacement strings. *)
Definition nl : jsstring := [10%N].

Fixpoint startsWith (prefix s : jsstring) : bool :=
  match prefix, s with
  | [], _ => true
  | p :: ps, c :: r => N.eqb p c && startsWith ps r
  | _ :: _, [] => false
  end.

(** The lazy group [(.*?)] followed by the literal [close]: the shortest
    text after which [close] stands; without the [s] flag ([dotall] false)
    the text may hold no line terminator. *)
Fixpoint lazyUntil (dotall : bool) (close s : jsstring)
  : option (jsstring * jsstring) :=
  match s with
  | [] => if startsWith close [] then Some ([], []) else None
  | c :: r =>
      if startsWith close s then Some ([], skipn (length close) s)
      else if dotall || negb (is_lineterm c) then
        match lazyUntil dotall close r with
        | Some (captured, rest) => Some (c :: captured, rest)
        | None => None
        end
      else None
  end.

(** One match of [/open(.*?)close/] anchored at the head of [s]: the group
    and what is left. *)
Definition execTag (dotall : bool) (open close s : jsstring)
  : option (jsstring * jsstring) :=
  if startsWith open s then lazyUntil dotall close (skipn (length open) s)
  else None.

(** [s.replace(/open(.*?)close/g, f)], [f] being given the group; [skip]
    counts the code units still covered by the match found last. *)
Fixpoint replaceTagGo (dotall : bool) (open close : jsstring)
    (f : jsstring -> jsstring) (s : jsstring) (skip : nat) : jsstring :=
  match s with
  | [] => []
  | c :: r =>
      match skip with
      | S k => replaceTagGo dotall open close f r k
      | O =>
          match execTag dotall open close s with
          | Some (captured, _) =>
              f captured
              ++ replaceTagGo dotall open close f r
                   (pred (length open + length captured + length close))
          | None => c :: replaceTagGo dotall open close f r 0
          end
      end
  end.

Definition replaceTag (dotall : bool) (open close : jsstring)
    (f : jsstring -> jsstring) (s : jsstring) : jsstring :=
  replaceTagGo dotall open close f s 0.

(** [s.replace(re, replacement)] for a [/g] pattern that cannot match the
    empty string and a replacement without [$]. *)
Fixpoint replaceAllGo (re : regex) (replacement s : jsstring) (skip : nat)
  : jsstring :=
  match s with
  | [] => []
  | c :: r =>
      match skip with
      | S k => replaceAllGo re replacement r k
      | O =>
          match exec re s with
          | Some ((_ :: _) as m, _) =>
              replacement ++ replaceAllGo re replacement r (pred (length m))
          | _ => c :: replaceAllGo re replacement r 0
          end
      end
  end.

Definition replaceAll (re : regex) (replacement s : jsstring) : jsstring :=
  replaceAllGo re replacement s 0.

(** [/<[^>]+>/g] *)
Definition re_tag : regex := [once is_lt; plus (cneg is_gt); once is_gt].

(** [/\n{3,}/g] *)
Definition re_blank_lines : regex := [Item is_nl 3 None].

(** The replacements of [downloadMarkdown], in the order of the source. *)
Definition md_h1 : jsstring -> jsstring :=
  replaceTag false (js "<h1>") (js "</h1>") (fun c => js "# " ++ c ++ nl ++ nl).
Definition md_h2 : jsstring -> jsstring :=
  replaceTag false (js "<h2>") (js "</h2>") (fun c => js "## " ++ c ++ nl ++ nl).
Definition md_h3 : jsstring -> jsstring :=
  replaceTag false (js "<h3>") (js "</h3>") (fun c => js "### " ++ c ++ nl ++ nl).
Definition md_strong : jsstring -> jsstring :=
  replaceTag false (js "<strong>") (js "</strong>") (fun c => js "**" ++ c ++ js "**").
Definition md_em : jsstring -> jsstring :=
  replaceTag false (js "<em>") (js "</em>") (fun c => js "*" ++ c ++ js "*").
Definition md_u : jsstring -> jsstring :=
  replaceTag false (js "<u>") (js "</u>") (fun c => js "_" ++ c ++ js "_").
Definition md_li : jsstring -> jsstring :=
  replaceTag false (js "<li>") (js "</li>") (fun c => js "- " ++ c ++ nl).
Definition md_quoted_p : jsstring -> jsstring :=
  replaceTag false (js "<p>") (js "</p>") (fun c => js "> " ++ c ++ nl).
Definition md_blockquote : jsstring -> jsstring :=
  replaceTag true (js "<blockquote>") (js "</blockquote>") md_quoted_p.
Definition md_p : jsstring -> jsstring :=
  replaceTag false (js "<p>") (js "</p>") (fun c => c ++ nl ++ nl).
Definition md_code : jsstring -> jsstring :=
  replaceTag false (js "<code>") (js "</code>") (fun c => js "`" ++ c ++ js "`").
Definition md_strip : jsstring -> jsstring := replaceAll re_tag [].
Definition md_collapse : jsstring -> jsstring :=
  replaceAll re_blank_lines (nl ++ nl).

(** The text [downloadMarkdown] puts in the file, from [editor.getHTML()]. *)
Definition toMarkdown (html : jsstring) : jsstring :=
  trim
    (md_collapse
       (md_strip
          (md_code
             (md_p
                (md_blockquote
                   (md_li
                      (md_u
                         (md_em
                            (md_strong
                               (md_h3 (md_h2 (md_h1 html)))))))))))).

(** [downloadMarkdown]: nothing without an editor, else the content of
    [draft.md]. *)
Definition downloadMarkdown (editorHTML : option jsstring) : option jsstring :=
  match editorHTML with
  | None => None
  | Some html => Some (toMarkdown html)
  end.

(** [s'] is [s] with some code units of class [del] taken out. *)
Inductive erased (del : cls) : jsstring -> jsstring -> Prop :=
| erased_nil : erased del [] []
| erased_keep c s s' : erased del s s' -> erased del (c :: s) (c :: s')
| erased_drop c s s' : del c = true -> erased del s s' -> erased del (c :: s) s'.

(** No ['<'] of [s] opens a tag: it is last, or followed by ['>'] at once,
    or no ['>'] comes after it. *)
Fixpoint tagFree (s : jsstring) : Prop :=
  match s with
  | [] => True
  | c :: r =>
      (c = 60%N ->
       match r with
       | [] => True
       | b :: rest => b = 62%N \/ ~ In 62%N rest
       end)
      /\ tagFree r
  end.

(** The number of line feeds [s] begins with. *)
Definition leadingLines (s : jsstring) : nat := length (takeWhile is_nl s).

(** No run of line feeds in [s] is longer than two. *)
Fixpoint shortRuns (s : jsstring) : Prop :=
  match s with
  | [] => True
  | _ :: r => (leadingLines s <= 2)%nat /\ shortRuns r
  end.

(** No ['<'] of [s] is followed by [x]: a tag whose name begins with [x]
    opens nowhere in [s]. *)
Fixpoint foreign (x : N) (s : jsstring) : bool :=
  match s with
  | [] => true
  | c :: r =>
      (negb (N.eqb c 60)
       || match r with [] => true | b :: _ => negb (N.eqb b x) end)
      && foreign x r
  end.

(* ------------------------------------------------------------------------- *)
(** ** Notions used to state the properties of the counts *)
(* ------------------------------------------------------------------------- *)

(** [s.split(/C+/)] read one code unit at a time: [cur] is the piece being
    read, last code unit first, and [insep] tells that the code unit before
    was a separator. *)
Fixpoint pieces (p : cls) (s cur : jsstring) (insep : bool) : list jsstring :=
  match s with
  | [] => [rev cur]
  | c :: r =>
      if p c then
        if insep then pieces p r [] true else rev cur :: pieces p r [] true
      else pieces p r (c :: cur) false
  end.

(** The number of maximal stretches of code units outside [p] in [s];
    [inrun] tells that the code unit before [s] was outside [p]. *)
Fixpoint stretches (p : cls) (inrun : bool) (s : jsstring) : nat :=
  match s with
  | [] => O
  | c :: r =>
      if p c then stretches p false r
      else ((if inrun then 0 else 1) + stretches p true r)%nat
  end.

(** The code units of [s] in class [p]. *)
Definition count (p : cls) (s : jsstring) : Z := alength (filter p s).

(** A code unit whose lower-case image holds no letter [a-z]: not a letter,
    not U+212A and not U+0130. *)
Definition no_letter : cls := fun c =>
  negb (is_letter c) && negb (N.eqb c 8490) && negb (N.eqb c 304).

(** A child of a flat document: a textblock that is no leaf, with inline
    content. *)
Definition textblockChild (n : Node) : bool :=
  match n with
  | Text _ => false
  | Elem ty cs =>
      tyBlock ty && tyInlineContent ty && negb (tyLeaf ty)
      && forallb inline_only cs
  end.
(* ------------------------------------------------------------------------- *)
(** ** Basic facts about strings and lists *)
(* ------------------------------------------------------------------------- *)

Lemma jseqb_eq (a b : jsstring) : jseqb a b = true <-> a = b.
Proof.
  revert b; induction a as [|x a IH]; intros [|y b]; simpl;
    try (split; [discriminate | discriminate]); try tauto.
  rewrite andb_true_iff, N.eqb_eq, IH.
  split; [intros [-> ->]; reflexivity | intros H; inversion H; auto].
Qed.

Lemma jseqb_refl (a : jsstring) : jseqb a a = true.
Proof. apply jseqb_eq; reflexivity. Qed.

Lemma jseqb_neq (a b : jsstring) : jseqb a b = false <-> a <> b.
Proof.
  rewrite <- jseqb_eq. destruct (jseqb a b); split; congruence.
Qed.

Lemma falsy_nil (s : jsstring) : falsy s = true <-> s = [].
Proof. destruct s; simpl; split; congruence. Qed.

Lemma alength_nonneg {A : Type} (l : list A) : 0 <= alength l.
Proof. unfold alength; lia. Qed.

Lemma alength_app {A : Type} (l1 l2 : list A) :
  alength (l1 ++ l2) = alength l1 + alength l2.
Proof. unfold alength; rewrite length_app; lia. Qed.

Lemma alength_cons {A : Type} (x : A) (l : list A) :
  alength (x :: l) = 1 + alength l.
Proof. unfold alength; simpl length; lia. Qed.

(* ------------------------------------------------------------------------- *)
(** ** [ordinal] *)
(* ------------------------------------------------------------------------- *)

Lemma picked_suffix_table :
  forallb (fun k =>
             match picked_suffix (Z.of_nat k) with
             | Some s => jseqb s (ordinal_suffix_spec (Z.of_nat k))
             | None => false
             end) (seq 0 100) = true.
Proof. vm_compute. reflexivity. Qed.

Lemma picked_suffix_spec (v : Z) :
  0 <= v < 100 -> picked_suffix v = Some (ordinal_suffix_spec v).
Proof.
  intros Hv.
  pose proof picked_suffix_table as T.
  rewrite forallb_forall in T.
  specialize (T (Z.to_nat v)).
  rewrite Z2Nat.id in T by lia.
  assert (Hin : In (Z.to_nat v) (seq 0 100)) by (apply in_seq; lia).
  specialize (T Hin).
  destruct (picked_suffix v) as [s|]; [|discriminate].
  apply jseqb_eq in T. congruence.
Qed.

Lemma ordinal_suffix_spec_mod (n : Z) :
  0 <= n -> ordinal_suffix_spec (Z.rem n 100) = ordinal_suffix_spec n.
Proof.
  intros Hn. unfold ordinal_suffix_spec.
  rewrite Z.rem_mod_nonneg by lia.
  replace ((n mod 100) mod 100) with (n mod 100)
    by (symmetry; apply Z.mod_mod; lia).
  replace ((n mod 100) mod 10) with (n mod 10); [reflexivity|].
  pose proof (Z.div_mod n 100 ltac:(lia)) as E.
  pose proof (Z.mod_pos_bound n 100 ltac:(lia)).
  pose proof (Z.div_mod (n mod 100) 10 ltac:(lia)).
  pose proof (Z.mod_pos_bound (n mod 100) 10 ltac:(lia)).
  pose proof (Z.div_mod n 10 ltac:(lia)).
  pose proof (Z.mod_pos_bound n 10 ltac:(lia)).
  lia.
Qed.

(** C7.  For every natural number [n], [ordinal n] is the decimal numeral of
    [n] followed by the English ordinal suffix chosen by the rule "teens take
    th, otherwise a last digit 1, 2, 3 takes st, nd, rd, everything else th";
    and [ordinal 1 = "1st"], [ordinal 11 = "11th"], [ordinal 21 = "21st"],
    [ordinal 112 = "112th"]. *)
Theorem ordinal_rule :
  (forall n : Z, 0 <= n -> ordinal n = ordinal_spec n)
  /\ ordinal 1 = js "1st"
  /\ ordinal 11 = js "11th"
  /\ ordinal 21 = js "21st"
  /\ ordinal 112 = js "112th".
Proof.
  split; [|repeat split; reflexivity].
  intros n Hn.
  unfold ordinal, ordinal_spec. f_equal.
  change (or_else _ _) with (picked_suffix (Z.rem n 100)).
  rewrite picked_suffix_spec.
  - apply ordinal_suffix_spec_mod; assumption.
  - rewrite Z.rem_mod_nonneg by lia.
    apply Z.mod_pos_bound; lia.
Qed.

Lemma ordinal_rule_witness : 0 <= 23 /\ ordinal 23 = js "23rd".
Proof.
  split; [lia|].
  rewrite (proj1 ordinal_rule 23); [reflexivity | lia].
Defined.

(* ------------------------------------------------------------------------- *)
(** ** [countSyllables] *)
(* ------------------------------------------------------------------------- *)

Lemma remove_cneg (p : cls) (s : jsstring) : remove (cneg p) s = filter p s.
Proof.
  unfold remove. apply filter_ext. intros c. unfold cneg.
  apply negb_involutive.
Qed.

Lemma munch_cons (p : cls) (bound : option nat) (c : N) (r : jsstring) :
  munch p bound (c :: r) =
  if p c && may_more bound
  then (c :: fst (munch p (less bound) r), snd (munch p (less bound) r))
  else ([], c :: r).
Proof.
  cbn [munch]. destruct (p c && may_more bound); [|reflexivity].
  destruct (munch p (less bound) r); reflexivity.
Qed.

Lemma munch_zero (p : cls) (s : jsstring) : munch p (Some O) s = ([], s).
Proof.
  destruct s as [|c r]; [reflexivity|].
  rewrite munch_cons. cbn [may_more]. rewrite andb_false_r. reflexivity.
Qed.

Lemma exec_vowels_cons (c : N) (r : jsstring) :
  exec re_vowels (c :: r) =
  if is_vowel c then
    match r with
    | c' :: r' => if is_vowel c' then Some ([c; c'], r') else Some ([c], r)
    | [] => Some ([c], [])
    end
  else None.
Proof.
  unfold re_vowels. cbn [exec icls rmax rmin].
  rewrite munch_cons. cbn [may_more less pred].
  destruct (is_vowel c); cbn [andb fst snd]; [|reflexivity].
  destruct r as [|c' r']; [reflexivity|].
  rewrite munch_cons. cbn [may_more less pred].
  destruct (is_vowel c'); cbn [andb fst snd]; [|reflexivity].
  rewrite munch_zero. reflexivity.
Qed.

Lemma matchAll_nil_vowels (k : nat) : matchAll re_vowels [] k = [].
Proof. destruct k; reflexivity. Qed.

Lemma matchAll_vowels_runs (n : nat) (w : jsstring) :
  (length w <= n)%nat -> alength (matchAll re_vowels w 0) = vowelRuns w.
Proof.
  revert w. induction n as [|n IH]; intros w Hlen.
  - destruct w; [reflexivity | simpl in Hlen; lia].
  - destruct w as [|c r]; [reflexivity|].
    simpl in Hlen.
    cbn [matchAll]. rewrite exec_vowels_cons. cbn [vowelRuns].
    destruct (is_vowel c).
    + destruct r as [|c' r'].
      * reflexivity.
      * destruct (is_vowel c').
        -- rewrite alength_cons. cbn [length pred matchAll].
           rewrite IH by (simpl in Hlen; lia). reflexivity.
        -- rewrite alength_cons. cbn [length pred].
           rewrite IH by lia. reflexivity.
    + apply IH; lia.
Qed.

Lemma vowelRuns_nonneg (w : jsstring) : 0 <= vowelRuns w.
Proof.
  assert (H : forall n w, (length w <= n)%nat -> 0 <= vowelRuns w).
  { intros n w' Hn. rewrite <- (matchAll_vowels_runs n w' Hn).
    apply alength_nonneg. }
  apply (H (length w)); lia.
Qed.

Lemma countSyllables_refines (word : jsstring) :
  countSyllables word = countSyllables_spec word.
Proof.
  unfold countSyllables, countSyllables_spec.
  rewrite remove_cneg.
  set (w := filter is_az (toLowerCase word)).
  destruct w as [|c r] eqn:Ew; [reflexivity|].
  cbn [falsy]. unfold jslength.
  destruct (Nat.leb_spec (length (c :: r)) 3) as [Hle|Hgt].
  - replace (Z.of_nat (length (c :: r)) <=? 3) with true
      by (symmetry; apply Z.leb_le; lia).
    reflexivity.
  - replace (Z.of_nat (length (c :: r)) <=? 3) with false
      by (symmetry; apply Z.leb_gt; lia).
    assert (Hm : (match match_g re_vowels (c :: r) with
                  | Some l => alength l | None => 0 end) = vowelRuns (c :: r)).
    { unfold match_g.
      rewrite <- (matchAll_vowels_runs (length (c :: r)) (c :: r)) by lia.
      destruct (matchAll re_vowels (c :: r) 0); reflexivity. }
    rewrite Hm.
    destruct (endsWith (c :: r) (js "e")), (endsWith (c :: r) (js "le"));
      f_equal; lia.
Qed.





(* ------------------------------------------------------------------------- *)
(** ** Comparison of binary64 values *)
(* ------------------------------------------------------------------------- *)

Lemma SFcompare_antisym (a b : spec_float) :
  SFcompare b a = option_map CompOpp (SFcompare a b).
Proof.
  destruct a as [sa|sa| |sa ma ea], b as [sb|sb| |sb mb eb];
    try reflexivity;
    try (destruct sa; reflexivity);
    try (destruct sb; reflexivity);
    try (destruct sa, sb; reflexivity).
  cbn [SFcompare option_map].
  destruct sa, sb; try reflexivity;
    rewrite (Z.compare_antisym ea eb);
    destruct (ea ?= eb)%Z; cbn [CompOpp]; try reflexivity;
    rewrite (Pos.compare_cont_antisym ma mb Eq); cbn [CompOpp];
    try reflexivity.
Qed.

Lemma F64_ltb_not_geb (x c : F64.t) :
  F64.gtb c x = true -> F64.geb x c = false.
Proof.
  unfold F64.gtb, F64.geb, SFltb, SFleb.
  rewrite (SFcompare_antisym x c).
  destruct (SFcompare x c) as [[| |]|]; cbn; congruence.
Qed.

Lemma F64_of_Z_25 : F64.of_Z 25 = S754_finite false 7036874417766400 (-48).
Proof. vm_compute. reflexivity. Qed.

Lemma F64_of_Z_35 : F64.of_Z 35 = S754_finite false 4925812092436480 (-47).
Proof. vm_compute. reflexivity. Qed.

Lemma F64_below_25_below_35 (x : F64.t) :
  F64.gtb (F64.of_Z 25) x = true -> F64.gtb (F64.of_Z 35) x = true.
Proof.
  unfold F64.gtb, SFltb. rewrite F64_of_Z_25, F64_of_Z_35.
  destruct x as [sg|sg| |sg m e]; cbn [SFcompare].
  - intros _. reflexivity.
  - destruct sg; intros H; [reflexivity | discriminate].
  - discriminate.
  - destruct sg; [intros _; reflexivity|].
    destruct (e ?= -48) eqn:E.
    + apply Z.compare_eq in E. subst e. intros _. reflexivity.
    + rewrite Z.compare_lt_iff in E.
      replace (e ?= -47) with Lt by (symmetry; apply Z.compare_lt_iff; lia).
      intros _. reflexivity.
    + discriminate.
Qed.

(* ------------------------------------------------------------------------- *)
(** ** [analyzeSentence] *)
(* ------------------------------------------------------------------------- *)

Lemma fold_left_sum (f : jsstring -> Z) (l : list jsstring) (a : Z) :
  fold_left (fun sum w => sum + f w) l a = a + fold_right Z.add 0 (map f l).
Proof.
  revert a; induction l as [|x l IH]; intros a; cbn [fold_left map fold_right].
  - lia.
  - rewrite IH. lia.
Qed.

Lemma sumSyllables_spec (ws : list jsstring) :
  sumSyllables ws = syllableTotal_spec ws.
Proof.
  unfold sumSyllables, syllableTotal_spec. rewrite fold_left_sum. lia.
Qed.

Lemma exec_punct_cons (c : N) (r : jsstring) :
  exec re_punct (c :: r) = if is_punct c then Some ([c], r) else None.
Proof.
  unfold re_punct, once. cbn [exec icls rmax rmin].
  rewrite munch_cons. cbn [may_more less pred].
  destruct (is_punct c); cbn [andb fst snd]; [|reflexivity].
  rewrite munch_zero. reflexivity.
Qed.

Lemma matchAll_punct (s : jsstring) :
  alength (matchAll re_punct s 0) = alength (filter is_punct s).
Proof.
  induction s as [|c r IH]; [reflexivity|].
  cbn [matchAll filter]. rewrite exec_punct_cons.
  destruct (is_punct c).
  - rewrite !alength_cons. cbn [length pred]. rewrite IH. reflexivity.
  - exact IH.
Qed.

Lemma punctuation_spec (s : jsstring) :
  alength (match match_g re_punct s with Some l => l | None => [] end)
  = punctuationCount_spec s.
Proof.
  unfold punctuationCount_spec. rewrite <- matchAll_punct.
  unfold match_g. destruct (matchAll re_punct s 0); reflexivity.
Qed.

Lemma sentenceScore_spec (s : jsstring) :
  trim s = s -> sentenceScore s = score_spec s.
Proof.
  intros Ht. unfold sentenceScore, score_spec.
  rewrite Ht, sumSyllables_spec, punctuation_spec. reflexivity.
Qed.

(** C5.  For every trimmed sentence the score is
    [wordCount * 0.5 + (syllableTotal / max(wordCount, 1)) * 10
     + punctuationCount * 2], the punctuation being counted among comma,
    semicolon, colon, em dash and en dash; a score of 35 or more is danger,
    a score from 25 up to 35 is warn, a lower score is none.  In the
    two-sentence scenario the first sentence is none or warn and the second
    is danger. *)
Theorem analyzeSentence_rule :
  (forall s, trim s = s ->
     let score := score_spec s in
     sentenceScore s = score
     /\ (F64.geb score (F64.of_Z 35) = true -> analyzeSentence s = Some danger)
     /\ (F64.geb score (F64.of_Z 25) = true ->
         F64.gtb (F64.of_Z 35) score = true -> analyzeSentence s = Some warn)
     /\ (F64.gtb (F64.of_Z 25) score = true -> analyzeSentence s = None))
  /\ (exists first second,
        match_g re_sentence scenario = Some [first; second]
        /\ (analyzeSentence (trim first) = None
            \/ analyzeSentence (trim first) = Some warn)
        /\ analyzeSentence (trim second) = Some danger).
Proof.
  split.
  - intros s Ht score. subst score.
    rewrite <- (sentenceScore_spec s Ht).
    split; [reflexivity|].
    unfold analyzeSentence. cbv zeta.
    split; [|split].
    + intros H. rewrite H. reflexivity.
    + intros H25 H35. apply F64_ltb_not_geb in H35.
      rewrite H35, H25. reflexivity.
    + intros H25.
      pose proof (F64_below_25_below_35 _ H25) as H35.
      apply F64_ltb_not_geb in H25. apply F64_ltb_not_geb in H35.
      rewrite H35, H25. reflexivity.
  - eexists. eexists. split; [vm_compute; reflexivity|].
    split; [left|]; vm_compute; reflexivity.
Qed.

Lemma analyzeSentence_rule_witness :
  trim (js "This is a short sentence.") = js "This is a short sentence."
  /\ analyzeSentence (js "This is a short sentence.") = None.
Proof.
  assert (Ht : trim (js "This is a short sentence.")
               = js "This is a short sentence.") by reflexivity.
  split; [exact Ht|].
  apply (proj1 analyzeSentence_rule (js "This is a short sentence.") Ht).
  vm_compute. reflexivity.
Defined.

(* ------------------------------------------------------------------------- *)
(** ** [stats] on an empty text *)
(* ------------------------------------------------------------------------- *)

(** C3, as amended.  When the trimmed active text is empty, the counts taken
    from the text ([words], [characters], [charactersWithFormatting],
    [sentences]) are zero, [readingGrade] is the em dash and [keywords] is
    empty.  [paragraphs] is not taken from the text: it is 0 without an
    editor, the number of children of the document when nothing is selected,
    and the number of block nodes met in the selection otherwise. *)
Theorem stats_empty_text (selectionText textSnapshot : jsstring)
    (editor : option Editor) :
  trim (if falsy selectionText then textSnapshot else selectionText) = [] ->
  let r := stats selectionText textSnapshot editor in
  words r = 0
  /\ characters r = 0
  /\ charactersWithFormatting r = 0
  /\ sentences r = 0
  /\ readingGrade r = noGrade
  /\ keywords r = []
  /\ paragraphs r =
       match editor with
       | None => 0
       | Some ed =>
           if sel_from (selection ed) =? sel_to (selection ed)
           then childCount (doc ed)
           else nodesBetween countBlock (doc ed)
                  (sel_from (selection ed)) (sel_to (selection ed)) 0 0
       end.
Proof.
  intros Ht. unfold stats. rewrite Ht. cbn [words characters
    charactersWithFormatting sentences readingGrade keywords paragraphs].
  repeat split; reflexivity.
Qed.

Lemma stats_empty_text_witness :
  let r := stats [] (js "  ") None in
  words r = 0 /\ sentences r = 0 /\ keywords r = [] /\ paragraphs r = 0.
Proof.
  assert (Ht : trim (if falsy [] then js "  " else []) = []) by reflexivity.
  pose proof (stats_empty_text [] (js "  ") None Ht) as H.
  cbv zeta in H |- *.
  destruct H as (Hw & _ & _ & Hs & _ & Hk & Hp).
  repeat split; assumption.
Defined.

(** C3 as stated fails: in the editor's initial state the text is empty and
    the document holds one empty paragraph, which [paragraphs] counts. *)
Lemma stats_empty_paragraphs_counterexample :
  let ed := MkEditor (Elem doc_t [paragraph []]) (MkSelection 1 1) in
  trim (if falsy [] then [] else []) = []
  /\ paragraphs (stats [] [] (Some ed)) = 1
  /\ paragraphs (stats [] [] (Some ed)) <> 0.
Proof.
  cbv zeta. split; [reflexivity|]. split; [reflexivity|].
  vm_compute. discriminate.
Qed.

(* ------------------------------------------------------------------------- *)
(** ** The matcher *)
(* ------------------------------------------------------------------------- *)

Lemma munch_split (p : cls) (bound : option nat) (s : jsstring) :
  fst (munch p bound s) ++ snd (munch p bound s) = s.
Proof.
  revert bound; induction s as [|c r IH]; intros bound; [reflexivity|].
  rewrite munch_cons.
  destruct (p c && may_more bound); cbn [fst snd app]; [|reflexivity].
  rewrite IH. reflexivity.
Qed.

Lemma munch_unbounded (p : cls) (s : jsstring) :
  munch p None s = (takeWhile p s, dropWhile p s).
Proof.
  induction s as [|c r IH]; [reflexivity|].
  rewrite munch_cons. cbn [may_more less takeWhile dropWhile].
  rewrite andb_true_r, IH. destruct (p c); reflexivity.
Qed.

Lemma exec_split (re : regex) (s m rest : jsstring) :
  exec re s = Some (m, rest) -> s = m ++ rest.
Proof.
  revert s m rest; induction re as [|i re IH]; intros s m rest; cbn [exec].
  - intros H; inversion H; reflexivity.
  - pose proof (munch_split (icls i) (rmax i) s) as Hs.
    destruct (munch (icls i) (rmax i) s) as [a r]. cbn [fst snd] in Hs.
    destruct (length a <? rmin i)%nat; [discriminate|].
    destruct (exec re r) as [[b r']|] eqn:E; [|discriminate].
    intros H; inversion H; subst.
    rewrite (IH _ _ _ E), app_assoc. reflexivity.
Qed.

Lemma matchAll_skip (re : regex) (s : jsstring) (k : nat) :
  (k <= length s)%nat -> matchAll re s k = matchAll re (skipn k s) 0.
Proof.
  revert k; induction s as [|c r IH]; intros k Hk.
  - destruct k; [reflexivity | simpl in Hk; lia].
  - destruct k as [|k]; [reflexivity|].
    cbn [matchAll skipn]. apply IH. simpl in Hk. lia.
Qed.

Lemma matchAll_step (re : regex) (c : N) (r m rest : jsstring) :
  exec re (c :: r) = Some (m, rest) -> m <> [] ->
  matchAll re (c :: r) 0 = m :: matchAll re rest 0.
Proof.
  intros E Hm. cbn [matchAll]. rewrite E. f_equal.
  pose proof (exec_split _ _ _ _ E) as Hs.
  destruct m as [|d m']; [congruence|].
  cbn [app] in Hs. inversion Hs; subst.
  cbn [length pred].
  rewrite matchAll_skip by (rewrite length_app; lia).
  rewrite skipn_app, skipn_all, Nat.sub_diag. reflexivity.
Qed.

(* ------------------------------------------------------------------------- *)
(** ** The sentence segmenter *)
(* ------------------------------------------------------------------------- *)

Lemma dropWhile_idem (p : cls) (s : jsstring) :
  dropWhile p (dropWhile p s) = dropWhile p s.
Proof.
  induction s as [|c r IH]; [reflexivity|].
  cbn [dropWhile]. destruct (p c) eqn:E; [exact IH|].
  cbn [dropWhile]. rewrite E. reflexivity.
Qed.

Lemma takeWhile_dropWhile (p : cls) (s : jsstring) :
  takeWhile p s ++ dropWhile p s = s.
Proof.
  induction s as [|c r IH]; [reflexivity|].
  cbn [takeWhile dropWhile]. destruct (p c); [|reflexivity].
  cbn [app]. rewrite IH. reflexivity.
Qed.

Lemma dropWhile_length (p : cls) (s : jsstring) :
  (length (dropWhile p s) <= length s)%nat.
Proof.
  induction s as [|c r IH]; [reflexivity|].
  cbn [dropWhile]. destruct (p c); simpl; lia.
Qed.

Lemma trim_length (s : jsstring) : jslength (trim s) <= jslength s.
Proof.
  unfold trim, trimEnd, trimStart, jslength.
  rewrite length_rev.
  pose proof (dropWhile_length is_space (rev (dropWhile is_space s))) as H1.
  rewrite length_rev in H1.
  pose proof (dropWhile_length is_space s). lia.
Qed.

Lemma cneg_apply (p : cls) (c : N) : cneg p c = negb (p c).
Proof. reflexivity. Qed.

(** One match of [/[^.!?]+[.!?]*/] at a code unit that is not a terminator:
    the run of non-terminators and the terminators after it. *)
Lemma exec_sentence_cons (c : N) (r : jsstring) :
  exec re_sentence (c :: r) =
  if is_term c then None
  else
    let body := takeWhile (cneg is_term) (c :: r) in
    let tail := dropWhile (cneg is_term) (c :: r) in
    Some (body ++ takeWhile is_term tail, dropWhile is_term tail).
Proof.
  unfold re_sentence, plus, star. cbn [exec icls rmax rmin].
  rewrite !munch_unbounded.
  cbn [takeWhile dropWhile]. rewrite !cneg_apply.
  destruct (is_term c); cbn [negb length Nat.ltb Nat.leb]; [reflexivity|].
  rewrite app_nil_r. reflexivity.
Qed.

(** The runs are consecutive and leave out nothing but the terminators the
    text begins with. *)
Lemma sentence_runs_concat (s : jsstring) :
  concat (matchAll re_sentence s 0) = dropWhile is_term s.
Proof.
  assert (H : forall n s, (length s <= n)%nat ->
                          concat (matchAll re_sentence s 0) = dropWhile is_term s).
  { clear s. induction n as [|n IH]; intros s Hn.
    - destruct s; [reflexivity | simpl in Hn; lia].
    - destruct s as [|c r]; [reflexivity|].
      pose proof (exec_sentence_cons c r) as E.
      destruct (is_term c) eqn:Ec.
      + cbn [matchAll]. rewrite E. cbn [dropWhile]. rewrite Ec.
        apply IH. simpl in Hn. lia.
      + cbv zeta in E.
        set (body := takeWhile (cneg is_term) (c :: r)) in *.
        set (tail := dropWhile (cneg is_term) (c :: r)) in *.
        assert (Hb : body <> []).
        { subst body. cbn [takeWhile]. rewrite cneg_apply, Ec.
          cbn [negb]. discriminate. }
        assert (Hm : body ++ takeWhile is_term tail <> []).
        { destruct body; [congruence | discriminate]. }
        rewrite (matchAll_step _ _ _ _ _ E Hm).
        cbn [concat].
        pose proof (exec_split _ _ _ _ E) as Hs.
        rewrite IH.
        * rewrite dropWhile_idem. cbn [dropWhile]. rewrite Ec.
          symmetry. exact Hs.
        * assert (Hl : length (c :: r)
                       = (length (body ++ takeWhile is_term tail)
                          + length (dropWhile is_term tail))%nat).
          { rewrite Hs at 1. apply length_app. }
          assert (0 < length (body ++ takeWhile is_term tail))%nat.
          { destruct (body ++ takeWhile is_term tail);
              [congruence | simpl; lia]. }
          lia. }
  apply (H (length s)); lia.
Qed.

Lemma totalLength_concat (parts : list jsstring) :
  totalLength parts = jslength (concat parts).
Proof.
  induction parts as [|p ps IH]; [reflexivity|].
  cbn [totalLength fold_right concat]. fold (totalLength ps).
  unfold jslength in *. rewrite length_app, IH. lia.
Qed.

Lemma sentence_runs_length (text : jsstring) (parts : list jsstring) :
  match_g re_sentence text = Some parts ->
  totalLength parts = jslength (dropWhile is_term text)
  /\ totalLength parts <= jslength text.
Proof.
  unfold match_g. intros H.
  assert (Hp : matchAll re_sentence text 0 = parts)
    by (destruct (matchAll re_sentence text 0); inversion H; reflexivity).
  rewrite totalLength_concat, <- Hp, sentence_runs_concat.
  split; [reflexivity|].
  pose proof (dropWhile_length is_term text). unfold jslength. lia.
Qed.

(** C4 at a failing input.  On a block that begins with an ellipsis the only
    run is the text after the ellipsis: the run lengths add up to 5, not to
    the 8 code units of the text, and the run starts at index 3 while the
    offset tracked for it is 0, so that the span of a risky sentence is put
    three positions too early. *)
Theorem segmenter_leading_terminators :
  match_g re_sentence (js "...Wait.") = Some [js "Wait."]
  /\ totalLength [js "Wait."] = 5
  /\ jslength (js "...Wait.") = 8
  /\ js "...Wait." = js "..." ++ js "Wait."
  /\ getSentenceHeatmap (Elem doc_t [paragraph (js "..." ++ scenario)])
     = [MkHeat 26 204 danger]
  /\ getSentenceHeatmap (Elem doc_t [paragraph scenario])
     = [MkHeat 26 204 danger].
Proof.
  repeat split; vm_compute; reflexivity.
Qed.

(* ------------------------------------------------------------------------- *)
(** ** Chains of spans *)
(* ------------------------------------------------------------------------- *)

Lemma chain_le (lo hi : Z) (l : list SentenceHeat) : chain lo hi l -> lo <= hi.
Proof.
  revert lo; induction l as [|s r IH]; intros lo; cbn [chain]; [auto|].
  intros (H1 & H2 & H3). apply IH in H3. lia.
Qed.

Lemma chain_weaken (lo lo' hi hi' : Z) (l : list SentenceHeat) :
  lo' <= lo -> hi <= hi' -> chain lo hi l -> chain lo' hi' l.
Proof.
  revert lo lo'; induction l as [|s r IH]; intros lo lo' Hlo Hhi; cbn [chain].
  - lia.
  - intros (H1 & H2 & H3). repeat split; try lia.
    apply (IH (to s) (to s)); [lia | assumption | assumption].
Qed.

Lemma chain_app (lo mid hi : Z) (l1 l2 : list SentenceHeat) :
  chain lo mid l1 -> chain mid hi l2 -> chain lo hi (l1 ++ l2).
Proof.
  revert lo; induction l1 as [|s r IH]; intros lo; cbn [chain app].
  - intros H1 H2. apply (chain_weaken mid lo hi hi); [lia | lia | assumption].
  - intros (H1 & H2 & H3) H4. repeat split; auto.
Qed.

Lemma chain_bounds (lo hi : Z) (l : list SentenceHeat) :
  chain lo hi l ->
  Forall (fun s => lo <= from s /\ from s < to s /\ to s <= hi) l.
Proof.
  revert lo; induction l as [|s r IH]; intros lo; cbn [chain]; [constructor|].
  intros (H1 & H2 & H3). constructor.
  - pose proof (chain_le _ _ _ H3). lia.
  - apply IH in H3. eapply Forall_impl; [|exact H3].
    cbn beta. intros a. lia.
Qed.

Lemma chain_sorted (lo hi : Z) (l : list SentenceHeat) :
  chain lo hi l ->
  StronglySorted (fun a b => from a < from b) l
  /\ ForallOrdPairs (fun a b => to a <= from b) l.
Proof.
  revert lo; induction l as [|s r IH]; intros lo; cbn [chain].
  - intros _. split; constructor.
  - intros (H1 & H2 & H3).
    destruct (IH _ H3) as [IS IP].
    pose proof (chain_bounds _ _ _ H3) as Hb.
    split; constructor; try assumption;
      (eapply Forall_impl; [|exact Hb]); cbn beta; intros a; lia.
Qed.

(* ------------------------------------------------------------------------- *)
(** ** The spans of one block *)
(* ------------------------------------------------------------------------- *)

Lemma heatLoop_app (pos : Z) (parts : list jsstring) (offset : Z)
    (results : list SentenceHeat) :
  heatLoop pos parts offset results = results ++ heatLoop pos parts offset [].
Proof.
  revert offset results; induction parts as [|p ps IH]; intros offset results.
  - cbn [heatLoop]. rewrite app_nil_r. reflexivity.
  - cbn [heatLoop].
    destruct (falsy (trim p)); [apply IH|].
    destruct (analyzeSentence (trim p)); [|apply IH].
    rewrite IH. rewrite (IH _ ([] ++ _)).
    rewrite app_assoc. reflexivity.
Qed.

Lemma totalLength_nonneg (parts : list jsstring) : 0 <= totalLength parts.
Proof.
  rewrite totalLength_concat. unfold jslength. lia.
Qed.

Lemma heatLoop_chain (pos : Z) (parts : list jsstring) (offset : Z) :
  chain (pos + 1 + offset) (pos + 1 + offset + totalLength parts)
        (heatLoop pos parts offset []).
Proof.
  revert offset; induction parts as [|p ps IH]; intros offset.
  - cbn [heatLoop chain totalLength fold_right]. lia.
  - cbn [heatLoop totalLength fold_right]. fold (totalLength ps).
    pose proof (totalLength_nonneg ps) as Hn.
    assert (Hp : 0 <= jslength p) by (unfold jslength; lia).
    specialize (IH (offset + jslength p)).
    assert (Hskip : chain (pos + 1 + offset)
                          (pos + 1 + offset + (jslength p + totalLength ps))
                          (heatLoop pos ps (offset + jslength p) [])).
    { eapply chain_weaken; [| |exact IH]; lia. }
    destruct (falsy (trim p)) eqn:Ef; [exact Hskip|].
    destruct (analyzeSentence (trim p)) as [lv|]; [|exact Hskip].
    rewrite heatLoop_app. cbn [app chain from to].
    pose proof (trim_length p) as Ht.
    assert (0 < jslength (trim p)).
    { destruct (trim p); [discriminate|]. unfold jslength. simpl. lia. }
    repeat split; try lia.
    eapply chain_weaken; [| |exact IH]; lia.
Qed.

Lemma heatVisit_spans (node : Node) (pos : Z) (results : list SentenceHeat) :
  heatVisit node pos results = (true, results ++ blockSpans node pos).
Proof.
  unfold blockSpans, heatVisit.
  destruct (negb (isTextblock node) || falsy (textContent node));
    [cbn [snd]; rewrite app_nil_r; reflexivity|].
  destruct (match_g re_sentence (textContent node));
    cbn [snd]; [|rewrite app_nil_r; reflexivity].
  rewrite heatLoop_app. reflexivity.
Qed.

Lemma blockSpans_not_textblock (node : Node) (pos : Z) :
  isTextblock node = false -> blockSpans node pos = [].
Proof.
  intros H. unfold blockSpans, heatVisit. rewrite H. reflexivity.
Qed.

Lemma blockSpans_no_text (node : Node) (pos : Z) :
  textContent node = [] -> blockSpans node pos = [].
Proof.
  intros H. unfold blockSpans, heatVisit. rewrite H.
  rewrite orb_true_r. reflexivity.
Qed.

(** The spans of a block lie one after another inside its text. *)
Lemma blockSpans_chain (node : Node) (pos : Z) :
  chain (pos + 1) (pos + 1 + jslength (textContent node))
        (blockSpans node pos).
Proof.
  assert (H0 : chain (pos + 1) (pos + 1 + jslength (textContent node)) [])
    by (cbn [chain]; unfold jslength; lia).
  unfold blockSpans, heatVisit.
  destruct (negb (isTextblock node) || falsy (textContent node));
    [exact H0|].
  destruct (match_g re_sentence (textContent node)) as [parts|] eqn:E;
    [|exact H0].
  cbn [snd].
  destruct (sentence_runs_length _ _ E) as [_ Hle].
  pose proof (heatLoop_chain pos parts 0) as Hc.
  eapply chain_weaken; [| |exact Hc]; lia.
Qed.

(* ------------------------------------------------------------------------- *)
(** ** The traversal of the document *)
(* ------------------------------------------------------------------------- *)

Lemma Node_forall_ind (P : Node -> Prop) :
  (forall s, P (Text s)) ->
  (forall ty cs, Forall P cs -> P (Elem ty cs)) ->
  forall n, P n.
Proof.
  intros HT HE. fix IH 1. intros [s|ty cs]; [apply HT|].
  apply HE. induction cs as [|c cs IHcs]; constructor; [apply IH | exact IHcs].
Qed.

Lemma visitChildren_cons {St : Type} (f : Node -> Z -> St -> bool * St)
    (enter : Node -> Z -> Z -> Z -> St -> St) (from to ns : Z)
    (child : Node) (rest : list Node) (pos : Z) (st : St) :
  visitChildren f enter from to ns (child :: rest) pos st =
  if pos <? to then
    visitChildren f enter from to ns rest (pos + nodeSize child)
      (if pos + nodeSize child >? from then
         if fst (f child (ns + pos) st) && negb (contentSize child =? 0)
         then enter child (Z.max 0 (from - (pos + 1)))
                    (Z.min (contentSize child) (to - (pos + 1)))
                    (ns + (pos + 1)) (snd (f child (ns + pos) st))
         else snd (f child (ns + pos) st)
       else st)
  else st.
Proof.
  cbn [visitChildren]. destruct (pos <? to); [|reflexivity].
  destruct (pos + nodeSize child >? from); [|reflexivity].
  destruct (f child (ns + pos) st); reflexivity.
Qed.

Lemma nodesBetween_Elem {St : Type} (f : Node -> Z -> St -> bool * St)
    (ty : NodeType) (cs : list Node) (from to ns : Z) (st : St) :
  nodesBetween f (Elem ty cs) from to ns st
  = visitChildren f (nodesBetween f) from to ns cs 0 st.
Proof. reflexivity. Qed.

(** A callback that only appends to its state makes the whole traversal
    append to it. *)
Section Writer.

Context {B : Type}.
Variable f : Node -> Z -> list B -> bool * list B.
Variable h : Node -> Z -> list B.
Hypothesis f_emits : forall n p st, f n p st = (true, st ++ h n p).

Lemma visitChildren_writer (from to ns : Z) (cs : list Node) :
  Forall (fun c => forall from to ns st,
              nodesBetween f c from to ns st
              = st ++ nodesBetween f c from to ns []) cs ->
  forall pos st,
    visitChildren f (nodesBetween f) from to ns cs pos st
    = st ++ visitChildren f (nodesBetween f) from to ns cs pos [].
Proof.
  induction 1 as [|c cs Hc _ IH]; intros pos st.
  - cbn [visitChildren]. rewrite app_nil_r. reflexivity.
  - rewrite !visitChildren_cons.
    destruct (pos <? to); [|rewrite app_nil_r; reflexivity].
    rewrite IH. symmetry. rewrite IH. symmetry.
    rewrite app_assoc. f_equal.
    destruct (pos + nodeSize c >? from); [|rewrite app_nil_r; reflexivity].
    rewrite !f_emits. cbn [fst snd andb app].
    destruct (negb (contentSize c =? 0)); [|reflexivity].
    rewrite Hc. symmetry. rewrite Hc. symmetry.
    rewrite app_assoc. reflexivity.
Qed.

Lemma nodesBetween_writer (n : Node) :
  forall from to ns st,
    nodesBetween f n from to ns st = st ++ nodesBetween f n from to ns [].
Proof.
  induction n as [s|ty cs IH] using Node_forall_ind; intros from to ns st.
  - cbn [nodesBetween]. rewrite app_nil_r. reflexivity.
  - rewrite !nodesBetween_Elem. apply visitChildren_writer. exact IH.
Qed.

End Writer.

Lemma collectVisit_emits (n : Node) (p : Z) (st : list (Node * Z)) :
  collectVisit n p st = (true, st ++ [(n, p)]).
Proof. reflexivity. Qed.

(** What such a traversal appends is what its callback appends at each node
    visited, in the order of the visits. *)
Section WriterVisits.

Context {B : Type}.
Variable f : Node -> Z -> list B -> bool * list B.
Variable h : Node -> Z -> list B.
Hypothesis f_emits : forall n p st, f n p st = (true, st ++ h n p).

Lemma visitChildren_visits (from to ns : Z) (cs : list Node) :
  Forall (fun c => forall from to ns,
              nodesBetween f c from to ns []
              = flat_map (fun np => h (fst np) (snd np)) (nodesBetween collectVisit c from to ns []))
         cs ->
  forall pos,
    visitChildren f (nodesBetween f) from to ns cs pos []
    = flat_map (fun np => h (fst np) (snd np))
        (visitChildren collectVisit (nodesBetween collectVisit)
                       from to ns cs pos []).
Proof.
  induction 1 as [|c cs Hc Hcs IH]; intros pos; [reflexivity|].
  rewrite !visitChildren_cons.
  destruct (pos <? to); [|reflexivity].
  rewrite (visitChildren_writer f h f_emits).
  2:{ apply Forall_forall. intros x _. apply (nodesBetween_writer f h f_emits). }
  rewrite (visitChildren_writer collectVisit _ collectVisit_emits).
  2:{ apply Forall_forall. intros x _.
      apply (nodesBetween_writer collectVisit _ collectVisit_emits). }
  rewrite flat_map_app, <- IH. f_equal.
  destruct (pos + nodeSize c >? from); [|reflexivity].
  rewrite f_emits, collectVisit_emits. cbn [fst snd andb app].
  destruct (negb (contentSize c =? 0)).
  - rewrite (nodesBetween_writer f h f_emits).
    rewrite (nodesBetween_writer collectVisit _ collectVisit_emits).
    rewrite flat_map_app, <- Hc. cbn [flat_map fst snd].
    rewrite app_nil_r. reflexivity.
  - cbn [flat_map fst snd].
    rewrite app_nil_r. reflexivity.
Qed.

Lemma nodesBetween_visits (n : Node) :
  forall from to ns,
    nodesBetween f n from to ns []
    = flat_map (fun np => h (fst np) (snd np)) (nodesBetween collectVisit n from to ns []).
Proof.
  induction n as [s|ty cs IH] using Node_forall_ind; intros from to ns.
  - reflexivity.
  - rewrite !nodesBetween_Elem. apply visitChildren_visits. exact IH.
Qed.

End WriterVisits.

(** The heatmap is the spans of the nodes visited, block after block. *)
Lemma heatmap_by_blocks (doc : Node) :
  getSentenceHeatmap doc
  = flat_map (fun np => blockSpans (fst np) (snd np)) (visited doc).
Proof.
  unfold getSentenceHeatmap, visited, descendants.
  apply (nodesBetween_visits heatVisit blockSpans heatVisit_spans).
Qed.

(* ------------------------------------------------------------------------- *)
(** ** Sizes and texts of valid nodes *)
(* ------------------------------------------------------------------------- *)

Lemma fragmentSize_cons (c : Node) (cs : list Node) :
  fragmentSize (c :: cs) = nodeSize c + fragmentSize cs.
Proof. reflexivity. Qed.

Lemma nodeSize_Elem (ty : NodeType) (cs : list Node) :
  nodeSize (Elem ty cs) = if tyLeaf ty then 1 else 2 + fragmentSize cs.
Proof. reflexivity. Qed.

Lemma nodeSize_nonneg (n : Node) : 0 <= nodeSize n.
Proof.
  induction n as [s|ty cs IH] using Node_forall_ind.
  - cbn [nodeSize]. unfold jslength. lia.
  - rewrite nodeSize_Elem. destruct (tyLeaf ty); [lia|].
    assert (0 <= fragmentSize cs); [|lia].
    induction IH as [|c cs Hc _ IHcs]; [cbn; lia|].
    rewrite fragmentSize_cons. lia.
Qed.

Lemma fragmentSize_nonneg (cs : list Node) : 0 <= fragmentSize cs.
Proof.
  induction cs as [|c cs IH]; [cbn; lia|].
  rewrite fragmentSize_cons. pose proof (nodeSize_nonneg c). lia.
Qed.

Lemma valid_Elem (ty : NodeType) (cs : list Node) :
  valid (Elem ty cs) = true ->
  (tyLeaf ty = true -> cs = [])
  /\ (tyBlock ty && tyInlineContent ty = true -> forallb inline_only cs = true)
  /\ forallb valid cs = true.
Proof.
  intros H. cbn [valid] in H.
  apply andb_true_iff in H as [H H3]. apply andb_true_iff in H as [H1 H2].
  repeat split; [| |exact H3].
  - intros E. rewrite E in H1. destruct cs; [reflexivity | discriminate].
  - intros E. rewrite E in H2. exact H2.
Qed.

Lemma text_within_size (n : Node) :
  valid n = true -> jslength (textContent n) <= nodeSize n.
Proof.
  induction n as [s|ty cs IH] using Node_forall_ind; intros Hv.
  - cbn [textContent nodeSize]. lia.
  - apply valid_Elem in Hv as (Hleaf & _ & Hcs).
    rewrite nodeSize_Elem. cbn [textContent].
    destruct (tyLeaf ty).
    + rewrite (Hleaf eq_refl). cbn. lia.
    + assert (jslength (flat_map textContent cs) <= fragmentSize cs); [|lia].
      clear Hleaf. induction IH as [|c cs Hc _ IHcs]; [cbn; lia|].
      cbn [forallb] in Hcs. apply andb_true_iff in Hcs as [Hvc Hvcs].
      cbn [flat_map]. rewrite fragmentSize_cons.
      unfold jslength in *. rewrite length_app.
      specialize (Hc Hvc). specialize (IHcs Hvcs). lia.
Qed.

Lemma textblock_text_within_content (n : Node) :
  valid n = true -> isTextblock n = true ->
  textContent n = [] \/ 2 + jslength (textContent n) <= nodeSize n.
Proof.
  destruct n as [s|ty cs]; [discriminate|].
  intros Hv _. pose proof (text_within_size _ Hv) as Ht.
  apply valid_Elem in Hv as (Hleaf & _ & Hcs).
  rewrite nodeSize_Elem in *. cbn [textContent] in *.
  destruct (tyLeaf ty).
  - left. rewrite (Hleaf eq_refl). reflexivity.
  - right.
    assert (jslength (flat_map textContent cs) <= fragmentSize cs); [|lia].
    clear Ht Hleaf. induction cs as [|c cs IH]; [cbn; lia|].
    cbn [forallb] in Hcs. apply andb_true_iff in Hcs as [Hvc Hvcs].
    cbn [flat_map]. rewrite fragmentSize_cons.
    unfold jslength in *. rewrite length_app.
    pose proof (text_within_size _ Hvc). unfold jslength in *.
    specialize (IH Hvcs). lia.
Qed.

Lemma content_within_size (n : Node) :
  valid n = true -> 1 + contentSize n <= nodeSize n.
Proof.
  destruct n as [s|ty cs]; intros Hv.
  - cbn [valid] in Hv. destruct s; [discriminate|].
    cbn. unfold jslength. simpl length. lia.
  - apply valid_Elem in Hv as (Hleaf & _ & _).
    rewrite nodeSize_Elem. unfold contentSize. cbn [children].
    destruct (tyLeaf ty); [rewrite (Hleaf eq_refl); cbn; lia | lia].
Qed.

(** The spans of a node lie inside the positions the node occupies. *)
Lemma blockSpans_within_node (n : Node) (p : Z) :
  valid n = true -> chain p (p + nodeSize n) (blockSpans n p).
Proof.
  intros Hv. pose proof (nodeSize_nonneg n) as Hn.
  destruct (isTextblock n) eqn:Et.
  - destruct (textblock_text_within_content n Hv Et) as [E|E].
    + rewrite (blockSpans_no_text _ _ E). cbn [chain]. lia.
    + eapply chain_weaken; [| |apply blockSpans_chain]; lia.
  - rewrite (blockSpans_not_textblock _ _ Et). cbn [chain]. lia.
Qed.

(* ------------------------------------------------------------------------- *)
(** ** The spans of a valid document *)
(* ------------------------------------------------------------------------- *)

Lemma inline_only_not_textblock (n : Node) :
  inline_only n = true -> isTextblock n = false.
Proof.
  destruct n as [s|ty cs]; [reflexivity|].
  cbn [inline_only isTextblock]. intros H.
  apply andb_true_iff in H as [H _].
  destruct (tyBlock ty); [discriminate | reflexivity].
Qed.

Lemma heat_inline_children (from to ns : Z) (cs : list Node) :
  Forall (fun c => inline_only c = true ->
                   forall from to ns st,
                     nodesBetween heatVisit c from to ns st = st) cs ->
  forallb inline_only cs = true ->
  forall pos st,
    visitChildren heatVisit (nodesBetween heatVisit) from to ns cs pos st = st.
Proof.
  induction 1 as [|c cs Hc _ IH]; intros Hin pos st; [reflexivity|].
  cbn [forallb] in Hin. apply andb_true_iff in Hin as [Hic Hics].
  rewrite visitChildren_cons.
  destruct (pos <? to); [|reflexivity].
  rewrite (IH Hics).
  destruct (pos + nodeSize c >? from); [|reflexivity].
  rewrite heatVisit_spans.
  rewrite (blockSpans_not_textblock _ _ (inline_only_not_textblock _ Hic)).
  cbn [fst snd andb]. rewrite app_nil_r.
  destruct (negb (contentSize c =? 0)); [apply (Hc Hic) | reflexivity].
Qed.

(** Nothing inside inline content gives a span. *)
Lemma heat_inline (n : Node) :
  inline_only n = true ->
  forall from to ns st, nodesBetween heatVisit n from to ns st = st.
Proof.
  induction n as [s|ty cs IH] using Node_forall_ind;
    intros Hi from to ns st; [reflexivity|].
  rewrite nodesBetween_Elem.
  cbn [inline_only] in Hi. apply andb_true_iff in Hi as [_ Hi].
  apply heat_inline_children; assumption.
Qed.

Lemma heat_chain_children (from to ns : Z) (cs : list Node) :
  Forall (fun c => valid c = true ->
                   forall from to ns,
                     chain ns (ns + contentSize c)
                           (nodesBetween heatVisit c from to ns [])) cs ->
  forallb valid cs = true ->
  forall pos,
    chain (ns + pos) (ns + pos + fragmentSize cs)
          (visitChildren heatVisit (nodesBetween heatVisit) from to ns cs pos []).
Proof.
  induction 1 as [|c cs Hc _ IH]; intros Hv pos.
  - cbn [visitChildren chain fragmentSize fold_right]. lia.
  - cbn [forallb] in Hv. apply andb_true_iff in Hv as [Hvc Hvcs].
    rewrite fragmentSize_cons.
    pose proof (nodeSize_nonneg c) as Hn.
    pose proof (fragmentSize_nonneg cs) as Hf.
    rewrite visitChildren_cons.
    destruct (pos <? to); [|cbn [chain]; lia].
    rewrite (visitChildren_writer heatVisit blockSpans heatVisit_spans).
    2:{ apply Forall_forall. intros x _.
        apply (nodesBetween_writer heatVisit blockSpans heatVisit_spans). }
    apply (chain_app _ (ns + (pos + nodeSize c))).
    2:{ eapply chain_weaken; [| |apply (IH Hvcs (pos + nodeSize c))]; lia. }
    destruct (pos + nodeSize c >? from); [|cbn [chain]; lia].
    rewrite heatVisit_spans. cbn [fst snd andb app].
    pose proof (blockSpans_within_node c (ns + pos) Hvc) as Hb.
    destruct (negb (contentSize c =? 0)).
    + rewrite (nodesBetween_writer heatVisit blockSpans heatVisit_spans).
      destruct (isTextblock c) eqn:Et.
      * (* a textblock: its content is inline and adds nothing *)
        destruct c as [s|ty cs']; [discriminate|].
        pose proof Hvc as Hvc'.
        apply valid_Elem in Hvc' as (_ & Hin & _).
        cbn [isTextblock] in Et. specialize (Hin Et).
        rewrite nodesBetween_Elem.
        rewrite heat_inline_children; [| |exact Hin].
        -- rewrite app_nil_r.
           eapply chain_weaken; [| |exact Hb]; lia.
        -- apply Forall_forall. intros x _ Hx. apply heat_inline. exact Hx.
      * rewrite (blockSpans_not_textblock _ _ Et). cbn [app].
        pose proof (content_within_size c Hvc).
        eapply chain_weaken; [| |apply (Hc Hvc)]; lia.
    + eapply chain_weaken; [| |exact Hb]; lia.
Qed.

Lemma heat_chain (n : Node) :
  valid n = true ->
  forall from to ns,
    chain ns (ns + contentSize n) (nodesBetween heatVisit n from to ns []).
Proof.
  induction n as [s|ty cs IH] using Node_forall_ind; intros Hv from to ns.
  - cbn [nodesBetween chain]. unfold contentSize. cbn. lia.
  - rewrite nodesBetween_Elem.
    apply valid_Elem in Hv as (_ & _ & Hcs).
    pose proof (heat_chain_children from to ns cs IH Hcs 0) as H.
    unfold contentSize. cbn [children].
    eapply chain_weaken; [| |exact H]; lia.
Qed.

Lemma blockSpans_bounds (node : Node) (pos : Z) (s : SentenceHeat) :
  In s (blockSpans node pos) ->
  pos + 1 <= from s /\ from s < to s
  /\ to s <= pos + 1 + jslength (textContent node).
Proof.
  intros Hin.
  pose proof (chain_bounds _ _ _ (blockSpans_chain node pos)) as H.
  rewrite Forall_forall in H. exact (H s Hin).
Qed.

(** C1.  In the heatmap of any document every span has [from < to], and the
    spans made from one text block do not overlap; the heatmap is the spans
    of the visited blocks put one after another, and for a valid document
    (the content of a textblock is inline) it is sorted by ascending [from],
    no two of its spans overlapping. *)
Theorem heatmap_spans_ordered (doc : Node) :
  (forall s, In s (getSentenceHeatmap doc) -> from s < to s)
  /\ (forall node pos,
        ForallOrdPairs (fun a b => to a <= from b) (blockSpans node pos))
  /\ getSentenceHeatmap doc
     = flat_map (fun np => blockSpans (fst np) (snd np)) (visited doc)
  /\ (valid doc = true ->
      StronglySorted (fun a b => from a < from b) (getSentenceHeatmap doc)
      /\ ForallOrdPairs (fun a b => to a <= from b) (getSentenceHeatmap doc)).
Proof.
  split; [|split; [|split]].
  - intros s Hin. rewrite heatmap_by_blocks in Hin.
    apply in_flat_map in Hin as ([node pos] & _ & Hs). cbn [fst snd] in Hs.
    apply blockSpans_bounds in Hs. lia.
  - intros node pos.
    exact (proj2 (chain_sorted _ _ _ (blockSpans_chain node pos))).
  - apply heatmap_by_blocks.
  - intros Hv. unfold getSentenceHeatmap, descendants.
    exact (chain_sorted _ _ _ (heat_chain doc Hv 0 (contentSize doc) 0)).
Qed.

Lemma heatmap_spans_ordered_witness :
  let doc := Elem doc_t [paragraph scenario; paragraph scenario] in
  valid doc = true
  /\ getSentenceHeatmap doc = [MkHeat 26 204 danger; MkHeat 232 410 danger]
  /\ StronglySorted (fun a b => from a < from b) (getSentenceHeatmap doc).
Proof.
  cbv zeta.
  assert (Hv : valid (Elem doc_t [paragraph scenario; paragraph scenario])
               = true) by reflexivity.
  split; [exact Hv|]. split; [vm_compute; reflexivity|].
  exact (proj1 (proj2 (proj2 (proj2 (heatmap_spans_ordered _))) Hv)).
Defined.

(** C10.  Every span of the heatmap comes from a text block visited at some
    position [pos] with text [t], and lies in the content range of that
    block: [pos + 1 <= from] and [to <= pos + 1 + length t]. *)
Theorem heatmap_spans_within_block (doc : Node) (s : SentenceHeat) :
  In s (getSentenceHeatmap doc) ->
  exists node pos,
    In (node, pos) (visited doc)
    /\ isTextblock node = true
    /\ In s (blockSpans node pos)
    /\ pos + 1 <= from s
    /\ to s <= pos + 1 + jslength (textContent node).
Proof.
  intros Hin. rewrite heatmap_by_blocks in Hin.
  apply in_flat_map in Hin as ([node pos] & Hv & Hs). cbn [fst snd] in Hs.
  exists node, pos.
  split; [exact Hv|]. split.
  - destruct (isTextblock node) eqn:E; [reflexivity|].
    rewrite (blockSpans_not_textblock _ _ E) in Hs. destruct Hs.
  - split; [exact Hs|].
    apply blockSpans_bounds in Hs. lia.
Qed.

Lemma heatmap_spans_within_block_witness :
  let doc := Elem doc_t [paragraph scenario] in
  let s := MkHeat 26 204 danger in
  In s (getSentenceHeatmap doc)
  /\ exists node pos,
       In (node, pos) (visited doc)
       /\ isTextblock node = true
       /\ In s (blockSpans node pos)
       /\ pos + 1 <= from s
       /\ to s <= pos + 1 + jslength (textContent node).
Proof.
  cbv zeta.
  assert (Hin : In (MkHeat 26 204 danger)
                   (getSentenceHeatmap (Elem doc_t [paragraph scenario])))
    by (vm_compute; left; reflexivity).
  split; [exact Hin|].
  exact (heatmap_spans_within_block _ _ Hin).
Defined.

(* ------------------------------------------------------------------------- *)
(** ** Relative order in a list *)
(* ------------------------------------------------------------------------- *)

Section Before.

Context {A : Type}.

Lemma before_cons (a x y : A) (l : list A) :
  before (a :: l) x y <-> (x = a /\ In y l) \/ before l x y.
Proof.
  split.
  - intros (l1 & l2 & l3 & E). destruct l1 as [|c l1]; cbn [app] in E.
    + inversion E; subst. left. split; [reflexivity|].
      apply in_or_app. right. left. reflexivity.
    + inversion E; subst. right. exists l1, l2, l3. reflexivity.
  - intros [[-> Hy] | (l1 & l2 & l3 & ->)].
    + apply in_split in Hy as (l2 & l3 & ->).
      exists [], l2, l3. reflexivity.
    + exists (a :: l1), l2, l3. reflexivity.
Qed.

Lemma before_nil (x y : A) : ~ before [] x y.
Proof. intros (l1 & l2 & l3 & E). destruct l1; discriminate. Qed.

Lemma before_In (l : list A) (x y : A) : before l x y -> In x l /\ In y l.
Proof.
  intros (l1 & l2 & l3 & ->). split.
  - apply in_or_app. right. left. reflexivity.
  - apply in_or_app. right. right. apply in_or_app. right. left. reflexivity.
Qed.

Lemma before_app (l1 l2 : list A) (x y : A) :
  before (l1 ++ l2) x y <->
  before l1 x y \/ (In x l1 /\ In y l2) \/ before l2 x y.
Proof.
  induction l1 as [|a l1 IH]; cbn [app].
  - split; [auto|]. intros [H|[[[] _]|H]]; [|exact H].
    exfalso. exact (before_nil _ _ H).
  - rewrite !before_cons, IH. cbn [In]. rewrite in_app_iff.
    split.
    + intros [[-> [H|H]] | [H|[[H1 H2]|H]]]; auto 7.
    + intros [[[-> H]|H] | [[[<-|H1] H2] | H]]; auto 7.
Qed.

Lemma before_firstn (n : nat) (l : list A) (x y : A) :
  before (firstn n l) x y -> before l x y.
Proof.
  intros H. rewrite <- (firstn_skipn n l). apply before_app. left. exact H.
Qed.

Lemma before_filter (p : A -> bool) (l : list A) (x y : A) :
  before (filter p l) x y -> before l x y.
Proof.
  induction l as [|a l IH]; cbn [filter]; [auto|].
  destruct (p a).
  - rewrite !before_cons. intros [[-> H]|H]; [left|right; auto].
    split; [reflexivity|]. apply filter_In in H. tauto.
  - intros H. apply before_cons. right. auto.
Qed.

Lemma before_sorted (R : A -> A -> Prop) (l : list A) (x y : A) :
  StronglySorted R l -> before l x y -> R x y.
Proof.
  induction 1 as [|a l Hs IH Hf]; intros H.
  - exfalso. exact (before_nil _ _ H).
  - apply before_cons in H as [[-> Hy]|H]; [|auto].
    rewrite Forall_forall in Hf. auto.
Qed.

End Before.

Lemma before_map {A B : Type} (f : A -> B) (l : list A) (x y : A) :
  before l x y -> before (map f l) (f x) (f y).
Proof.
  intros (l1 & l2 & l3 & ->).
  exists (map f l1), (map f l2), (map f l3).
  rewrite !map_app. cbn [map]. rewrite map_app. reflexivity.
Qed.

Lemma before_map_inv {A B : Type} (f : A -> B) (l : list A) (a b : B) :
  before (map f l) a b ->
  exists x y, before l x y /\ f x = a /\ f y = b.
Proof.
  induction l as [|c l IH]; cbn [map].
  - intros H. exfalso. exact (before_nil _ _ H).
  - rewrite before_cons. intros [[-> Hb]|H].
    + apply in_map_iff in Hb as (y & Ey & Hy).
      exists c, y. split; [|auto]. apply before_cons. left. auto.
    + destruct (IH H) as (x & y & Hxy & Ex & Ey).
      exists x, y. split; [|auto]. apply before_cons. right. exact Hxy.
Qed.

(* ------------------------------------------------------------------------- *)
(** ** The sort *)
(* ------------------------------------------------------------------------- *)

Section SortFacts.

Context {A : Type}.
Variable cmp : A -> A -> Z.

Lemma sort_insert_In (z : A) (l : list A) (a : A) :
  In a (sort_insert cmp z l) <-> a = z \/ In a l.
Proof.
  induction l as [|w l IH]; cbn [sort_insert In]; [intuition auto|].
  destruct (cmp z w >? 0); cbn [In]; [rewrite IH|]; intuition auto.
Qed.

Lemma sort_In (l : list A) (a : A) : In a (sort cmp l) <-> In a l.
Proof.
  induction l as [|z l IH]; [reflexivity|].
  unfold sort in *. cbn [fold_right In].
  rewrite sort_insert_In, IH. intuition auto.
Qed.

Lemma sort_insert_length (z : A) (l : list A) :
  length (sort_insert cmp z l) = S (length l).
Proof.
  induction l as [|w l IH]; [reflexivity|].
  cbn [sort_insert]. destruct (cmp z w >? 0); cbn [length]; [rewrite IH|];
    reflexivity.
Qed.

Lemma before_sort_insert (z : A) (l : list A) (x y : A) :
  before (sort_insert cmp z l) x y ->
  before l x y \/ (x = z /\ In y l) \/ (y = z /\ In x l /\ cmp z x > 0).
Proof.
  induction l as [|w l IH]; cbn [sort_insert].
  - rewrite before_cons. intros [[_ []]|H].
    exfalso. exact (before_nil _ _ H).
  - destruct (cmp z w >? 0) eqn:E.
    + rewrite before_cons. intros [[-> Hy]|H].
      * apply sort_insert_In in Hy as [->|Hy].
        -- right. right. split; [reflexivity|]. split; [left; reflexivity|].
           apply Z.gtb_lt in E. lia.
        -- left. apply before_cons. left. auto.
      * destruct (IH H) as [H'|[[-> Hy]|(-> & Hx & Hc)]].
        -- left. apply before_cons. right. exact H'.
        -- right. left. split; [reflexivity | right; exact Hy].
        -- right. right. split; [reflexivity|]. split; [right; exact Hx|].
           exact Hc.
    + rewrite before_cons. intros [[-> Hy]|H]; [right; left; auto | left; auto].
Qed.

(** The sort keeps the order of any two elements unless the comparator
    puts the later one strictly first. *)
Lemma sort_stable (l : list A) (x y : A) :
  before (sort cmp l) x y -> before l x y \/ cmp y x > 0.
Proof.
  revert x y; induction l as [|z l IH]; intros x y.
  - intros H. exfalso. exact (before_nil _ _ H).
  - unfold sort. cbn [fold_right]. fold (sort cmp l). intros H.
    apply before_sort_insert in H as [H|[[-> Hy]|(-> & Hx & Hc)]].
    + destruct (IH _ _ H) as [H'|H']; [left|right; exact H'].
      apply before_cons. right. exact H'.
    + left. apply before_cons. left. split; [reflexivity|].
      apply (proj1 (sort_In _ _)) in Hy. exact Hy.
    + right. exact Hc.
Qed.

Variable key : A -> Z.

Lemma sort_insert_desc (z : A) (l : list A) :
  (forall x y, In x (z :: l) -> In y (z :: l) -> cmp x y = key y - key x) ->
  StronglySorted (fun x y => key y <= key x) l ->
  StronglySorted (fun x y => key y <= key x) (sort_insert cmp z l).
Proof.
  intros Hc Hs. induction Hs as [|w l Hs IH Hf]; cbn [sort_insert].
  - constructor; constructor.
  - assert (Ezw : cmp z w = key w - key z)
      by (apply Hc; [left | right; left]; reflexivity).
    rewrite Forall_forall in Hf.
    destruct (cmp z w >? 0) eqn:E.
    + apply Z.gtb_lt in E. constructor.
      * apply IH. intros x y Hx Hy. apply Hc.
        -- destruct Hx as [<-|Hx]; [left; reflexivity | right; right; exact Hx].
        -- destruct Hy as [<-|Hy]; [left; reflexivity | right; right; exact Hy].
      * apply Forall_forall. intros a Ha.
        apply sort_insert_In in Ha as [->|Ha]; [lia | auto].
    + assert (cmp z w <= 0) by (destruct (Z.gtb_spec (cmp z w) 0); [discriminate | lia]).
      constructor; [constructor; [exact Hs | apply Forall_forall; exact Hf]|].
      constructor; [lia|].
      apply Forall_forall. intros a Ha. specialize (Hf a Ha). lia.
Qed.

Lemma sort_desc (l : list A) :
  (forall x y, In x l -> In y l -> cmp x y = key y - key x) ->
  StronglySorted (fun x y => key y <= key x) (sort cmp l).
Proof.
  induction l as [|z l IH]; intros Hc; [constructor|].
  unfold sort. cbn [fold_right]. fold (sort cmp l).
  apply sort_insert_desc.
  - intros x y Hx Hy. apply Hc.
    + destruct Hx as [<-|Hx]; [left; reflexivity|].
      right. apply (proj1 (sort_In _ _)) in Hx. exact Hx.
    + destruct Hy as [<-|Hy]; [left; reflexivity|].
      right. apply (proj1 (sort_In _ _)) in Hy. exact Hy.
  - apply IH. intros x y Hx Hy. apply Hc; right; assumption.
Qed.

End SortFacts.

(* ------------------------------------------------------------------------- *)
(** ** Properties of an object *)
(* ------------------------------------------------------------------------- *)

Lemma own_set_same (o : object) (k : jsstring) (v : jsval) :
  own (set o k v) k = Some v.
Proof.
  induction o as [|[k0 w] o IH]; cbn [set own].
  - rewrite jseqb_refl. reflexivity.
  - destruct (jseqb k0 k) eqn:E; cbn [own]; rewrite E; [reflexivity | exact IH].
Qed.

Lemma own_set_other (o : object) (k k' : jsstring) (v : jsval) :
  k' <> k -> own (set o k v) k' = own o k'.
Proof.
  intros Hne. induction o as [|[k0 w] o IH]; cbn [set own].
  - replace (jseqb k k') with false; [reflexivity|].
    symmetry. apply jseqb_neq. congruence.
  - destruct (jseqb k0 k) eqn:E; cbn [own].
    + apply jseqb_eq in E. subst k0.
      replace (jseqb k k') with false; [reflexivity|].
      symmetry. apply jseqb_neq. congruence.
    + destruct (jseqb k0 k'); [reflexivity | exact IH].
Qed.

Lemma keys_set (o : object) (k : jsstring) (v : jsval) :
  map fst (set o k v)
  = match own o k with Some _ => map fst o | None => map fst o ++ [k] end.
Proof.
  induction o as [|[k0 w] o IH]; cbn [set own map fst app]; [reflexivity|].
  destruct (jseqb k0 k) eqn:E; cbn [map fst]; [reflexivity|].
  rewrite IH. destruct (own o k); reflexivity.
Qed.

Lemma own_None (o : object) (k : jsstring) :
  own o k = None <-> ~ In k (map fst o).
Proof.
  induction o as [|[k0 w] o IH]; cbn [own map fst In]; [tauto|].
  destruct (jseqb k0 k) eqn:E.
  - apply jseqb_eq in E. split; [discriminate | tauto].
  - apply jseqb_neq in E. rewrite IH. tauto.
Qed.

Lemma In_own (o : object) (k : jsstring) (v : jsval) :
  NoDup (map fst o) -> In (k, v) o -> own o k = Some v.
Proof.
  induction o as [|[k0 w] o IH]; cbn [own map fst In]; [tauto|].
  intros Hnd [E|Hin].
  - inversion E; subst. rewrite jseqb_refl. reflexivity.
  - inversion Hnd as [|? ? Hn Hnd']; subst.
    destruct (jseqb k0 k) eqn:E; [|auto].
    apply jseqb_eq in E. subst k0. exfalso. apply Hn.
    apply in_map_iff. exists (k, v). auto.
Qed.

(* ------------------------------------------------------------------------- *)
(** ** Frequencies and first occurrences *)
(* ------------------------------------------------------------------------- *)

Lemma frequency_app (k : jsstring) (l1 l2 : list jsstring) :
  frequency k (l1 ++ l2) = frequency k l1 + frequency k l2.
Proof. unfold frequency. rewrite filter_app, alength_app. reflexivity. Qed.

Lemma frequency_single (k x : jsstring) :
  frequency k [x] = if jseqb k x then 1 else 0.
Proof. unfold frequency. cbn [filter]. destruct (jseqb k x); reflexivity. Qed.

Lemma frequency_nonneg (k : jsstring) (l : list jsstring) : 0 <= frequency k l.
Proof. apply alength_nonneg. Qed.

Lemma frequency_zero (k : jsstring) (l : list jsstring) :
  frequency k l = 0 <-> ~ In k l.
Proof.
  induction l as [|x l IH]; [cbn; tauto|].
  change (x :: l) with ([x] ++ l). rewrite frequency_app, frequency_single.
  pose proof (frequency_nonneg k l). cbn [app In].
  destruct (jseqb k x) eqn:E.
  - apply jseqb_eq in E. subst. split; [lia | tauto].
  - apply jseqb_neq in E. rewrite Z.add_0_l, IH. intuition congruence.
Qed.

Lemma firstIndex_lt (a : jsstring) (l : list jsstring) :
  In a l -> (firstIndex a l < length l)%nat.
Proof.
  induction l as [|x l IH]; cbn [In firstIndex length]; [tauto|].
  destruct (jseqb a x) eqn:E; [lia|].
  apply jseqb_neq in E. intros [H|H]; [congruence|]. specialize (IH H). lia.
Qed.

Lemma firstIndex_app_in (a : jsstring) (l r : list jsstring) :
  In a l -> firstIndex a (l ++ r) = firstIndex a l.
Proof.
  induction l as [|x l IH]; cbn [In firstIndex app]; [tauto|].
  destruct (jseqb a x) eqn:E; [reflexivity|].
  apply jseqb_neq in E. intros [H|H]; [congruence|]. rewrite IH; auto.
Qed.

Lemma firstIndex_app_notin (a : jsstring) (l r : list jsstring) :
  ~ In a l -> firstIndex a (l ++ r) = (length l + firstIndex a r)%nat.
Proof.
  induction l as [|x l IH]; cbn [In firstIndex app length]; [reflexivity|].
  intros H. destruct (jseqb a x) eqn:E.
  - apply jseqb_eq in E. subst. tauto.
  - rewrite IH by tauto. reflexivity.
Qed.

(* ------------------------------------------------------------------------- *)
(** ** The tally *)
(* ------------------------------------------------------------------------- *)

Lemma tally_fold (ws : list jsstring) (freq : object) :
  tally ws freq = fold_left addKey (countedKeys ws) freq.
Proof.
  revert freq; induction ws as [|w ws IH]; intros freq; [reflexivity|].
  cbn [tally]. unfold countedKeys. cbn [map filter]. fold (countedKeys ws).
  unfold counted at 1.
  destruct (falsy (keyOf w) || STOP_WORDS_has (keyOf w)); cbn [negb].
  - apply IH.
  - cbn [fold_left]. rewrite IH. reflexivity.
Qed.

Lemma tallied_seen (o : object) (seen : list jsstring) (a : jsstring) :
  tallied o seen -> (In a (map fst o) <-> In a seen).
Proof.
  intros (_ & Hown & _). specialize (Hown a).
  pose proof (own_None o a) as Hn. pose proof (frequency_zero a seen) as Hz.
  destruct (frequency a seen =? 0) eqn:E.
  - apply Z.eqb_eq in E. rewrite Hown in Hn. tauto.
  - apply Z.eqb_neq in E. rewrite Hown in Hn.
    split; intros H.
    + destruct (in_dec (list_eq_dec N.eq_dec) a seen); [assumption|tauto].
    + destruct (in_dec (list_eq_dec N.eq_dec) a (map fst o)); [assumption|].
      destruct Hn as [_ Hn]. specialize (Hn n). discriminate.
Qed.

Lemma tallied_step (o : object) (seen : list jsstring) (k : jsstring) :
  tallied o seen -> k <> js "constructor" ->
  tallied (addKey o k) (seen ++ [k]).
Proof.
  intros Ht Hk. pose proof Ht as (Hnd & Hown & Hord).
  pose proof (tallied_seen o seen) as Hseen.
  assert (Hfreq : forall k', frequency k' (seen ++ [k])
                             = frequency k' seen + if jseqb k' k then 1 else 0).
  { intros k'. rewrite frequency_app, frequency_single. reflexivity. }
  assert (Hold : forall a b, In a seen -> In b seen ->
             (firstIndex a seen < firstIndex b seen)%nat ->
             (firstIndex a (seen ++ [k]) < firstIndex b (seen ++ [k]))%nat).
  { intros a b Ha Hb H. rewrite !firstIndex_app_in by assumption. exact H. }
  unfold addKey, get. pose proof (Hown k) as Hk0.
  assert (Ec : jseqb k (js "constructor") = false) by (apply jseqb_neq; exact Hk).
  destruct (frequency k seen =? 0) eqn:E0; rewrite Hk0.
  - (* a new key *)
    apply Z.eqb_eq in E0. rewrite Ec. cbn [bump].
    assert (Hnk : ~ In k seen) by (apply frequency_zero; exact E0).
    split; [|split].
    + rewrite keys_set, Hk0.
      apply NoDup_app; [exact Hnd | repeat constructor; intros [] |].
      intros a Ha [E|[]]. subst a. apply Hnk. apply (Hseen k Ht). exact Ha.
    + intros k'. rewrite Hfreq. destruct (jseqb k' k) eqn:E.
      * apply jseqb_eq in E. subst k'. rewrite own_set_same, E0. reflexivity.
      * apply jseqb_neq in E. rewrite own_set_other by exact E.
        rewrite Z.add_0_r. apply Hown.
    + intros a b. rewrite keys_set, Hk0, before_app.
      intros [H|[[Ha Hb]|H]].
      * destruct (before_In _ _ _ H) as [Ha Hb].
        apply Hold; [apply (Hseen a Ht) | apply (Hseen b Ht) | apply Hord];
          assumption.
      * destruct Hb as [E|[]]. subst b.
        apply (Hseen a Ht) in Ha.
        rewrite firstIndex_app_in by exact Ha.
        rewrite firstIndex_app_notin by exact Hnk.
        cbn [firstIndex]. rewrite jseqb_refl.
        pose proof (firstIndex_lt a seen Ha). lia.
      * apply before_cons in H as [[_ []]|H]. exfalso. exact (before_nil _ _ H).
  - (* a key seen before *)
    apply Z.eqb_neq in E0. cbn [bump].
    pose proof (frequency_nonneg k seen) as Hn.
    split; [|split].
    + rewrite keys_set, Hk0. exact Hnd.
    + intros k'. rewrite Hfreq. destruct (jseqb k' k) eqn:E.
      * apply jseqb_eq in E. subst k'. rewrite own_set_same.
        replace (frequency k seen + 1 =? 0) with false
          by (symmetry; apply Z.eqb_neq; lia).
        reflexivity.
      * apply jseqb_neq in E. rewrite own_set_other by exact E.
        rewrite Z.add_0_r. apply Hown.
    + intros a b. rewrite keys_set, Hk0. intros H.
      destruct (before_In _ _ _ H) as [Ha Hb].
      apply Hold; [apply (Hseen a Ht) | apply (Hseen b Ht) | apply Hord];
        assumption.
Qed.

Lemma tallied_fold (keys : list jsstring) :
  forall o seen,
    tallied o seen -> ~ In (js "constructor") keys ->
    tallied (fold_left addKey keys o) (seen ++ keys).
Proof.
  induction keys as [|k keys IH]; intros o seen Ht Hk.
  - rewrite app_nil_r. exact Ht.
  - cbn [fold_left].
    replace (seen ++ k :: keys) with ((seen ++ [k]) ++ keys)
      by (rewrite <- app_assoc; reflexivity).
    apply IH.
    + apply tallied_step; [exact Ht|]. intros ->. apply Hk. left. reflexivity.
    + intros H. apply Hk. right. exact H.
Qed.

Lemma tallied_nil : tallied [] [].
Proof.
  split; [constructor|]. split; [reflexivity|].
  intros a b H. exfalso. exact (before_nil _ _ H).
Qed.

Lemma tally_tallied (ws : list jsstring) :
  ~ In (js "constructor") (countedKeys ws) ->
  tallied (tally ws []) (countedKeys ws).
Proof.
  intros H. rewrite tally_fold.
  exact (tallied_fold _ [] [] tallied_nil H).
Qed.

(* ------------------------------------------------------------------------- *)
(** ** [Object.entries] *)
(* ------------------------------------------------------------------------- *)

Lemma insert_index_In (z e : jsstring * jsval) (l : object) :
  In e (insert_index z l) <-> e = z \/ In e l.
Proof.
  induction l as [|w l IH]; cbn [insert_index In]; [intuition auto|].
  destruct (index_of (fst z) <? index_of (fst w)); cbn [In];
    [|rewrite IH]; intuition auto.
Qed.

Lemma by_index_In (l : object) (e : jsstring * jsval) :
  In e (fold_right insert_index [] l) <-> In e l.
Proof.
  induction l as [|z l IH]; [reflexivity|].
  cbn [fold_right In]. rewrite insert_index_In, IH. intuition auto.
Qed.

Lemma insert_index_sorted (z : jsstring * jsval) (l : object) :
  StronglySorted (fun x y => index_of (fst x) <= index_of (fst y)) l ->
  StronglySorted (fun x y => index_of (fst x) <= index_of (fst y))
                 (insert_index z l).
Proof.
  induction 1 as [|w l Hs IH Hf]; cbn [insert_index].
  - constructor; constructor.
  - rewrite Forall_forall in Hf.
    destruct (Z.ltb_spec (index_of (fst z)) (index_of (fst w))).
    + constructor; [constructor; [exact Hs | apply Forall_forall; exact Hf]|].
      constructor; [lia|].
      apply Forall_forall. intros a Ha. specialize (Hf a Ha). lia.
    + constructor; [exact IH|].
      apply Forall_forall. intros a Ha.
      apply insert_index_In in Ha as [->|Ha]; [lia | auto].
Qed.

Lemma by_index_sorted (l : object) :
  StronglySorted (fun x y => index_of (fst x) <= index_of (fst y))
                 (fold_right insert_index [] l).
Proof.
  induction l as [|z l IH]; [constructor|].
  cbn [fold_right]. apply insert_index_sorted. exact IH.
Qed.

Lemma Object_entries_In (o : object) (e : jsstring * jsval) :
  In e (Object_entries o) <-> In e o.
Proof.
  unfold Object_entries. rewrite in_app_iff, by_index_In, !filter_In.
  destruct (is_index (fst e)); cbn [negb]; intuition discriminate.
Qed.

(** Two entries that [Object.entries] lists in this order are two array
    indices in ascending order, or an array index and another key, or two
    other keys created in this order. *)
Lemma Object_entries_order (o : object) (x y : jsstring * jsval) :
  before (Object_entries o) x y ->
  (is_index (fst x) = true /\ is_index (fst y) = true
   /\ index_of (fst x) <= index_of (fst y))
  \/ (is_index (fst x) = true /\ is_index (fst y) = false)
  \/ (is_index (fst x) = false /\ is_index (fst y) = false /\ before o x y).
Proof.
  unfold Object_entries. rewrite before_app.
  intros [H|[[Hx Hy]|H]].
  - left. destruct (before_In _ _ _ H) as [Hx Hy].
    apply (proj1 (by_index_In _ _)) in Hx. apply (proj1 (filter_In _ _ _)) in Hx.
    apply (proj1 (by_index_In _ _)) in Hy. apply (proj1 (filter_In _ _ _)) in Hy.
    repeat split; [tauto | tauto|].
    exact (before_sorted _ _ _ _ (by_index_sorted _) H).
  - right. left. apply (proj1 (by_index_In _ _)) in Hx.
    apply (proj1 (filter_In _ _ _)) in Hx. apply (proj1 (filter_In _ _ _)) in Hy.
    destruct Hy as [_ Hy]. apply negb_true_iff in Hy. tauto.
  - right. right. destruct (before_In _ _ _ H) as [Hx Hy].
    apply filter_In in Hx as [_ Hx]. apply filter_In in Hy as [_ Hy].
    apply negb_true_iff in Hx. apply negb_true_iff in Hy.
    repeat split; [assumption | assumption|].
    exact (before_filter _ _ _ _ H).
Qed.

(* ------------------------------------------------------------------------- *)
(** ** The keyword list *)
(* ------------------------------------------------------------------------- *)

Lemma keyword_words (n : Z) (es : list (jsstring * jsval)) :
  map word (map (toKeyword n) es) = map fst es.
Proof.
  rewrite map_map. apply map_ext. intros [w c]. reflexivity.
Qed.

Lemma tallied_entry (o : object) (seen : list jsstring)
    (e : jsstring * jsval) :
  tallied o seen -> In e o ->
  snd e = Num (frequency (fst e) seen) /\ countOf e = frequency (fst e) seen.
Proof.
  intros (Hnd & Hown & _) Hin. destruct e as [k v]. cbn [fst snd].
  pose proof (In_own _ _ _ Hnd Hin) as E. rewrite Hown in E.
  destruct (frequency k seen =? 0); [discriminate|].
  inversion E; subst. split; reflexivity.
Qed.

Lemma byCount_counts (o : object) (seen : list jsstring)
    (x y : jsstring * jsval) :
  tallied o seen -> In x o -> In y o -> byCount x y = countOf y - countOf x.
Proof.
  intros Ht Hx Hy.
  destruct (tallied_entry _ _ _ Ht Hx) as [Ex _].
  destruct (tallied_entry _ _ _ Ht Hy) as [Ey _].
  unfold byCount, countOf. rewrite Ex, Ey. reflexivity.
Qed.

(** The order of the ranked entries of a tally, before the first ten are
    taken. *)
Lemma ranked_entries_order (o : object) (seen : list jsstring)
    (x y : jsstring * jsval) :
  tallied o seen ->
  before (sort byCount (Object_entries o)) x y ->
  frequency (fst y) seen <= frequency (fst x) seen
  /\ (frequency (fst x) seen = frequency (fst y) seen ->
      entriesOrder seen (fst x) (fst y)).
Proof.
  intros Ht H.
  destruct (before_In _ _ _ H) as [Hx Hy].
  apply (proj1 (sort_In _ _ _)) in Hx. apply (proj1 (Object_entries_In _ _)) in Hx.
  apply (proj1 (sort_In _ _ _)) in Hy. apply (proj1 (Object_entries_In _ _)) in Hy.
  destruct (tallied_entry _ _ _ Ht Hx) as [_ Cx].
  destruct (tallied_entry _ _ _ Ht Hy) as [_ Cy].
  split.
  - assert (Hs : StronglySorted (fun a b => countOf b <= countOf a)
                   (sort byCount (Object_entries o))).
    { apply sort_desc. intros a b Ha Hb.
      apply (proj1 (Object_entries_In _ _)) in Ha.
      apply (proj1 (Object_entries_In _ _)) in Hb.
      exact (byCount_counts _ _ _ _ Ht Ha Hb). }
    pose proof (before_sorted _ _ _ _ Hs H) as Hle. cbn beta in Hle. lia.
  - intros Eq.
    apply sort_stable in H as [H|H].
    2:{ rewrite (byCount_counts _ _ _ _ Ht Hy Hx) in H. lia. }
    unfold entriesOrder.
    apply Object_entries_order in H as [(Ix & Iy & Hle)|[[Ix Iy]|(Ix & Iy & Hb)]];
      unfold is_index, index_of in *;
      destruct (array_index (fst x)), (array_index (fst y));
      try discriminate; try exact I; try exact Hle.
    destruct Ht as (_ & _ & Hord). apply Hord.
    exact (before_map fst _ _ _ Hb).
Qed.

(** C2, as amended.  The keyword list has at most ten entries.  When no word
    of the text has the key [constructor], the entries are in descending
    order of frequency, and two entries of equal frequency are in the order
    of the keys of the tally object: keys that are array indices (decimal
    numerals below 2^32 - 1 without a leading zero) first, in ascending
    order, then the other keys in the order in which they were first
    seen. *)
Theorem keywords_order (selectionText textSnapshot : jsstring)
    (editor : option Editor) :
  let text := if falsy selectionText then textSnapshot else selectionText in
  let keys := countedKeys (wordsOf (trim text)) in
  let listed := map word (keywords (stats selectionText textSnapshot editor)) in
  (length listed <= 10)%nat
  /\ (~ In (js "constructor") keys ->
      forall a b, before listed a b ->
        frequency b keys <= frequency a keys
        /\ (frequency a keys = frequency b keys -> entriesOrder keys a b)).
Proof.
  cbv zeta. unfold stats. cbn [keywords]. rewrite keyword_words.
  unfold topEntries. split.
  - rewrite length_map. apply firstn_le_length.
  - intros Hk a b H.
    apply before_map_inv in H as (x & y & H & <- & <-).
    apply before_firstn in H.
    exact (ranked_entries_order _ _ _ _ (tally_tallied _ Hk) H).
Qed.

Lemma keywords_order_witness :
  let keys := countedKeys (wordsOf (trim (js "tea for two and two for tea"))) in
  ~ In (js "constructor") keys
  /\ before (map word (keywords (stats [] (js "tea for two and two for tea") None)))
            (js "tea") (js "two")
  /\ entriesOrder keys (js "tea") (js "two").
Proof.
  cbv zeta.
  assert (Hk : ~ In (js "constructor")
                 (countedKeys (wordsOf (trim (js "tea for two and two for tea"))))).
  { vm_compute. intros [H|[H|[H|[H|[]]]]]; discriminate. }
  assert (Hb : before (map word (keywords
                 (stats [] (js "tea for two and two for tea") None)))
                 (js "tea") (js "two")).
  { exists [], [], []. vm_compute. reflexivity. }
  split; [exact Hk|]. split; [exact Hb|].
  apply (proj2 (keywords_order [] (js "tea for two and two for tea") None) Hk
               _ _ Hb).
  vm_compute. reflexivity.
Defined.

(** C2 as stated fails: in "b 1" both words occur once and "b" is seen
    first, yet the key "1", an array index, is listed before "b". *)
Lemma keywords_first_seen_counterexample :
  let keys := countedKeys (wordsOf (trim (js "b 1"))) in
  map word (keywords (stats [] (js "b 1") None)) = [js "1"; js "b"]
  /\ frequency (js "1") keys = frequency (js "b") keys
  /\ (firstIndex (js "b") keys < firstIndex (js "1") keys)%nat
  /\ ~ (firstIndex (js "1") keys < firstIndex (js "b") keys)%nat.
Proof.
  cbv zeta. split; [vm_compute; reflexivity|].
  split; [vm_compute; reflexivity|].
  split; vm_compute; lia.
Qed.

Lemma In_firstn {A : Type} (n : nat) (l : list A) (a : A) :
  In a (firstn n l) -> In a l.
Proof.
  intros H. rewrite <- (firstn_skipn n l). apply in_or_app. left. exact H.
Qed.

Lemma NoDup_firstn {A : Type} (n : nat) (l : list A) :
  NoDup l -> NoDup (firstn n l).
Proof.
  intros H. rewrite <- (firstn_skipn n l) in H.
  exact (NoDup_app_remove_r _ _ H).
Qed.

Lemma keys_addKey (o : object) (k a : jsstring) :
  In a (map fst (addKey o k)) -> In a (map fst o) \/ a = k.
Proof.
  unfold addKey. rewrite keys_set. destruct (own o k); [auto|].
  rewrite in_app_iff. cbn [In]. intuition auto.
Qed.

Lemma keys_fold (keys : list jsstring) :
  forall o a,
    In a (map fst (fold_left addKey keys o)) -> In a (map fst o) \/ In a keys.
Proof.
  induction keys as [|k keys IH]; intros o a; cbn [fold_left In]; [auto|].
  intros H. apply IH in H as [H|H]; [|auto].
  apply keys_addKey in H as [H|H]; auto.
Qed.

(** Whatever the text, no stop word and no empty key is listed. *)
Lemma keywords_never_stop_words (selectionText textSnapshot : jsstring)
    (editor : option Editor) (k : Keyword) :
  In k (keywords (stats selectionText textSnapshot editor)) ->
  STOP_WORDS_has (word k) = false /\ word k <> [].
Proof.
  unfold stats. cbn [keywords]. intros H.
  apply (in_map word) in H. rewrite keyword_words in H.
  apply in_map_iff in H as (e & <- & He).
  unfold topEntries in He. apply In_firstn in He.
  apply (proj1 (sort_In _ _ _)) in He.
  apply (proj1 (Object_entries_In _ _)) in He.
  apply (in_map fst) in He. rewrite tally_fold in He.
  apply keys_fold in He as [[]|He].
  unfold countedKeys in He. apply filter_In in He as [_ Hc].
  unfold counted in Hc. apply negb_true_iff, orb_false_iff in Hc as [Hf Hs].
  split; [exact Hs|]. intros E. rewrite E in Hf. discriminate.
Qed.

Lemma frequency_cons (k x : jsstring) (keys : list jsstring) :
  frequency k (x :: keys) = (if jseqb k x then 1 else 0) + frequency k keys.
Proof.
  change (x :: keys) with ([x] ++ keys).
  rewrite frequency_app, frequency_single. reflexivity.
Qed.

Lemma frequency_sum_once (x : jsstring) (l : list jsstring) :
  NoDup l ->
  fold_right Z.add 0 (map (fun k => if jseqb k x then 1 else 0) l) <= 1.
Proof.
  induction 1 as [|a l Hn _ IH]; cbn [map fold_right]; [lia|].
  destruct (jseqb a x) eqn:E; [|lia].
  apply jseqb_eq in E. subst a.
  assert (fold_right Z.add 0 (map (fun k => if jseqb k x then 1 else 0) l) = 0);
    [|lia].
  clear IH. induction l as [|b l IHl]; [reflexivity|].
  cbn [map fold_right]. destruct (jseqb b x) eqn:E.
  - apply jseqb_eq in E. subst b. exfalso. apply Hn. left. reflexivity.
  - rewrite IHl; [reflexivity|]. intros H. apply Hn. right. exact H.
Qed.

(** Distinct keys share the counted words: their frequencies add up to at
    most the number of counted keys. *)
Lemma frequency_sum (l keys : list jsstring) :
  NoDup l ->
  fold_right Z.add 0 (map (fun k => frequency k keys) l) <= alength keys.
Proof.
  intros Hl. induction keys as [|x keys IH].
  - assert (E : fold_right Z.add 0 (map (fun k => frequency k []) l) = 0).
    { clear Hl. induction l as [|a l IHl]; [reflexivity|].
      cbn [map fold_right]. rewrite IHl. reflexivity. }
    rewrite E. cbn. lia.
  - rewrite alength_cons.
    assert (E : fold_right Z.add 0 (map (fun k => frequency k (x :: keys)) l)
                = fold_right Z.add 0 (map (fun k => if jseqb k x then 1 else 0) l)
                  + fold_right Z.add 0 (map (fun k => frequency k keys) l)).
    { clear Hl IH. induction l as [|a l IHl]; [reflexivity|].
      cbn [map fold_right]. rewrite IHl, frequency_cons. lia. }
    rewrite E. pose proof (frequency_sum_once x l Hl). lia.
Qed.

Lemma countedKeys_length (ws : list jsstring) :
  alength (countedKeys ws) <= alength ws.
Proof.
  unfold countedKeys, alength.
  pose proof (filter_length_le counted (map keyOf ws)) as H.
  rewrite length_map in H. lia.
Qed.

(** X22.  Unless a word has the key [constructor], the counts of the listed
    keywords add up to at most the number of words, so that the densities
    add up to at most 100, rounding aside. *)
Lemma keywords_counts_sum (selectionText textSnapshot : jsstring)
    (editor : option Editor) :
  let text := if falsy selectionText then textSnapshot else selectionText in
  let keys := countedKeys (wordsOf (trim text)) in
  let listed := map word (keywords (stats selectionText textSnapshot editor)) in
  ~ In (js "constructor") keys ->
  fold_right Z.add 0 (map (fun k => frequency k keys) listed)
  <= words (stats selectionText textSnapshot editor).
Proof.
  cbv zeta. intros Hk. unfold stats. cbn [keywords words].
  rewrite keyword_words.
  set (ws := wordsOf (trim (if falsy selectionText then textSnapshot
                            else selectionText))) in *.
  pose proof (tally_tallied ws Hk) as (Hnd & _ & _).
  assert (Hl : NoDup (map fst (topEntries (tally ws [])))).
  { unfold topEntries. rewrite <- firstn_map. apply NoDup_firstn.
    (* the sorted entries are a rearrangement of the properties *)
    assert (Hp : forall (l : list (jsstring * jsval)),
               Permutation (sort byCount l) l).
    { induction l as [|z l IH]; [constructor|].
      unfold sort. cbn [fold_right]. fold (sort byCount l).
      transitivity (z :: sort byCount l); [|constructor; exact IH].
      clear IH. induction (sort byCount l) as [|w l' IH']; [reflexivity|].
      cbn [sort_insert]. destruct (byCount z w >? 0); [|reflexivity].
      transitivity (w :: z :: l'); [constructor; exact IH' | constructor]. }
    assert (Hq : forall (o : object), Permutation (Object_entries o) o).
    { intros o. unfold Object_entries.
      transitivity (filter (fun e => is_index (fst e)) o
                    ++ filter (fun e => negb (is_index (fst e))) o).
      - apply Permutation_app_tail.
        induction (filter (fun e => is_index (fst e)) o) as [|z l IH];
          [constructor|].
        cbn [fold_right].
        transitivity (z :: fold_right insert_index [] l); [|constructor; exact IH].
        clear IH. induction (fold_right insert_index [] l) as [|w l' IH'];
          [reflexivity|].
        cbn [insert_index].
        destruct (index_of (fst z) <? index_of (fst w)); [reflexivity|].
        transitivity (w :: z :: l'); [constructor; exact IH' | constructor].
      - induction o as [|e o IH]; [constructor|].
        cbn [filter]. destruct (is_index (fst e)); cbn [negb app].
        + constructor. exact IH.
        + symmetry. apply Permutation_cons_app. symmetry. exact IH. }
    eapply Permutation_NoDup; [|exact Hnd].
    apply Permutation_map. symmetry.
    transitivity (Object_entries (tally ws [])); [apply Hp | apply Hq]. }
  pose proof (frequency_sum _ (countedKeys ws) Hl).
  pose proof (countedKeys_length ws). lia.
Qed.

(** C9 at a failing input.  The text "constructor" has one word, which is not
    a stop word; its density should be 100.0, but the tally adds 1 to the
    function that every object inherits under this name, and the density
    shown is NaN. *)
Theorem keywords_constructor_density :
  keywords (stats [] (js "constructor") None)
  = [MkKeyword (js "constructor") (js "NaN")]
  /\ STOP_WORDS_has (js "constructor") = false
  /\ tally [js "constructor"] []
     = [(js "constructor", Str (js "function Object() { [native code] }1"))].
Proof.
  repeat split; vm_compute; reflexivity.
Qed.

(* ------------------------------------------------------------------------- *)
(** ** Binary64 arithmetic on safe integers *)
(* ------------------------------------------------------------------------- *)




Lemma Zdigits2_nonneg (m : Z) : 0 <= Zdigits2 m.
Proof. destruct m; cbn; lia. Qed.






















(* ------------------------------------------------------------------------- *)
(** ** [formatTime] *)
(* ------------------------------------------------------------------------- *)




(* ------------------------------------------------------------------------- *)
(** ** Class facts and trimming *)
(* ------------------------------------------------------------------------- *)

Lemma one_of_single (x c : N) : one_of [x] c = true <-> c = x.
Proof.
  unfold one_of. cbn [existsb]. rewrite orb_false_r. apply N.eqb_eq.
Qed.

Lemma takeWhile_all (p : cls) (s : jsstring) :
  forallb p (takeWhile p s) = true.
Proof.
  induction s as [|c r IH]; [reflexivity|].
  cbn [takeWhile]. destruct (p c) eqn:E; [|reflexivity].
  cbn [forallb]. rewrite E, IH. reflexivity.
Qed.

Lemma dropWhile_head (p : cls) (s : jsstring) (d : N) (rest : jsstring) :
  dropWhile p s = d :: rest -> p d = false.
Proof.
  induction s as [|c r IH]; [discriminate|].
  cbn [dropWhile]. destruct (p c) eqn:E; [exact IH|].
  intros H. inversion H; subst. exact E.
Qed.

Lemma dropWhile_fixed (p : cls) (s : jsstring) :
  dropWhile p s = s <-> match s with [] => True | c :: _ => p c = false end.
Proof.
  destruct s as [|c r]; [cbn; tauto|].
  cbn [dropWhile]. destruct (p c) eqn:E.
  - split; [|discriminate]. intros H.
    pose proof (dropWhile_length p r) as Hl. rewrite H in Hl.
    simpl in Hl. lia.
  - tauto.
Qed.

Lemma dropWhile_nil_all (p : cls) (s : jsstring) :
  dropWhile p s = [] <-> forallb p s = true.
Proof.
  induction s as [|c r IH]; [cbn; tauto|].
  cbn [dropWhile forallb]. destruct (p c); cbn [andb]; [exact IH|].
  split; discriminate.
Qed.

(** [trim] takes white space off both ends and nothing else. *)
Lemma trim_infix (s : jsstring) :
  exists p q, s = p ++ trim s ++ q
              /\ forallb is_space p = true /\ forallb is_space q = true.
Proof.
  exists (takeWhile is_space s),
         (rev (takeWhile is_space (rev (trimStart s)))).
  split; [|split].
  - unfold trim, trimEnd.
    rewrite <- rev_app_distr, takeWhile_dropWhile, rev_involutive.
    unfold trimStart. symmetry. apply takeWhile_dropWhile.
  - apply takeWhile_all.
  - rewrite forallb_forall. intros x Hx. apply in_rev in Hx.
    pose proof (takeWhile_all is_space (rev (trimStart s))) as H.
    rewrite forallb_forall in H. auto.
Qed.

Lemma trimEnd_idem (s : jsstring) : trimEnd (trimEnd s) = trimEnd s.
Proof.
  unfold trimEnd. rewrite rev_involutive, dropWhile_idem. reflexivity.
Qed.

Lemma trimEnd_prefix (s : jsstring) :
  exists q, s = trimEnd s ++ q /\ forallb is_space q = true.
Proof.
  exists (rev (takeWhile is_space (rev s))). split.
  - unfold trimEnd. rewrite <- rev_app_distr, takeWhile_dropWhile.
    symmetry. apply rev_involutive.
  - rewrite forallb_forall. intros x Hx. apply in_rev in Hx.
    pose proof (takeWhile_all is_space (rev s)) as H.
    rewrite forallb_forall in H. auto.
Qed.

Lemma trim_head (s : jsstring) :
  match trim s with [] => True | c :: _ => is_space c = false end.
Proof.
  unfold trim. destruct (trimEnd_prefix (trimStart s)) as (q & E & _).
  pose proof (dropWhile_idem is_space s) as Hi. fold (trimStart s) in Hi.
  apply dropWhile_fixed in Hi.
  destruct (trimEnd (trimStart s)) as [|c b]; [exact I|].
  rewrite E in Hi. exact Hi.
Qed.

Lemma trim_idem (s : jsstring) : trim (trim s) = trim s.
Proof.
  pose proof (trim_head s) as Hh.
  assert (E : trimStart (trim s) = trim s)
    by (apply dropWhile_fixed; exact Hh).
  unfold trim at 1. rewrite E. unfold trim. apply trimEnd_idem.
Qed.

Lemma trim_last (s : jsstring) :
  match rev (trim s) with [] => True | c :: _ => is_space c = false end.
Proof.
  unfold trim, trimEnd. rewrite rev_involutive.
  destruct (dropWhile is_space (rev (trimStart s))) as [|c r] eqn:E; [exact I|].
  exact (dropWhile_head _ _ _ _ E).
Qed.

Lemma trim_app_space (s u : jsstring) :
  forallb is_space u = true -> trim (s ++ u) = trim s.
Proof.
  intros Hu. unfold trim.
  destruct (forallb is_space s) eqn:Es.
  - assert (E1 : trimStart (s ++ u) = []).
    { apply dropWhile_nil_all. rewrite forallb_app, Es, Hu. reflexivity. }
    assert (E2 : trimStart s = []) by (apply dropWhile_nil_all; exact Es).
    rewrite E1, E2. reflexivity.
  - assert (E : trimStart (s ++ u) = trimStart s ++ u).
    { unfold trimStart. clear Hu. induction s as [|c r IH]; [discriminate|].
      cbn [forallb] in Es. cbn [dropWhile app].
      destruct (is_space c); [apply IH; exact Es | reflexivity]. }
    rewrite E. unfold trimEnd. rewrite rev_app_distr.
    assert (Hr : forallb is_space (rev u) = true).
    { rewrite forallb_forall in *. intros x Hx. apply in_rev in Hx. auto. }
    f_equal. clear E Hu. induction (rev u) as [|c r IH]; [reflexivity|].
    cbn [forallb] in Hr. apply andb_true_iff in Hr as [Hc Hr].
    cbn [app dropWhile]. rewrite Hc. apply IH. exact Hr.
Qed.

(* ------------------------------------------------------------------------- *)
(** ** Replacing every match of a pattern *)
(* ------------------------------------------------------------------------- *)

Lemma replaceAllGo_skip (re : regex) (w s : jsstring) (k : nat) :
  (k <= length s)%nat ->
  replaceAllGo re w s k = replaceAllGo re w (skipn k s) 0.
Proof.
  revert k; induction s as [|c r IH]; intros k Hk.
  - destruct k; [reflexivity | simpl in Hk; lia].
  - destruct k as [|k]; [reflexivity|].
    cbn [replaceAllGo skipn]. apply IH. simpl in Hk. lia.
Qed.

Lemma replaceAll_step (re : regex) (w : jsstring) (c : N)
      (r m rest : jsstring) :
  exec re (c :: r) = Some (m, rest) -> m <> [] ->
  replaceAll re w (c :: r) = w ++ replaceAll re w rest.
Proof.
  intros E Hm. unfold replaceAll. cbn [replaceAllGo]. rewrite E.
  pose proof (exec_split _ _ _ _ E) as Hs.
  destruct m as [|d m']; [congruence|]. f_equal.
  cbn [app] in Hs. inversion Hs; subst.
  cbn [length pred].
  rewrite replaceAllGo_skip by (rewrite length_app; lia).
  rewrite skipn_app, skipn_all, Nat.sub_diag. reflexivity.
Qed.

Lemma replaceAll_pass (re : regex) (w : jsstring) (c : N) (r : jsstring) :
  exec re (c :: r) = None ->
  replaceAll re w (c :: r) = c :: replaceAll re w r.
Proof.
  intros E. unfold replaceAll. cbn [replaceAllGo]. rewrite E. reflexivity.
Qed.

Lemma replaceAll_nil (re : regex) (w : jsstring) : replaceAll re w [] = [].
Proof. reflexivity. Qed.

(** [/<[^>]+>/] at the head of a text. *)
Lemma exec_tag_cons (c : N) (r : jsstring) :
  exec re_tag (c :: r) =
  if is_lt c then
    match takeWhile (cneg is_gt) r, dropWhile (cneg is_gt) r with
    | b :: body, d :: rest => Some (c :: (b :: body) ++ [d], rest)
    | _, _ => None
    end
  else None.
Proof.
  unfold re_tag, once, plus. cbn [exec icls rmax rmin].
  rewrite munch_cons. cbn [may_more less pred andb].
  rewrite andb_true_r. destruct (is_lt c); cbn [fst snd].
  - rewrite munch_zero. cbn [fst snd length Nat.ltb Nat.leb].
    rewrite munch_unbounded.
    destruct (takeWhile (cneg is_gt) r) as [|b body] eqn:Eb;
      [reflexivity|].
    cbn [length Nat.ltb Nat.leb].
    destruct (dropWhile (cneg is_gt) r) as [|d rest] eqn:Ed; [reflexivity|].
    rewrite munch_cons. cbn [may_more less pred].
    pose proof (dropWhile_head _ _ _ _ Ed) as Hd.
    rewrite cneg_apply in Hd. apply negb_false_iff in Hd.
    rewrite Hd. cbn [andb fst snd]. rewrite munch_zero.
    cbn [fst snd length Nat.ltb Nat.leb app]. reflexivity.
  - reflexivity.
Qed.

(** [/\n{3,}/] at the head of a text. *)
Lemma exec_blank_lines (s : jsstring) :
  exec re_blank_lines s =
  if (leadingLines s <? 3)%nat then None
  else Some (takeWhile is_nl s, dropWhile is_nl s).
Proof.
  unfold re_blank_lines, leadingLines. cbn [exec icls rmax rmin].
  rewrite munch_unbounded.
  destruct (length (takeWhile is_nl s) <? 3)%nat; [reflexivity|].
  rewrite app_nil_r. reflexivity.
Qed.

Lemma replaceAll_In (re : regex) (s : jsstring) (x : N) :
  In x (replaceAll re [] s) -> In x s.
Proof.
  remember (length s) as n eqn:En. revert s En.
  induction n as [n IH] using lt_wf_ind. intros s En.
  destruct s as [|c r]; [intros H; exact H|].
  unfold replaceAll. cbn [replaceAllGo].
  destruct (exec re (c :: r)) as [[[|d m] rest]|] eqn:E.
  - intros [H|H]; [left; exact H|right].
    apply (IH (length r)) with (s := r); [subst; simpl; lia|reflexivity|].
    exact H.
  - cbn [app]. pose proof (exec_split _ _ _ _ E) as Hs.
    cbn [app] in Hs. injection Hs as Hd Hr. clear E. subst d r.
    cbn [length pred].
    rewrite replaceAllGo_skip by (rewrite length_app; lia).
    rewrite skipn_app, skipn_all, Nat.sub_diag. cbn [skipn app].
    intros H. right. apply in_or_app. right.
    apply (IH (length rest)) with (s := rest);
      [subst n; simpl; rewrite length_app; lia|reflexivity|exact H].
  - intros [H|H]; [left; exact H|right].
    apply (IH (length r)) with (s := r); [subst; simpl; lia|reflexivity|].
    exact H.
Qed.

Lemma takeWhile_nil_head (p : cls) (s : jsstring) :
  takeWhile p s = [] ->
  match s with [] => True | c :: _ => p c = false end.
Proof.
  destruct s as [|c r]; [trivial|]. cbn [takeWhile].
  destruct (p c); [discriminate|reflexivity].
Qed.

Lemma is_gt_62 (c : N) : is_gt c = true <-> c = 62%N.
Proof. apply one_of_single. Qed.

Lemma is_lt_60 (c : N) : is_lt c = true <-> c = 60%N.
Proof. apply one_of_single. Qed.

Lemma is_nl_10 (c : N) : is_nl c = true <-> c = 10%N.
Proof. apply one_of_single. Qed.

Lemma no_gt_all (s : jsstring) :
  forallb (cneg is_gt) s = true -> ~ In 62%N s.
Proof.
  rewrite forallb_forall. intros H Hin. apply H in Hin.
  rewrite cneg_apply in Hin. apply negb_true_iff in Hin.
  assert (E : is_gt 62%N = true) by (apply is_gt_62; reflexivity).
  congruence.
Qed.

(** After the tag pattern has been removed everywhere, it matches nowhere. *)
Lemma md_strip_tagFree (s : jsstring) : tagFree (md_strip s).
Proof.
  unfold md_strip.
  remember (length s) as n eqn:En. revert s En.
  induction n as [n IH] using lt_wf_ind. intros s En.
  destruct s as [|c r]; [exact I|].
  destruct (exec re_tag (c :: r)) as [[m rest]|] eqn:E.
  - assert (Hm : m <> []).
    { rewrite exec_tag_cons in E. destruct (is_lt c); [|discriminate].
      destruct (takeWhile (cneg is_gt) r); [discriminate|].
      destruct (dropWhile (cneg is_gt) r); [discriminate|].
      inversion E. discriminate. }
    rewrite (replaceAll_step _ _ _ _ _ _ E Hm). cbn [app].
    pose proof (exec_split _ _ _ _ E) as Hs.
    apply (IH (length rest)); [|reflexivity].
    subst n. rewrite Hs, length_app. destruct m; [congruence|simpl; lia].
  - rewrite (replaceAll_pass _ _ _ _ E).
    assert (Hr : tagFree (replaceAll re_tag [] r))
      by (apply (IH (length r)); [subst; simpl; lia|reflexivity]).
    cbn [tagFree]. split; [|exact Hr].
    intros Hc. rewrite exec_tag_cons in E.
    assert (El : is_lt c = true) by (apply is_lt_60; exact Hc).
    rewrite El in E.
    destruct (replaceAll re_tag [] r) as [|b out] eqn:Eo; [exact I|].
    destruct (takeWhile (cneg is_gt) r) as [|b0 body] eqn:Eb.
    + left. apply takeWhile_nil_head in Eb.
      destruct r as [|c1 r1]; [discriminate|].
      rewrite cneg_apply in Eb. apply negb_false_iff in Eb.
      assert (E1 : exec re_tag (c1 :: r1) = None).
      { rewrite exec_tag_cons.
        destruct (is_lt c1) eqn:E1; [|reflexivity].
        apply is_lt_60 in E1. apply is_gt_62 in Eb. congruence. }
      rewrite (replaceAll_pass _ _ _ _ E1) in Eo.
      inversion Eo; subst. apply is_gt_62. exact Eb.
    + right. destruct (dropWhile (cneg is_gt) r) as [|d rest] eqn:Ed;
        [|discriminate].
      apply dropWhile_nil_all in Ed. apply no_gt_all in Ed.
      intros Hin. apply Ed.
      apply (replaceAll_In re_tag). rewrite Eo. right. exact Hin.
Qed.

Lemma tagFree_tail (p s : jsstring) : tagFree (p ++ s) -> tagFree s.
Proof.
  induction p as [|c p IH]; [trivial|].
  cbn [app tagFree]. intros [_ H]. exact (IH H).
Qed.

Lemma tagFree_front (s q : jsstring) : tagFree (s ++ q) -> tagFree s.
Proof.
  induction s as [|c s IH]; [intros _; exact I|].
  cbn [app tagFree]. intros [Hc H]. split; [|exact (IH H)].
  intros E. specialize (Hc E).
  destruct s as [|b rest]; [exact I|].
  cbn [app] in Hc. destruct Hc as [Hb|Hn]; [left; exact Hb|right].
  intros Hin. apply Hn. apply in_or_app. left. exact Hin.
Qed.

Lemma erased_In (del : cls) (s s' : jsstring) (x : N) :
  erased del s s' -> In x s' -> In x s.
Proof.
  induction 1 as [|c s s' _ IH|c s s' _ _ IH]; intros Hin.
  - exact Hin.
  - destruct Hin as [E|Hin]; [left; exact E|right; exact (IH Hin)].
  - right. exact (IH Hin).
Qed.

Lemma erased_refl (del : cls) (s : jsstring) : erased del s s.
Proof. induction s; constructor; assumption. Qed.

Lemma erased_drop_all (del : cls) (a s s' : jsstring) :
  forallb del a = true -> erased del s s' -> erased del (a ++ s) s'.
Proof.
  induction a as [|c a IH]; intros Ha H; [exact H|].
  cbn [forallb] in Ha. apply andb_true_iff in Ha as [Hc Ha].
  cbn [app]. apply erased_drop; [exact Hc | apply IH; assumption].
Qed.

(** A tag can not appear by erasing line feeds. *)
Lemma tagFree_erased (s s' : jsstring) :
  erased is_nl s s' -> tagFree s -> tagFree s'.
Proof.
  induction 1 as [|c s s' He IH|c s s' Hc He IH].
  - trivial.
  - cbn [tagFree]. intros [Hc Hs]. split; [|exact (IH Hs)].
    intros E. specialize (Hc E).
    destruct s' as [|b' rest']; [exact I|].
    destruct s as [|b rest]; [inversion He|].
    assert (Hsub : forall x, In x (b' :: rest') -> In x (b :: rest))
      by (intros x; apply (erased_In _ _ _ _ He)).
    inversion He as [|c0 s0 s0' He'|c0 s0 s0' Hd He']; subst.
    + destruct Hc as [Hb|Hn]; [left; exact Hb|right].
      intros Hin. apply Hn. exact (erased_In _ _ _ _ He' Hin).
    + apply is_nl_10 in Hd. subst b.
      destruct Hc as [Hb|Hn]; [discriminate|right].
      intros Hin. apply Hn.
      apply (erased_In _ _ _ _ He'). right. exact Hin.
  - cbn [tagFree]. intros [_ Hs]. exact (IH Hs).
Qed.

Lemma leadingLines_cons (c : N) (r : jsstring) :
  leadingLines (c :: r) = if is_nl c then S (leadingLines r) else O.
Proof.
  unfold leadingLines. cbn [takeWhile]. destruct (is_nl c); reflexivity.
Qed.

Lemma leadingLines_dropWhile (s : jsstring) :
  leadingLines (dropWhile is_nl s) = O.
Proof.
  destruct (dropWhile is_nl s) as [|d rest] eqn:E; [reflexivity|].
  rewrite leadingLines_cons, (dropWhile_head _ _ _ _ E). reflexivity.
Qed.

Lemma leadingLines_app (s q : jsstring) :
  (leadingLines s <= leadingLines (s ++ q))%nat.
Proof.
  induction s as [|c r IH]; [cbn; lia|].
  cbn [app]. rewrite !leadingLines_cons. destruct (is_nl c); lia.
Qed.

Lemma shortRuns_cons (c : N) (r : jsstring) :
  shortRuns (c :: r) <-> (leadingLines (c :: r) <= 2)%nat /\ shortRuns r.
Proof. reflexivity. Qed.

(** Collapsing the runs of line feeds erases line feeds only, and leaves at
    most two of them in a row. *)
Lemma md_collapse_runs (s : jsstring) :
  leadingLines (md_collapse s) = Nat.min (leadingLines s) 2
  /\ shortRuns (md_collapse s)
  /\ erased is_nl s (md_collapse s).
Proof.
  unfold md_collapse.
  remember (length s) as n eqn:En. revert s En.
  induction n as [n IH] using lt_wf_ind. intros s En.
  destruct s as [|c r]; [repeat split; constructor|].
  pose proof (exec_blank_lines (c :: r)) as E.
  destruct (leadingLines (c :: r) <? 3)%nat eqn:El.
  - apply Nat.ltb_lt in El.
    rewrite (replaceAll_pass _ _ _ _ E).
    destruct (IH (length r)) with (s := r) as (H1 & H2 & H3);
      [subst; simpl; lia|reflexivity|].
    rewrite leadingLines_cons in El.
    split; [|split].
    + rewrite !leadingLines_cons, H1. destruct (is_nl c); lia.
    + apply shortRuns_cons. split; [|exact H2].
      rewrite leadingLines_cons, H1. destruct (is_nl c); lia.
    + apply erased_keep. exact H3.
  - apply Nat.ltb_ge in El.
    pose proof (takeWhile_dropWhile is_nl (c :: r)) as Hs.
    pose proof (takeWhile_all is_nl (c :: r)) as Ha.
    unfold leadingLines in El.
    destruct (takeWhile is_nl (c :: r)) as [|a [|b tw]] eqn:Et;
      [simpl in El; lia | simpl in El; lia |].
    rewrite (replaceAll_step _ _ _ _ _ _ E) by discriminate.
    destruct (IH (length (dropWhile is_nl (c :: r))))
      with (s := dropWhile is_nl (c :: r)) as (H1 & H2 & H3);
      [subst n; rewrite <- Hs at 2; rewrite length_app; simpl; lia
      |reflexivity|].
    rewrite leadingLines_dropWhile in H1. cbn [Nat.min] in H1.
    cbn [forallb] in Ha.
    apply andb_true_iff in Ha as [Ha1 Ha].
    apply andb_true_iff in Ha as [Ha2 Ha].
    apply is_nl_10 in Ha1. apply is_nl_10 in Ha2. subst a b.
    change (nl ++ nl) with [10%N; 10%N] in *. cbn [app].
    split; [|split].
    + assert (Hl : leadingLines (c :: r) = S (S (length tw)))
        by (unfold leadingLines; rewrite Et; reflexivity).
      rewrite Hl, !leadingLines_cons, H1.
      replace (is_nl 10%N) with true by reflexivity. lia.
    + apply shortRuns_cons. split.
      * rewrite !leadingLines_cons, H1.
        replace (is_nl 10%N) with true by reflexivity. lia.
      * apply shortRuns_cons. split; [|exact H2].
        rewrite !leadingLines_cons, H1.
        replace (is_nl 10%N) with true by reflexivity. lia.
    + rewrite <- Hs at 1. cbn [app].
      apply erased_keep, erased_keep, erased_drop_all; assumption.
Qed.

Lemma shortRuns_tail (p s : jsstring) : shortRuns (p ++ s) -> shortRuns s.
Proof.
  induction p as [|c p IH]; [trivial|].
  cbn [app]. rewrite shortRuns_cons. intros [_ H]. exact (IH H).
Qed.

Lemma shortRuns_front (s q : jsstring) : shortRuns (s ++ q) -> shortRuns s.
Proof.
  induction s as [|c s IH]; [intros _; exact I|].
  cbn [app]. rewrite !shortRuns_cons. intros [Hc H]. split; [|exact (IH H)].
  pose proof (leadingLines_app (c :: s) q). cbn [app] in *. lia.
Qed.

(** Read as searches: the two patterns find nothing in such texts. *)
Lemma tagFree_no_match (s : jsstring) :
  tagFree s -> match_g re_tag s = None.
Proof.
  unfold match_g. intros H.
  assert (E : matchAll re_tag s 0 = []); [|rewrite E; reflexivity].
  induction s as [|c r IH]; [reflexivity|].
  cbn [tagFree] in H. destruct H as [Hc Hr].
  cbn [matchAll]. rewrite exec_tag_cons.
  destruct (is_lt c) eqn:El; [|exact (IH Hr)].
  apply is_lt_60 in El. specialize (Hc El).
  destruct (takeWhile (cneg is_gt) r) as [|b body] eqn:Eb; [exact (IH Hr)|].
  destruct (dropWhile (cneg is_gt) r) as [|d rest] eqn:Ed; [exact (IH Hr)|].
  exfalso.
  pose proof (takeWhile_dropWhile (cneg is_gt) r) as Hs.
  rewrite Eb, Ed in Hs.
  pose proof (takeWhile_all (cneg is_gt) r) as Ha. rewrite Eb in Ha.
  cbn [forallb] in Ha. apply andb_true_iff in Ha as [Hb Ha].
  pose proof (dropWhile_head _ _ _ _ Ed) as Hd.
  rewrite cneg_apply in Hb, Hd.
  apply negb_true_iff in Hb. apply negb_false_iff in Hd.
  apply is_gt_62 in Hd. subst d.
  rewrite <- Hs in Hc. cbn [app] in Hc.
  destruct Hc as [Hc|Hc].
  - subst b. assert (is_gt 62%N = true) by (apply is_gt_62; reflexivity).
    congruence.
  - apply Hc. apply in_or_app. right. left. reflexivity.
Qed.

Lemma shortRuns_no_match (s : jsstring) :
  shortRuns s -> match_g re_blank_lines s = None.
Proof.
  unfold match_g. intros H.
  assert (E : matchAll re_blank_lines s 0 = []); [|rewrite E; reflexivity].
  induction s as [|c r IH]; [reflexivity|].
  apply shortRuns_cons in H. destruct H as [Hc Hr].
  cbn [matchAll]. rewrite exec_blank_lines.
  replace (leadingLines (c :: r) <? 3)%nat with true
    by (symmetry; apply Nat.ltb_lt; lia).
  exact (IH Hr).
Qed.

Lemma toMarkdown_tagFree (html : jsstring) : tagFree (toMarkdown html).
Proof.
  unfold toMarkdown.
  set (x := md_code _).
  destruct (trim_infix (md_collapse (md_strip x))) as (p & q & E & _).
  destruct (md_collapse_runs (md_strip x)) as (_ & _ & He).
  pose proof (tagFree_erased _ _ He (md_strip_tagFree x)) as H.
  rewrite E in H. apply tagFree_tail in H. apply tagFree_front in H.
  exact H.
Qed.

Lemma toMarkdown_shortRuns (html : jsstring) : shortRuns (toMarkdown html).
Proof.
  unfold toMarkdown.
  set (x := md_strip _).
  destruct (trim_infix (md_collapse x)) as (p & q & E & _).
  destruct (md_collapse_runs x) as (_ & H & _).
  rewrite E in H. apply shortRuns_tail in H. apply shortRuns_front in H.
  exact H.
Qed.

(* ------------------------------------------------------------------------- *)
(** ** Text without markup through the replacements *)
(* ------------------------------------------------------------------------- *)

Lemma startsWith_head (p : N) (ps : jsstring) (c : N) (r : jsstring) :
  c <> p -> startsWith (p :: ps) (c :: r) = false.
Proof.
  intros H. cbn [startsWith].
  destruct (N.eqb_spec p c); [congruence|reflexivity].
Qed.

Lemma startsWith_app (p rest : jsstring) : startsWith p (p ++ rest) = true.
Proof.
  induction p as [|c p IH]; [reflexivity|].
  cbn [app startsWith]. rewrite N.eqb_refl, IH. reflexivity.
Qed.

Lemma skipn_length_app (p rest : jsstring) : skipn (length p) (p ++ rest) = rest.
Proof.
  rewrite skipn_app, skipn_all, Nat.sub_diag. reflexivity.
Qed.

Lemma replaceTagGo_skip (dotall : bool) (open close : jsstring)
      (f : jsstring -> jsstring) (s : jsstring) (k : nat) :
  (k <= length s)%nat ->
  replaceTagGo dotall open close f s k
  = replaceTagGo dotall open close f (skipn k s) 0.
Proof.
  revert k; induction s as [|c r IH]; intros k Hk.
  - destruct k; [reflexivity | simpl in Hk; lia].
  - destruct k as [|k]; [reflexivity|].
    cbn [replaceTagGo skipn]. apply IH. simpl in Hk. lia.
Qed.

Lemma replaceTag_pass (dotall : bool) (open close : jsstring)
      (f : jsstring -> jsstring) (c : N) (r : jsstring) :
  execTag dotall open close (c :: r) = None ->
  replaceTag dotall open close f (c :: r)
  = c :: replaceTag dotall open close f r.
Proof.
  intros E. unfold replaceTag. cbn [replaceTagGo]. rewrite E. reflexivity.
Qed.

(** A match at the head: the group is handed to [f], and the search goes on
    after the closing tag. *)
Lemma replaceTag_step (dotall : bool) (open close : jsstring)
      (f : jsstring -> jsstring) (t rest : jsstring) :
  open <> [] ->
  lazyUntil dotall close (t ++ close ++ rest) = Some (t, rest) ->
  replaceTag dotall open close f (open ++ t ++ close ++ rest)
  = f t ++ replaceTag dotall open close f rest.
Proof.
  intros Ho E. unfold replaceTag.
  destruct open as [|o open']; [congruence|].
  cbn [app replaceTagGo].
  change (o :: open' ++ t ++ close ++ rest)
    with ((o :: open') ++ t ++ close ++ rest).
  unfold execTag. rewrite startsWith_app, skipn_length_app, E.
  f_equal.
  replace (pred (length (o :: open') + length t + length close))
    with (length (open' ++ t ++ close))
    by (rewrite !length_app; simpl; lia).
  replace (open' ++ t ++ close ++ rest) with ((open' ++ t ++ close) ++ rest)
    by (rewrite <- !app_assoc; reflexivity).
  rewrite replaceTagGo_skip by (rewrite !length_app; lia).
  rewrite skipn_length_app. reflexivity.
Qed.

(** Text without ['<'] is passed over by every tag replacement. *)
Lemma replaceTag_plain (dotall : bool) (open' close : jsstring)
      (f : jsstring -> jsstring) (t rest : jsstring) :
  ~ In 60%N t ->
  replaceTag dotall (60%N :: open') close f (t ++ rest)
  = t ++ replaceTag dotall (60%N :: open') close f rest.
Proof.
  induction t as [|c t IH]; intros Hn; [reflexivity|].
  cbn [app]. rewrite replaceTag_pass.
  - rewrite IH; [reflexivity|]. intros H. apply Hn. right. exact H.
  - unfold execTag. rewrite startsWith_head; [reflexivity|].
    intros E. apply Hn. left. exact E.
Qed.

Lemma replaceTag_plain_all (dotall : bool) (open' close : jsstring)
      (f : jsstring -> jsstring) (t : jsstring) :
  ~ In 60%N t -> replaceTag dotall (60%N :: open') close f t = t.
Proof.
  intros Hn. rewrite <- (app_nil_r t) at 1.
  rewrite replaceTag_plain by exact Hn. cbn. apply app_nil_r.
Qed.

(** The lazy group runs to the first closing tag. *)
Lemma lazyUntil_plain (dotall : bool) (close' t rest : jsstring) :
  ~ In 60%N t ->
  dotall = true \/ forallb (cneg is_lineterm) t = true ->
  lazyUntil dotall (60%N :: close') (t ++ rest)
  = match lazyUntil dotall (60%N :: close') rest with
    | Some (captured, rest') => Some (t ++ captured, rest')
    | None => None
    end.
Proof.
  induction t as [|c t IH]; intros Hn Hd.
  - cbn [app]. destruct (lazyUntil dotall (60%N :: close') rest) as [[a b]|];
      reflexivity.
  - cbn [app lazyUntil]. rewrite startsWith_head
      by (intros E; apply Hn; left; exact E).
    assert (Hc : dotall || negb (is_lineterm c) = true).
    { destruct Hd as [->|Hd]; [reflexivity|].
      cbn [forallb] in Hd. apply andb_true_iff in Hd as [Hc _].
      rewrite cneg_apply in Hc. rewrite Hc. apply orb_true_r. }
    rewrite Hc, IH.
    + destruct (lazyUntil dotall (60%N :: close') rest) as [[a b]|];
        reflexivity.
    + intros H. apply Hn. right. exact H.
    + destruct Hd as [Hd|Hd]; [left; exact Hd|right].
      cbn [forallb] in Hd. apply andb_true_iff in Hd as [_ Hd]. exact Hd.
Qed.

Lemma lazyUntil_close (dotall : bool) (close' t rest : jsstring) :
  ~ In 60%N t ->
  dotall = true \/ forallb (cneg is_lineterm) t = true ->
  lazyUntil dotall (60%N :: close') (t ++ (60%N :: close') ++ rest)
  = Some (t, rest).
Proof.
  intros Hn Hd. rewrite lazyUntil_plain by assumption.
  cbn [app lazyUntil].
  change (60%N :: close' ++ rest) with ((60%N :: close') ++ rest).
  rewrite startsWith_app, skipn_length_app, app_nil_r. reflexivity.
Qed.

Lemma md_strip_plain (s : jsstring) : ~ In 60%N s -> md_strip s = s.
Proof.
  unfold md_strip. induction s as [|c r IH]; intros Hn; [reflexivity|].
  rewrite replaceAll_pass.
  - rewrite IH; [reflexivity|]. intros H. apply Hn. right. exact H.
  - rewrite exec_tag_cons. destruct (is_lt c) eqn:E; [|reflexivity].
    apply is_lt_60 in E. exfalso. apply Hn. left. exact E.
Qed.

Lemma md_collapse_short (s : jsstring) : shortRuns s -> md_collapse s = s.
Proof.
  unfold md_collapse. induction s as [|c r IH]; intros H; [reflexivity|].
  apply shortRuns_cons in H. destruct H as [Hc Hr].
  rewrite replaceAll_pass.
  - rewrite IH by exact Hr. reflexivity.
  - rewrite exec_blank_lines.
    replace (leadingLines (c :: r) <? 3)%nat with true
      by (symmetry; apply Nat.ltb_lt; lia).
    reflexivity.
Qed.

Lemma lineterm_nl (c : N) : is_lineterm c = false -> is_nl c = false.
Proof.
  intros H. destruct (is_nl c) eqn:E; [|reflexivity].
  apply is_nl_10 in E. subst c. discriminate.
Qed.

(** A line without line terminators, followed by at most two line feeds. *)
Lemma shortRuns_line (t tail : jsstring) :
  forallb (cneg is_lineterm) t = true ->
  shortRuns tail -> shortRuns (t ++ tail).
Proof.
  induction t as [|c t IH]; intros Ht Hs; [exact Hs|].
  cbn [forallb] in Ht. apply andb_true_iff in Ht as [Hc Ht].
  cbn [app]. apply shortRuns_cons. split; [|exact (IH Ht Hs)].
  rewrite leadingLines_cons.
  rewrite cneg_apply in Hc. apply negb_true_iff in Hc.
  rewrite (lineterm_nl _ Hc). lia.
Qed.

Lemma replaceTag_foreign (dotall : bool) (x : N) (open' close : jsstring)
      (f : jsstring -> jsstring) (s : jsstring) :
  foreign x s = true ->
  replaceTag dotall (60%N :: x :: open') close f s = s.
Proof.
  induction s as [|c r IH]; intros H; [reflexivity|].
  cbn [foreign] in H. apply andb_true_iff in H as [Hc Hr].
  rewrite replaceTag_pass; [rewrite (IH Hr); reflexivity|].
  unfold execTag.
  replace (startsWith (60%N :: x :: open') (c :: r)) with false;
    [reflexivity|].
  symmetry. cbn [startsWith].
  destruct (N.eqb_spec 60 c) as [<-|Hne]; [|reflexivity].
  cbn [N.eqb Pos.eqb negb orb andb] in Hc |- *.
  destruct r as [|b r']; [reflexivity|].
  apply negb_true_iff in Hc. rewrite N.eqb_sym in Hc.
  rewrite Hc. reflexivity.
Qed.

Lemma foreign_plain (x : N) (t rest : jsstring) :
  ~ In 60%N t -> foreign x rest = true -> foreign x (t ++ rest) = true.
Proof.
  induction t as [|c t IH]; intros Hn Hr; [exact Hr|].
  cbn [app foreign]. rewrite IH; [|intros H; apply Hn; right; exact H|exact Hr].
  destruct (N.eqb_spec c 60) as [E|_]; [|reflexivity].
  exfalso. apply Hn. left. exact E.
Qed.

Lemma In_app_not (x : N) (a b : jsstring) :
  ~ In x a -> ~ In x b -> ~ In x (a ++ b).
Proof.
  intros Ha Hb H. apply in_app_or in H. tauto.
Qed.

(** The replacements before the tag strip leave text without ['<'] alone. *)
Lemma md_tags_plain (s : jsstring) :
  ~ In 60%N s ->
  md_code (md_p (md_blockquote (md_li (md_u (md_em (md_strong
    (md_h3 (md_h2 (md_h1 s))))))))) = s.
Proof.
  intros H.
  assert (E : forall d o c f, replaceTag d (60%N :: o) c f s = s)
    by (intros; apply replaceTag_plain_all; exact H).
  rewrite (E _ _ _ _ : md_h1 s = s), (E _ _ _ _ : md_h2 s = s),
    (E _ _ _ _ : md_h3 s = s), (E _ _ _ _ : md_strong s = s),
    (E _ _ _ _ : md_em s = s), (E _ _ _ _ : md_u s = s),
    (E _ _ _ _ : md_li s = s), (E _ _ _ _ : md_blockquote s = s),
    (E _ _ _ _ : md_p s = s).
  exact (E _ _ _ _ : md_code s = s).
Qed.

Lemma replaceTag_plain_open (dotall : bool) (open close : jsstring)
      (f : jsstring -> jsstring) (t rest : jsstring) :
  startsWith [60%N] open = true -> ~ In 60%N t ->
  replaceTag dotall open close f (t ++ rest)
  = t ++ replaceTag dotall open close f rest.
Proof.
  destruct open as [|o open']; [discriminate|].
  cbn [startsWith]. rewrite andb_true_r. intros E. apply N.eqb_eq in E.
  subst o. apply replaceTag_plain.
Qed.

Lemma replaceTag_foreign_open (dotall : bool) (x : N) (open close : jsstring)
      (f : jsstring -> jsstring) (s : jsstring) :
  startsWith [60%N; x] open = true -> foreign x s = true ->
  replaceTag dotall open close f s = s.
Proof.
  destruct open as [|o [|o' open']];
    [discriminate | cbn; rewrite andb_false_r; discriminate |].
  cbn [startsWith]. rewrite andb_true_r. intros E.
  apply andb_true_iff in E as [E1 E2].
  apply N.eqb_eq in E1. apply N.eqb_eq in E2.
  subst o o'. apply replaceTag_foreign.
Qed.

(** Wrapped text: the group of a tag replacement is the text up to the
    closing tag, when the text holds no ['<'] (and no line terminator,
    without the [s] flag). *)
Lemma replaceTag_wrapped (dotall : bool) (open close : jsstring)
      (f : jsstring -> jsstring) (t rest : jsstring) :
  open <> [] -> startsWith [60%N] close = true ->
  ~ In 60%N t ->
  dotall = true \/ forallb (cneg is_lineterm) t = true ->
  replaceTag dotall open close f (open ++ t ++ close ++ rest)
  = f t ++ replaceTag dotall open close f rest.
Proof.
  intros Ho Hc Hn Hd. apply replaceTag_step; [exact Ho|].
  destruct close as [|c close']; [discriminate|].
  cbn [startsWith] in Hc. rewrite andb_true_r in Hc.
  apply N.eqb_eq in Hc. subst c.
  apply lazyUntil_close; assumption.
Qed.

Lemma lazyUntil_pass (close : jsstring) (c : N) (r : jsstring) :
  startsWith close (c :: r) = false ->
  lazyUntil true close (c :: r)
  = match lazyUntil true close r with
    | Some (captured, rest) => Some (c :: captured, rest)
    | None => None
    end.
Proof.
  intros E. cbn [lazyUntil]. rewrite E. reflexivity.
Qed.

Lemma foreign_p (x : N) (t : jsstring) :
  ~ In 60%N t -> N.eqb 112 x = false -> N.eqb 47 x = false ->
  foreign x (js "<p>" ++ t ++ js "</p>") = true.
Proof.
  intros Hn H1 H2.
  change (js "<p>" ++ t ++ js "</p>")
    with (60%N :: 112%N :: 62%N :: t ++ js "</p>").
  cbn [foreign].
  rewrite foreign_plain;
    [|exact Hn|change (js "</p>") with [60%N; 47%N; 112%N; 62%N];
               cbn [foreign]; rewrite H2; reflexivity].
  rewrite H1. reflexivity.
Qed.

Lemma foreign_blockquote (x : N) (t : jsstring) :
  ~ In 60%N t ->
  N.eqb 98 x = false -> N.eqb 112 x = false -> N.eqb 47 x = false ->
  foreign x (js "<blockquote><p>" ++ t ++ js "</p></blockquote>") = true.
Proof.
  intros Hn H0 H1 H2.
  change (js "<blockquote><p>" ++ t ++ js "</p></blockquote>")
    with (60%N :: 98%N :: js "lockquote>"
            ++ 60%N :: 112%N :: 62%N :: t ++ js "</p></blockquote>").
  assert (Ht : foreign x (js "</p></blockquote>") = true).
  { change (js "</p></blockquote>")
      with (60%N :: 47%N :: 112%N :: 62%N :: 60%N :: 47%N :: js "blockquote>").
    cbn [foreign]. rewrite H2. reflexivity. }
  assert (Hp : foreign x (60%N :: 112%N :: 62%N :: t ++ js "</p></blockquote>")
               = true).
  { cbn [foreign]. rewrite (foreign_plain x t _ Hn Ht), H1. reflexivity. }
  cbn [foreign]. rewrite foreign_plain, H0;
    [reflexivity | vm_compute; intuition discriminate | exact Hp].
Qed.

Lemma md_after_tags (u : jsstring) (tail : jsstring) :
  ~ In 60%N u -> forallb (cneg is_lineterm) u = true ->
  shortRuns tail -> forallb is_space tail = true ->
  trim (md_collapse (md_strip (u ++ tail))) = trim u.
Proof.
  intros Hn Hl Hs Hw.
  assert (Hnt : ~ In 60%N tail).
  { intros H. rewrite forallb_forall in Hw. apply Hw in H. discriminate. }
  rewrite md_strip_plain by (apply In_app_not; assumption).
  rewrite md_collapse_short by (apply shortRuns_line; assumption).
  apply trim_app_space. exact Hw.
Qed.

Lemma shortRuns_two : shortRuns (nl ++ nl).
Proof. vm_compute. repeat split; lia. Qed.

Lemma shortRuns_one : shortRuns nl.
Proof. vm_compute. repeat split; lia. Qed.

(* ------------------------------------------------------------------------- *)
(** ** The Markdown export *)
(* ------------------------------------------------------------------------- *)

(** X1.  The exported Markdown holds no HTML tag, whatever the editor's HTML
    is: the pattern of the tag strip, ['<'] followed by one or more code
    units other than ['>'] and a ['>'], finds nothing in it.  Said without
    the pattern: where the export reads ['<'], [body], ['>'], the [body] is
    empty or holds a ['>'] itself. *)
Theorem markdown_no_tags (html : jsstring) :
  match_g re_tag (toMarkdown html) = None
  /\ forall pre body post : jsstring,
       toMarkdown html = pre ++ [60%N] ++ body ++ [62%N] ++ post ->
       body = [] \/ In 62%N body.
Proof.
  pose proof (toMarkdown_tagFree html) as H. split.
  - apply tagFree_no_match. exact H.
  - intros pre body post E. rewrite E in H.
    apply tagFree_tail in H. cbn [app tagFree] in H.
    destruct H as [H _]. specialize (H eq_refl).
    destruct body as [|b body]; [left; reflexivity|right].
    cbn [app] in H. destruct H as [H|H]; [left; exact H|].
    exfalso. apply H. apply in_or_app. right. left. reflexivity.
Qed.

Lemma markdown_no_tags_witness :
  toMarkdown (js "<p>a <> b</p>") = js "a " ++ [60%N] ++ [] ++ [62%N] ++ js " b"
  /\ (@nil N = [] \/ In 62%N (@nil N)).
Proof.
  split; [reflexivity|].
  apply (proj2 (markdown_no_tags (js "<p>a <> b</p>")) (js "a ") [] (js " b")).
  reflexivity.
Defined.

(** X2.  The exported Markdown never holds three line feeds in a row, and it
    neither begins nor ends with white space; trimming it again changes
    nothing. *)
Theorem markdown_spacing (html : jsstring) :
  match_g re_blank_lines (toMarkdown html) = None
  /\ trim (toMarkdown html) = toMarkdown html
  /\ match toMarkdown html with
     | [] => True
     | c :: _ => is_space c = false
     end
  /\ match rev (toMarkdown html) with
     | [] => True
     | c :: _ => is_space c = false
     end.
Proof.
  split; [|split; [|split]].
  - apply shortRuns_no_match, toMarkdown_shortRuns.
  - unfold toMarkdown. apply trim_idem.
  - unfold toMarkdown. apply trim_head.
  - unfold toMarkdown. apply trim_last.
Qed.

(** X3.  HTML without any ['<'] goes through the ten tag replacements and
    the tag strip unchanged: the export is the text with its runs of three or more line
    feeds cut to two, trimmed. *)
Theorem markdown_plain_text (s : jsstring) :
  ~ In 60%N s -> toMarkdown s = trim (md_collapse s).
Proof.
  intros H. unfold toMarkdown.
  rewrite (md_tags_plain s H), (md_strip_plain s H). reflexivity.
Qed.

Lemma markdown_plain_text_witness :
  toMarkdown (js "a > b") = trim (md_collapse (js "a > b")).
Proof.
  apply markdown_plain_text. vm_compute. intuition discriminate.
Defined.

(** The replacements that come before the paragraph's leave a paragraph of
    text without ['<'] as it is. *)
Lemma md_before_p (t : jsstring) :
  ~ In 60%N t ->
  let s := js "<p>" ++ t ++ js "</p>" in
  md_h1 s = s /\ md_h2 s = s /\ md_h3 s = s /\ md_strong s = s
  /\ md_em s = s /\ md_u s = s /\ md_li s = s /\ md_blockquote s = s.
Proof.
  intros Hn s.
  assert (E : forall d x open close f,
             startsWith [60%N; x] open = true ->
             N.eqb 112 x = false -> N.eqb 47 x = false ->
             replaceTag d open close f s = s).
  { intros d x open close f Ho H1 H2.
    apply (replaceTag_foreign_open d x); [exact Ho|].
    apply foreign_p; assumption. }
  repeat split.
  - unfold md_h1; apply (E _ 104%N); reflexivity.
  - unfold md_h2; apply (E _ 104%N); reflexivity.
  - unfold md_h3; apply (E _ 104%N); reflexivity.
  - unfold md_strong; apply (E _ 115%N); reflexivity.
  - unfold md_em; apply (E _ 101%N); reflexivity.
  - unfold md_u; apply (E _ 117%N); reflexivity.
  - unfold md_li; apply (E _ 108%N); reflexivity.
  - unfold md_blockquote; apply (E _ 98%N); reflexivity.
Qed.

(** From the paragraph's replacement on. *)
Lemma md_from_p (t : jsstring) :
  ~ In 60%N t -> forallb (cneg is_lineterm) t = true ->
  trim (md_collapse (md_strip (md_code (md_p (js "<p>" ++ t ++ js "</p>")))))
  = trim t.
Proof.
  intros Hn Hl.
  assert (Ep : md_p (js "<p>" ++ t ++ js "</p>") = t ++ nl ++ nl).
  { unfold md_p. rewrite <- (app_nil_r (js "</p>")).
    rewrite replaceTag_wrapped;
      [apply app_nil_r|discriminate|reflexivity|exact Hn|right; exact Hl]. }
  rewrite Ep.
  assert (Hp : ~ In 60%N (t ++ nl ++ nl)).
  { apply In_app_not; [exact Hn|]. vm_compute. intuition discriminate. }
  rewrite (replaceTag_plain_all false _ _ _ _ Hp
           : md_code (t ++ nl ++ nl) = t ++ nl ++ nl).
  apply md_after_tags; [exact Hn|exact Hl|exact shortRuns_two|reflexivity].
Qed.

(** X4.  A paragraph whose text holds no ['<'] and no line terminator is
    exported as that text, trimmed. *)
Theorem markdown_paragraph (t : jsstring) :
  ~ In 60%N t -> forallb (cneg is_lineterm) t = true ->
  toMarkdown (js "<p>" ++ t ++ js "</p>") = trim t.
Proof.
  intros Hn Hl. unfold toMarkdown.
  destruct (md_before_p t Hn) as (E1 & E2 & E3 & E4 & E5 & E6 & E7 & E8).
  rewrite E1, E2, E3, E4, E5, E6, E7, E8.
  apply md_from_p; assumption.
Qed.

Lemma markdown_paragraph_witness :
  toMarkdown (js "<p>" ++ js " Hello, world " ++ js "</p>")
  = trim (js " Hello, world ").
Proof.
  apply markdown_paragraph; [vm_compute; intuition discriminate|reflexivity].
Defined.

Lemma md_each_plain (u : jsstring) :
  ~ In 60%N u ->
  md_h2 u = u /\ md_h3 u = u /\ md_strong u = u /\ md_em u = u
  /\ md_u u = u /\ md_li u = u /\ md_blockquote u = u /\ md_p u = u
  /\ md_code u = u.
Proof.
  intros H.
  assert (E : forall d o c f, replaceTag d (60%N :: o) c f u = u)
    by (intros; apply replaceTag_plain_all; exact H).
  repeat split; apply E.
Qed.

Lemma md_after_h1 (u : jsstring) :
  ~ In 60%N u ->
  md_code (md_p (md_blockquote (md_li (md_u (md_em (md_strong
    (md_h3 (md_h2 u)))))))) = u.
Proof.
  intros H.
  destruct (md_each_plain u H)
    as (E2 & E3 & E4 & E5 & E6 & E7 & E8 & E9 & E10).
  rewrite E2, E3, E4, E5, E6, E7, E8, E9, E10. reflexivity.
Qed.

Lemma lineterm_app (a b : jsstring) :
  forallb (cneg is_lineterm) a = true -> forallb (cneg is_lineterm) b = true ->
  forallb (cneg is_lineterm) (a ++ b) = true.
Proof. intros Ha Hb. rewrite forallb_app, Ha, Hb. reflexivity. Qed.

(** The end of the export for a heading line [mark ++ t]. *)
Lemma md_heading_line (mark t : jsstring) :
  ~ In 60%N mark -> forallb (cneg is_lineterm) mark = true ->
  ~ In 60%N t -> forallb (cneg is_lineterm) t = true ->
  trim (md_collapse (md_strip (mark ++ t ++ nl ++ nl))) = trim (mark ++ t).
Proof.
  intros Hm1 Hm2 Hn Hl. rewrite app_assoc.
  apply md_after_tags;
    [apply In_app_not; assumption | apply lineterm_app; assumption
    | exact shortRuns_two | reflexivity].
Qed.

Ltac heading_passes Hn :=
  repeat (rewrite replaceTag_pass by reflexivity);
  rewrite replaceTag_plain_open by (reflexivity || exact Hn);
  reflexivity.

(** X5.  A heading of level 1, 2 or 3 whose text holds no ['<'] and no line
    terminator is exported as one, two or three ['#'], a space and the
    text, trimmed. *)
Theorem markdown_heading (t : jsstring) :
  ~ In 60%N t -> forallb (cneg is_lineterm) t = true ->
  toMarkdown (js "<h1>" ++ t ++ js "</h1>") = trim (js "# " ++ t)
  /\ toMarkdown (js "<h2>" ++ t ++ js "</h2>") = trim (js "## " ++ t)
  /\ toMarkdown (js "<h3>" ++ t ++ js "</h3>") = trim (js "### " ++ t).
Proof.
  intros Hn Hl.
  assert (Hplain : forall mark, ~ In 60%N mark -> ~ In 60%N (mark ++ t ++ nl ++ nl)).
  { intros mark Hm. apply In_app_not; [exact Hm|].
    apply In_app_not; [exact Hn|]. vm_compute. intuition discriminate. }
  assert (H1 : ~ In 60%N (js "# ")) by (vm_compute; intuition discriminate).
  assert (H2 : ~ In 60%N (js "## ")) by (vm_compute; intuition discriminate).
  assert (H3 : ~ In 60%N (js "### ")) by (vm_compute; intuition discriminate).
  split; [|split]; unfold toMarkdown.
  - assert (E : md_h1 (js "<h1>" ++ t ++ js "</h1>") = js "# " ++ t ++ nl ++ nl).
    { unfold md_h1. rewrite <- (app_nil_r (js "</h1>")).
      rewrite replaceTag_wrapped;
        [apply app_nil_r|discriminate|reflexivity|exact Hn|right; exact Hl]. }
    rewrite E, (md_after_h1 _ (Hplain _ H1)).
    apply md_heading_line; [exact H1|reflexivity|exact Hn|exact Hl].
  - assert (E1 : md_h1 (js "<h2>" ++ t ++ js "</h2>")
                 = js "<h2>" ++ t ++ js "</h2>").
    { unfold md_h1.
      change (js "<h2>" ++ t ++ js "</h2>")
        with (60%N :: 104%N :: 50%N :: 62%N :: t ++ js "</h2>").
      heading_passes Hn. }
    assert (E : md_h2 (js "<h2>" ++ t ++ js "</h2>") = js "## " ++ t ++ nl ++ nl).
    { unfold md_h2. rewrite <- (app_nil_r (js "</h2>")).
      rewrite replaceTag_wrapped;
        [apply app_nil_r|discriminate|reflexivity|exact Hn|right; exact Hl]. }
    rewrite E1, E.
    destruct (md_each_plain _ (Hplain _ H2))
      as (_ & E3 & E4 & E5 & E6 & E7 & E8 & E9 & E10).
    rewrite E3, E4, E5, E6, E7, E8, E9, E10.
    apply md_heading_line; [exact H2|reflexivity|exact Hn|exact Hl].
  - assert (E1 : md_h1 (js "<h3>" ++ t ++ js "</h3>")
                 = js "<h3>" ++ t ++ js "</h3>").
    { unfold md_h1.
      change (js "<h3>" ++ t ++ js "</h3>")
        with (60%N :: 104%N :: 51%N :: 62%N :: t ++ js "</h3>").
      heading_passes Hn. }
    assert (E2 : md_h2 (js "<h3>" ++ t ++ js "</h3>")
                 = js "<h3>" ++ t ++ js "</h3>").
    { unfold md_h2.
      change (js "<h3>" ++ t ++ js "</h3>")
        with (60%N :: 104%N :: 51%N :: 62%N :: t ++ js "</h3>").
      heading_passes Hn. }
    assert (E : md_h3 (js "<h3>" ++ t ++ js "</h3>") = js "### " ++ t ++ nl ++ nl).
    { unfold md_h3. rewrite <- (app_nil_r (js "</h3>")).
      rewrite replaceTag_wrapped;
        [apply app_nil_r|discriminate|reflexivity|exact Hn|right; exact Hl]. }
    rewrite E1, E2, E.
    destruct (md_each_plain _ (Hplain _ H3))
      as (_ & _ & E4 & E5 & E6 & E7 & E8 & E9 & E10).
    rewrite E4, E5, E6, E7, E8, E9, E10.
    apply md_heading_line; [exact H3|reflexivity|exact Hn|exact Hl].
Qed.

Lemma markdown_heading_witness :
  toMarkdown (js "<h1>" ++ js "Draft" ++ js "</h1>") = trim (js "# " ++ js "Draft")
  /\ toMarkdown (js "<h2>" ++ js "Draft" ++ js "</h2>") = trim (js "## " ++ js "Draft")
  /\ toMarkdown (js "<h3>" ++ js "Draft" ++ js "</h3>") = trim (js "### " ++ js "Draft").
Proof.
  apply markdown_heading; [vm_compute; intuition discriminate|reflexivity].
Defined.

(** X6.  A block quote of one paragraph whose text holds no ['<'] and no
    line terminator is exported as ["> "] and the text, trimmed: the group
    of the block quote is the paragraph with its tags, which the inner
    replacement turns into the quoted line. *)
Theorem markdown_blockquote (t : jsstring) :
  ~ In 60%N t -> forallb (cneg is_lineterm) t = true ->
  toMarkdown (js "<blockquote><p>" ++ t ++ js "</p></blockquote>")
  = trim (js "> " ++ t).
Proof.
  intros Hn Hl. unfold toMarkdown.
  set (s := js "<blockquote><p>" ++ t ++ js "</p></blockquote>").
  assert (E : forall d x open close f,
             startsWith [60%N; x] open = true ->
             N.eqb 98 x = false -> N.eqb 112 x = false ->
             N.eqb 47 x = false ->
             replaceTag d open close f s = s).
  { intros d x open close f Ho H0 H1 H2.
    apply (replaceTag_foreign_open d x); [exact Ho|].
    apply foreign_blockquote; assumption. }
  rewrite (ltac:(unfold md_h1; apply (E _ 104%N); reflexivity) : md_h1 s = s).
  rewrite (ltac:(unfold md_h2; apply (E _ 104%N); reflexivity) : md_h2 s = s).
  rewrite (ltac:(unfold md_h3; apply (E _ 104%N); reflexivity) : md_h3 s = s).
  rewrite (ltac:(unfold md_strong; apply (E _ 115%N); reflexivity)
           : md_strong s = s).
  rewrite (ltac:(unfold md_em; apply (E _ 101%N); reflexivity) : md_em s = s).
  rewrite (ltac:(unfold md_u; apply (E _ 117%N); reflexivity) : md_u s = s).
  rewrite (ltac:(unfold md_li; apply (E _ 108%N); reflexivity) : md_li s = s).
  assert (Eq : md_quoted_p (js "<p>" ++ t ++ js "</p>") = js "> " ++ t ++ nl).
  { unfold md_quoted_p. rewrite <- (app_nil_r (js "</p>")).
    rewrite replaceTag_wrapped;
      [apply app_nil_r|discriminate|reflexivity|exact Hn|right; exact Hl]. }
  assert (Eb : md_blockquote s = js "> " ++ t ++ nl).
  { unfold md_blockquote.
    assert (Es : s = js "<blockquote>" ++ (js "<p>" ++ t ++ js "</p>")
                       ++ js "</blockquote>" ++ [])
      by (unfold s; rewrite app_nil_r, <- !app_assoc; reflexivity).
    rewrite Es.
    rewrite replaceTag_step; [rewrite Eq; apply app_nil_r|discriminate|].
    replace ((js "<p>" ++ t ++ js "</p>") ++ js "</blockquote>" ++ [])
      with (60%N :: 112%N :: 62%N :: t ++ js "</p></blockquote>")
      by (rewrite app_nil_r, <- !app_assoc; reflexivity).
    rewrite !lazyUntil_pass by reflexivity.
    change (js "</blockquote>") with (60%N :: js "/blockquote>").
    rewrite lazyUntil_plain by (exact Hn || (left; reflexivity)).
    reflexivity. }
  rewrite Eb.
  assert (Hp : ~ In 60%N (js "> " ++ t ++ nl)).
  { apply In_app_not; [vm_compute; intuition discriminate|].
    apply In_app_not; [exact Hn|]. vm_compute. intuition discriminate. }
  destruct (md_each_plain _ Hp) as (_ & _ & _ & _ & _ & _ & _ & E9 & E10).
  rewrite E9, E10, app_assoc.
  apply md_after_tags;
    [apply In_app_not; [vm_compute; intuition discriminate|exact Hn]
    |apply lineterm_app; [reflexivity|exact Hl]
    |exact shortRuns_one|reflexivity].
Qed.

Lemma markdown_blockquote_witness :
  toMarkdown (js "<blockquote><p>" ++ js "To be, or not to be"
                ++ js "</p></blockquote>")
  = trim (js "> " ++ js "To be, or not to be").
Proof.
  apply markdown_blockquote; [vm_compute; intuition discriminate|reflexivity].
Defined.

Lemma lazyUntil_step (dotall : bool) (close : jsstring) (c : N) (r : jsstring) :
  startsWith close (c :: r) = false ->
  dotall || negb (is_lineterm c) = true ->
  lazyUntil dotall close (c :: r)
  = match lazyUntil dotall close r with
    | Some (captured, rest) => Some (c :: captured, rest)
    | None => None
    end.
Proof.
  intros E Hc. cbn [lazyUntil]. rewrite E, Hc. reflexivity.
Qed.

Lemma takeWhile_app_stop (p : cls) (a : jsstring) (c : N) (r : jsstring) :
  forallb p a = true -> p c = false ->
  takeWhile p (a ++ c :: r) = a /\ dropWhile p (a ++ c :: r) = c :: r.
Proof.
  induction a as [|x a IH]; intros Ha Hc.
  - cbn [app takeWhile dropWhile]. rewrite Hc. split; reflexivity.
  - cbn [forallb] in Ha. apply andb_true_iff in Ha as [Hx Ha].
    destruct (IH Ha Hc) as [E1 E2].
    cbn [app takeWhile dropWhile]. rewrite Hx, E1, E2. split; reflexivity.
Qed.

Lemma md_strip_tag (b : N) (body rest : jsstring) :
  ~ In 62%N (b :: body) ->
  md_strip (60%N :: (b :: body) ++ 62%N :: rest) = md_strip rest.
Proof.
  intros Hn. unfold md_strip.
  assert (Ha : forallb (cneg is_gt) (b :: body) = true).
  { rewrite forallb_forall. intros x Hx. rewrite cneg_apply.
    apply negb_true_iff. destruct (is_gt x) eqn:E; [|reflexivity].
    apply is_gt_62 in E. subst x. contradiction. }
  destruct (takeWhile_app_stop (cneg is_gt) (b :: body) 62%N rest Ha eq_refl)
    as [E1 E2].
  rewrite (replaceAll_step re_tag [] 60%N _ (60%N :: (b :: body) ++ [62%N]) rest).
  - reflexivity.
  - rewrite exec_tag_cons, E1, E2. reflexivity.
  - discriminate.
Qed.

Lemma md_strip_app_plain (u rest : jsstring) :
  ~ In 60%N u -> md_strip (u ++ rest) = u ++ md_strip rest.
Proof.
  unfold md_strip. induction u as [|c u IH]; intros Hn; [reflexivity|].
  cbn [app]. rewrite replaceAll_pass.
  - rewrite IH; [reflexivity|]. intros H. apply Hn. right. exact H.
  - rewrite exec_tag_cons. destruct (is_lt c) eqn:E; [|reflexivity].
    apply is_lt_60 in E. exfalso. apply Hn. left. exact E.
Qed.

Lemma md_collapse_app_line (u rest : jsstring) :
  forallb (cneg is_lineterm) u = true ->
  md_collapse (u ++ rest) = u ++ md_collapse rest.
Proof.
  unfold md_collapse. induction u as [|c u IH]; intros Hl; [reflexivity|].
  cbn [forallb] in Hl. apply andb_true_iff in Hl as [Hc Hl].
  cbn [app]. rewrite replaceAll_pass.
  - rewrite IH by exact Hl. reflexivity.
  - rewrite exec_blank_lines, leadingLines_cons.
    rewrite cneg_apply in Hc. apply negb_true_iff in Hc.
    rewrite (lineterm_nl _ Hc). reflexivity.
Qed.

Lemma startsWith_split (p s : jsstring) :
  startsWith p s = true -> s = p ++ skipn (length p) s.
Proof.
  revert s; induction p as [|c p IH]; intros s H; [reflexivity|].
  destruct s as [|d s]; [discriminate|].
  cbn [startsWith] in H. apply andb_true_iff in H as [Hc Hs].
  apply N.eqb_eq in Hc. subst d. cbn [length skipn app].
  f_equal. apply IH. exact Hs.
Qed.

Lemma lazyUntil_split (dotall : bool) (close s captured rest : jsstring) :
  lazyUntil dotall close s = Some (captured, rest) ->
  s = captured ++ close ++ rest.
Proof.
  revert captured rest; induction s as [|c r IH]; intros captured rest.
  - cbn [lazyUntil]. destruct close as [|x close]; [|discriminate].
    cbn [startsWith]. intros H. inversion H. reflexivity.
  - cbn [lazyUntil]. destruct (startsWith close (c :: r)) eqn:Es.
    + intros H. inversion H. subst. cbn [app].
      apply startsWith_split. exact Es.
    + destruct (dotall || negb (is_lineterm c)); [|discriminate].
      destruct (lazyUntil dotall close r) as [[a b]|]; [|discriminate].
      intros H. inversion H. subst. cbn [app]. f_equal. apply IH.
      reflexivity.
Qed.

(** A match at the head: the group goes to [f], the search goes on after
    the closing tag. *)
Lemma replaceTag_match (dotall : bool) (open close : jsstring)
      (f : jsstring -> jsstring) (s captured rest : jsstring) :
  open <> [] ->
  execTag dotall open close s = Some (captured, rest) ->
  replaceTag dotall open close f s
  = f captured ++ replaceTag dotall open close f rest.
Proof.
  intros Ho E.
  assert (Hs : s = open ++ captured ++ close ++ rest).
  { unfold execTag in E. destruct (startsWith open s) eqn:Eo; [|discriminate].
    rewrite (startsWith_split _ _ Eo) at 1. f_equal.
    apply lazyUntil_split with (dotall := dotall). exact E. }
  rewrite Hs. apply replaceTag_step; [exact Ho|].
  unfold execTag in E. destruct (startsWith open s) eqn:Eo; [|discriminate].
  rewrite Hs in E at 1. rewrite skipn_length_app in E. exact E.
Qed.

Ltac expose :=
  repeat match goal with
         | |- context [js ?x] =>
             let v := eval vm_compute in (js x) in change (js x) with v
         end;
  cbn [app].

Ltac tag_passes Hn :=
  expose;
  repeat (rewrite replaceTag_pass by reflexivity);
  rewrite replaceTag_plain_open by (reflexivity || exact Hn);
  repeat (rewrite replaceTag_pass by reflexivity);
  reflexivity.

(** X7.  A bullet-list item, as the editor writes it, whose text holds no
    ['<'] and no line terminator is exported as ["- "] and the text,
    trimmed: the item becomes ["- <p>text</p>"] and a line feed, the
    paragraph adds two more, the list tags are stripped, and the three line
    feeds are cut to two before the trim. *)
Theorem markdown_list_item (t : jsstring) :
  ~ In 60%N t -> forallb (cneg is_lineterm) t = true ->
  toMarkdown (js "<ul><li><p>" ++ t ++ js "</p></li></ul>")
  = trim (js "- " ++ t).
Proof.
  intros Hn Hl. unfold toMarkdown.
  set (s := js "<ul><li><p>" ++ t ++ js "</p></li></ul>").
  assert (E1 : md_h1 s = s) by (unfold md_h1, s; tag_passes Hn).
  assert (E2 : md_h2 s = s) by (unfold md_h2, s; tag_passes Hn).
  assert (E3 : md_h3 s = s) by (unfold md_h3, s; tag_passes Hn).
  assert (E4 : md_strong s = s) by (unfold md_strong, s; tag_passes Hn).
  assert (E5 : md_em s = s) by (unfold md_em, s; tag_passes Hn).
  assert (E6 : md_u s = s) by (unfold md_u, s; tag_passes Hn).
  rewrite E1, E2, E3, E4, E5, E6. clear E1 E2 E3 E4 E5 E6.
  set (s7 := js "<ul>- <p>" ++ t ++ js "</p>" ++ nl ++ js "</ul>").
  assert (E7 : md_li s = s7).
  { unfold md_li, s, s7. expose.
    repeat (rewrite replaceTag_pass by reflexivity).
    rewrite (replaceTag_match false _ _ _ _
               (60%N :: 112%N :: 62%N :: t ++ [60%N; 47%N; 112%N; 62%N])
               [60%N; 47%N; 117%N; 108%N; 62%N]); [|discriminate|].
    - repeat (rewrite replaceTag_pass by reflexivity).
      cbn [app]. rewrite <- !app_assoc. reflexivity.
    - unfold execTag. cbn [startsWith N.eqb Pos.eqb andb length skipn].
      rewrite !lazyUntil_step by reflexivity.
      rewrite lazyUntil_plain by (exact Hn || (right; exact Hl)).
      reflexivity. }
  rewrite E7. clear E7.
  assert (E8 : md_blockquote s7 = s7)
    by (unfold md_blockquote, s7; tag_passes Hn).
  rewrite E8. clear E8.
  set (s9 := js "<ul>- " ++ t ++ nl ++ nl ++ nl ++ js "</ul>").
  assert (E9 : md_p s7 = s9).
  { unfold md_p, s7, s9. expose.
    repeat (rewrite replaceTag_pass by reflexivity).
    rewrite (replaceTag_match false _ _ _ _ t
               [10%N; 60%N; 47%N; 117%N; 108%N; 62%N]); [|discriminate|].
    - repeat (rewrite replaceTag_pass by reflexivity).
      cbn [app]. rewrite <- !app_assoc. reflexivity.
    - unfold execTag. cbn [startsWith N.eqb Pos.eqb andb length skipn].
      apply (lazyUntil_close false [47%N; 112%N; 62%N] t);
        [exact Hn|right; exact Hl]. }
  rewrite E9. clear E9.
  assert (E10 : md_code s9 = s9) by (unfold md_code, s9; tag_passes Hn).
  rewrite E10. clear E10.
  assert (E11 : md_strip s9 = js "- " ++ t ++ nl ++ nl ++ nl).
  { unfold s9. expose.
    etransitivity;
      [exact (md_strip_tag 117%N [108%N] _
                ltac:(vm_compute; intuition discriminate))|].
    etransitivity;
      [exact (md_strip_app_plain [45%N; 32%N] _
                ltac:(vm_compute; intuition discriminate))|].
    rewrite (md_strip_app_plain t) by exact Hn.
    reflexivity. }
  rewrite E11. clear E11.
  assert (E12 : md_collapse (js "- " ++ t ++ nl ++ nl ++ nl)
                = js "- " ++ t ++ nl ++ nl).
  { rewrite (md_collapse_app_line (js "- ")) by reflexivity.
    rewrite (md_collapse_app_line t) by exact Hl.
    reflexivity. }
  rewrite E12, app_assoc.
  apply trim_app_space. reflexivity.
Qed.

Lemma markdown_list_item_witness :
  toMarkdown (js "<ul><li><p>" ++ js "milk" ++ js "</p></li></ul>")
  = trim (js "- " ++ js "milk").
Proof.
  apply markdown_list_item; [vm_compute; intuition discriminate|reflexivity].
Defined.

Lemma lazyUntil_close_end (dotall : bool) (close' t : jsstring) :
  ~ In 60%N t ->
  dotall = true \/ forallb (cneg is_lineterm) t = true ->
  lazyUntil dotall (60%N :: close') (t ++ 60%N :: close') = Some (t, []).
Proof.
  intros Hn Hd. rewrite <- (app_nil_r (60%N :: close')) at 2.
  apply lazyUntil_close; assumption.
Qed.

Ltac tag_walk :=
  expose;
  repeat first
    [ rewrite replaceTag_pass by reflexivity
    | rewrite replaceTag_plain_open by (reflexivity || assumption) ].

Ltac lazy_walk :=
  repeat first
    [ rewrite lazyUntil_step by reflexivity
    | rewrite lazyUntil_close_end by (assumption || (right; assumption))
    | rewrite lazyUntil_plain by (assumption || (right; assumption)) ].

Ltac norm_app := repeat (progress (cbn [app]; rewrite <- ?app_assoc)).

Ltac plain_parts :=
  repeat (apply In_app_not; try assumption);
  vm_compute; intuition discriminate.

Ltac line_parts :=
  repeat (apply lineterm_app; try assumption); reflexivity.

Section InlineMarks.

Variables a b c : jsstring.
Hypothesis (Ha : ~ In 60%N a) (La : forallb (cneg is_lineterm) a = true).
Hypothesis (Hb : ~ In 60%N b) (Lb : forallb (cneg is_lineterm) b = true).
Hypothesis (Hc : ~ In 60%N c) (Lc : forallb (cneg is_lineterm) c = true).

Lemma md_strong_in_p :
  toMarkdown (js "<p>" ++ a ++ js "<strong>" ++ b ++ js "</strong>" ++ c
                ++ js "</p>")
  = trim (a ++ js "**" ++ b ++ js "**" ++ c).
Proof.
  unfold toMarkdown.
  set (s := js "<p>" ++ a ++ js "<strong>" ++ b ++ js "</strong>" ++ c
              ++ js "</p>").
  assert (E1 : md_h1 s = s) by (unfold md_h1, s; tag_walk; reflexivity).
  assert (E2 : md_h2 s = s) by (unfold md_h2, s; tag_walk; reflexivity).
  assert (E3 : md_h3 s = s) by (unfold md_h3, s; tag_walk; reflexivity).
  rewrite E1, E2, E3. clear E1 E2 E3.
  set (T := a ++ js "**" ++ b ++ js "**" ++ c).
  assert (E4 : md_strong s = js "<p>" ++ T ++ js "</p>").
  { unfold md_strong, s, T. tag_walk.
    rewrite (replaceTag_match false _ _ _ _ b (c ++ [60%N; 47%N; 112%N; 62%N]));
      [|discriminate|].
    - tag_walk. norm_app. reflexivity.
    - unfold execTag. cbn [startsWith N.eqb Pos.eqb andb length skipn].
      apply (lazyUntil_close false (js "/strong>") b); [exact Hb|right; exact Lb]. }
  rewrite E4. clear E4.
  assert (HT : ~ In 60%N T) by (unfold T; plain_parts).
  assert (LT : forallb (cneg is_lineterm) T = true) by (unfold T; line_parts).
  destruct (md_before_p T HT) as (_ & _ & _ & _ & E5 & E6 & E7 & E8).
  rewrite E5, E6, E7, E8.
  apply md_from_p; assumption.
Qed.

Lemma md_em_in_p :
  toMarkdown (js "<p>" ++ a ++ js "<em>" ++ b ++ js "</em>" ++ c ++ js "</p>")
  = trim (a ++ js "*" ++ b ++ js "*" ++ c).
Proof.
  unfold toMarkdown.
  set (s := js "<p>" ++ a ++ js "<em>" ++ b ++ js "</em>" ++ c ++ js "</p>").
  assert (E1 : md_h1 s = s) by (unfold md_h1, s; tag_walk; reflexivity).
  assert (E2 : md_h2 s = s) by (unfold md_h2, s; tag_walk; reflexivity).
  assert (E3 : md_h3 s = s) by (unfold md_h3, s; tag_walk; reflexivity).
  assert (E4 : md_strong s = s) by (unfold md_strong, s; tag_walk; reflexivity).
  rewrite E1, E2, E3, E4. clear E1 E2 E3 E4.
  set (T := a ++ js "*" ++ b ++ js "*" ++ c).
  assert (E5 : md_em s = js "<p>" ++ T ++ js "</p>").
  { unfold md_em, s, T. tag_walk.
    rewrite (replaceTag_match false _ _ _ _ b (c ++ [60%N; 47%N; 112%N; 62%N]));
      [|discriminate|].
    - tag_walk. norm_app. reflexivity.
    - unfold execTag. cbn [startsWith N.eqb Pos.eqb andb length skipn].
      apply (lazyUntil_close false (js "/em>") b); [exact Hb|right; exact Lb]. }
  rewrite E5. clear E5.
  assert (HT : ~ In 60%N T) by (unfold T; plain_parts).
  assert (LT : forallb (cneg is_lineterm) T = true) by (unfold T; line_parts).
  destruct (md_before_p T HT) as (_ & _ & _ & _ & _ & E6 & E7 & E8).
  rewrite E6, E7, E8.
  apply md_from_p; assumption.
Qed.

Lemma md_u_in_p :
  toMarkdown (js "<p>" ++ a ++ js "<u>" ++ b ++ js "</u>" ++ c ++ js "</p>")
  = trim (a ++ js "_" ++ b ++ js "_" ++ c).
Proof.
  unfold toMarkdown.
  set (s := js "<p>" ++ a ++ js "<u>" ++ b ++ js "</u>" ++ c ++ js "</p>").
  assert (E1 : md_h1 s = s) by (unfold md_h1, s; tag_walk; reflexivity).
  assert (E2 : md_h2 s = s) by (unfold md_h2, s; tag_walk; reflexivity).
  assert (E3 : md_h3 s = s) by (unfold md_h3, s; tag_walk; reflexivity).
  assert (E4 : md_strong s = s) by (unfold md_strong, s; tag_walk; reflexivity).
  assert (E5 : md_em s = s) by (unfold md_em, s; tag_walk; reflexivity).
  rewrite E1, E2, E3, E4, E5. clear E1 E2 E3 E4 E5.
  set (T := a ++ js "_" ++ b ++ js "_" ++ c).
  assert (E6 : md_u s = js "<p>" ++ T ++ js "</p>").
  { unfold md_u, s, T. tag_walk.
    rewrite (replaceTag_match false _ _ _ _ b (c ++ [60%N; 47%N; 112%N; 62%N]));
      [|discriminate|].
    - tag_walk. norm_app. reflexivity.
    - unfold execTag. cbn [startsWith N.eqb Pos.eqb andb length skipn].
      apply (lazyUntil_close false (js "/u>") b); [exact Hb|right; exact Lb]. }
  rewrite E6. clear E6.
  assert (HT : ~ In 60%N T) by (unfold T; plain_parts).
  assert (LT : forallb (cneg is_lineterm) T = true) by (unfold T; line_parts).
  destruct (md_before_p T HT) as (_ & _ & _ & _ & _ & _ & E7 & E8).
  rewrite E7, E8.
  apply md_from_p; assumption.
Qed.

Lemma md_code_in_p :
  toMarkdown (js "<p>" ++ a ++ js "<code>" ++ b ++ js "</code>" ++ c
                ++ js "</p>")
  = trim (a ++ js "`" ++ b ++ js "`" ++ c).
Proof.
  unfold toMarkdown.
  set (s := js "<p>" ++ a ++ js "<code>" ++ b ++ js "</code>" ++ c
              ++ js "</p>").
  assert (E1 : md_h1 s = s) by (unfold md_h1, s; tag_walk; reflexivity).
  assert (E2 : md_h2 s = s) by (unfold md_h2, s; tag_walk; reflexivity).
  assert (E3 : md_h3 s = s) by (unfold md_h3, s; tag_walk; reflexivity).
  assert (E4 : md_strong s = s) by (unfold md_strong, s; tag_walk; reflexivity).
  assert (E5 : md_em s = s) by (unfold md_em, s; tag_walk; reflexivity).
  assert (E6 : md_u s = s) by (unfold md_u, s; tag_walk; reflexivity).
  assert (E7 : md_li s = s) by (unfold md_li, s; tag_walk; reflexivity).
  assert (E8 : md_blockquote s = s)
    by (unfold md_blockquote, s; tag_walk; reflexivity).
  rewrite E1, E2, E3, E4, E5, E6, E7, E8. clear E1 E2 E3 E4 E5 E6 E7 E8.
  set (T := a ++ js "`" ++ b ++ js "`" ++ c).
  assert (E9 : md_p s = a ++ js "<code>" ++ b ++ js "</code>" ++ c ++ nl ++ nl).
  { unfold md_p, s. expose.
    rewrite (replaceTag_match false _ _ _ _
               (a ++ js "<code>" ++ b ++ js "</code>" ++ c) []);
      [|discriminate|].
    - expose. norm_app. reflexivity.
    - unfold execTag. cbn [startsWith N.eqb Pos.eqb andb length skipn].
      lazy_walk. reflexivity. }
  rewrite E9. clear E9.
  assert (E10 : md_code (a ++ js "<code>" ++ b ++ js "</code>" ++ c ++ nl ++ nl)
                = T ++ nl ++ nl).
  { unfold md_code, T. tag_walk.
    rewrite (replaceTag_match false _ _ _ _ b (c ++ nl ++ nl));
      [|discriminate|].
    - tag_walk. norm_app. reflexivity.
    - unfold execTag. cbn [startsWith N.eqb Pos.eqb andb length skipn].
      apply (lazyUntil_close false (js "/code>") b); [exact Hb|right; exact Lb]. }
  rewrite E10. clear E10.
  assert (HT : ~ In 60%N T) by (unfold T; plain_parts).
  assert (LT : forallb (cneg is_lineterm) T = true) by (unfold T; line_parts).
  apply md_after_tags; [exact HT|exact LT|exact shortRuns_two|reflexivity].
Qed.

End InlineMarks.

(** X8.  An inline mark inside a paragraph: for texts [a], [b], [c] without
    ['<'] and line terminators, the paragraph [a<strong>b</strong>c] is
    exported as [a**b**c], and likewise [<em>] gives [*b*], [<u>] gives
    [_b_] and [<code>] gives a [b] between back quotes, each trimmed. *)
Theorem markdown_inline_marks (a b c : jsstring) :
  ~ In 60%N a -> forallb (cneg is_lineterm) a = true ->
  ~ In 60%N b -> forallb (cneg is_lineterm) b = true ->
  ~ In 60%N c -> forallb (cneg is_lineterm) c = true ->
  toMarkdown (js "<p>" ++ a ++ js "<strong>" ++ b ++ js "</strong>" ++ c
                ++ js "</p>")
  = trim (a ++ js "**" ++ b ++ js "**" ++ c)
  /\ toMarkdown (js "<p>" ++ a ++ js "<em>" ++ b ++ js "</em>" ++ c
                   ++ js "</p>")
     = trim (a ++ js "*" ++ b ++ js "*" ++ c)
  /\ toMarkdown (js "<p>" ++ a ++ js "<u>" ++ b ++ js "</u>" ++ c
                   ++ js "</p>")
     = trim (a ++ js "_" ++ b ++ js "_" ++ c)
  /\ toMarkdown (js "<p>" ++ a ++ js "<code>" ++ b ++ js "</code>" ++ c
                   ++ js "</p>")
     = trim (a ++ js "`" ++ b ++ js "`" ++ c).
Proof.
  intros Ha La Hb Lb Hc Lc.
  split; [|split; [|split]].
  - apply md_strong_in_p; assumption.
  - apply md_em_in_p; assumption.
  - apply md_u_in_p; assumption.
  - apply md_code_in_p; assumption.
Qed.

Lemma markdown_inline_marks_witness :
  toMarkdown (js "<p>" ++ js "a " ++ js "<strong>" ++ js "b" ++ js "</strong>"
                ++ js " c" ++ js "</p>")
  = trim (js "a " ++ js "**" ++ js "b" ++ js "**" ++ js " c")
  /\ toMarkdown (js "<p>" ++ js "a " ++ js "<em>" ++ js "b" ++ js "</em>"
                   ++ js " c" ++ js "</p>")
     = trim (js "a " ++ js "*" ++ js "b" ++ js "*" ++ js " c")
  /\ toMarkdown (js "<p>" ++ js "a " ++ js "<u>" ++ js "b" ++ js "</u>"
                   ++ js " c" ++ js "</p>")
     = trim (js "a " ++ js "_" ++ js "b" ++ js "_" ++ js " c")
  /\ toMarkdown (js "<p>" ++ js "a " ++ js "<code>" ++ js "b" ++ js "</code>"
                   ++ js " c" ++ js "</p>")
     = trim (js "a " ++ js "`" ++ js "b" ++ js "`" ++ js " c").
Proof.
  apply markdown_inline_marks;
    first [reflexivity | vm_compute; intuition discriminate].
Defined.

(* ------------------------------------------------------------------------- *)
(** ** Spans and runs *)
(* ------------------------------------------------------------------------- *)

Lemma totalLength_app (a b : list jsstring) :
  totalLength (a ++ b) = totalLength a + totalLength b.
Proof.
  induction a as [|p a IH]; [reflexivity|].
  cbn [app totalLength fold_right]. fold (totalLength (a ++ b)).
  fold (totalLength a). rewrite IH. lia.
Qed.

(** The spans the loop makes are the risky runs: a span starts where its run
    starts and is as long as the run once trimmed. *)
Lemma heatLoop_spans (pos : Z) (parts : list jsstring) (offset : Z)
      (s : SentenceHeat) :
  In s (heatLoop pos parts offset []) <->
  exists pre part post,
    parts = pre ++ part :: post
    /\ trim part <> []
    /\ analyzeSentence (trim part) = Some (level s)
    /\ from s = pos + 1 + offset + totalLength pre
    /\ to s = from s + jslength (trim part).
Proof.
  revert offset; induction parts as [|p ps IH]; intros offset.
  - cbn [heatLoop In]. split; [tauto|].
    intros (pre & part & post & E & _). destruct pre; discriminate.
  - assert (Hrest : In s (heatLoop pos ps (offset + jslength p) []) <->
                    exists pre part post,
                      p :: ps = (p :: pre) ++ part :: post
                      /\ trim part <> []
                      /\ analyzeSentence (trim part) = Some (level s)
                      /\ from s = pos + 1 + offset + totalLength (p :: pre)
                      /\ to s = from s + jslength (trim part)).
    { rewrite IH. split; intros (pre & part & post & E & H1 & H2 & H3 & H4);
        exists pre, part, post.
      - subst ps. repeat split; try assumption.
        cbn [totalLength fold_right]. fold (totalLength pre). lia.
      - cbn [app] in E. inversion E. repeat split; try assumption.
        cbn [totalLength fold_right] in H3. fold (totalLength pre) in H3. lia. }
    assert (Hsplit :
              (exists pre part post,
                  p :: ps = pre ++ part :: post
                  /\ trim part <> []
                  /\ analyzeSentence (trim part) = Some (level s)
                  /\ from s = pos + 1 + offset + totalLength pre
                  /\ to s = from s + jslength (trim part))
              <-> (trim p <> [] /\ analyzeSentence (trim p) = Some (level s)
                   /\ from s = pos + 1 + offset
                   /\ to s = from s + jslength (trim p))
                  \/ In s (heatLoop pos ps (offset + jslength p) [])).
    { rewrite Hrest. split.
      - intros (pre & part & post & E & H1 & H2 & H3 & H4).
        destruct pre as [|q pre].
        + left. cbn [app] in E. inversion E; subst.
          cbn [totalLength fold_right] in H3. repeat split; try assumption. lia.
        + right. cbn [app] in E. inversion E; subst.
          exists pre, part, post. repeat split; assumption.
      - intros [(H1 & H2 & H3 & H4)|(pre & part & post & E & H)].
        + exists [], p, ps. repeat split; try assumption.
          cbn [totalLength fold_right]. lia.
        + exists (p :: pre), part, post. split; [exact E|exact H]. }
    rewrite Hsplit. cbn [heatLoop].
    destruct (falsy (trim p)) eqn:Ef.
    { split; [tauto|]. intros [(H1 & _)|H]; [|exact H].
      destruct (trim p); [congruence|discriminate]. }
    assert (Hne : trim p <> []) by (destruct (trim p); [discriminate|congruence]).
    destruct (analyzeSentence (trim p)) as [l|] eqn:Ea.
    + rewrite heatLoop_app. cbn [app In]. split.
      * intros [E|H]; [left|right; exact H].
        subst s. cbn [from to level]. repeat split; try assumption. 
      * intros [(_ & H2 & H3 & H4)|H]; [left|right; exact H].
        destruct s as [f t lv]. cbn [from to level] in *.
        inversion H2. subst. reflexivity.
    + split; [tauto|]. intros [(_ & H2 & _)|H]; [discriminate|exact H].
Qed.

(** X9.  The spans of a block are its risky runs: a span belongs to the
    block exactly when the block is a textblock and some run [part] of its
    text, trimmed, is not empty and is classified with the span's level; the
    span then starts at [pos + 1] plus the lengths of the runs before it, so
    at the start of the run, white space included, and it is as long as the
    trimmed run.  The runs themselves make up the text without its leading
    terminators. *)
Theorem heatmap_span_of_run (node : Node) (pos : Z) (s : SentenceHeat) :
  In s (blockSpans node pos) <->
  isTextblock node = true
  /\ exists pre part post,
       matchAll re_sentence (textContent node) 0 = pre ++ part :: post
       /\ dropWhile is_term (textContent node)
          = concat pre ++ part ++ concat post
       /\ trim part <> []
       /\ analyzeSentence (trim part) = Some (level s)
       /\ from s = pos + 1 + totalLength pre
       /\ to s = from s + jslength (trim part).
Proof.
  assert (Hc : forall pre part post,
             matchAll re_sentence (textContent node) 0 = pre ++ part :: post ->
             dropWhile is_term (textContent node)
             = concat pre ++ part ++ concat post).
  { intros pre part post E. rewrite <- sentence_runs_concat, E.
    rewrite concat_app. reflexivity. }
  unfold blockSpans, heatVisit.
  destruct (isTextblock node) eqn:Eb; cbn [negb orb].
  - destruct (falsy (textContent node)) eqn:Ef.
    + cbn [snd In]. split; [tauto|].
      intros (_ & pre & part & post & E & _).
      destruct (textContent node); [|discriminate].
      destruct pre; discriminate.
    + unfold match_g.
      destruct (matchAll re_sentence (textContent node) 0) as [|p ps] eqn:Em.
      * cbn [snd In]. split; [tauto|].
        intros (_ & pre & part & post & E & _). destruct pre; discriminate.
      * cbn [snd]. rewrite heatLoop_spans. split.
        -- intros (pre & part & post & E & H1 & H2 & H3 & H4).
           split; [reflexivity|]. exists pre, part, post.
           repeat split; try assumption; [apply Hc; exact E | lia].
        -- intros (_ & pre & part & post & E & _ & H1 & H2 & H3 & H4).
           exists pre, part, post. repeat split; try assumption. lia.
  - cbn [snd In]. split; [tauto|]. intros [H _]. discriminate.
Qed.

Lemma heatmap_span_of_run_witness :
  In (MkHeat 26 204 danger) (blockSpans (paragraph scenario) 0).
Proof.
  apply (proj2 (heatmap_span_of_run (paragraph scenario) 0
                  (MkHeat 26 204 danger))).
  split; [reflexivity|].
  exists [firstn 25 scenario], (skipn 25 scenario), [].
  repeat split; try (vm_compute; reflexivity).
  vm_compute. discriminate.
Defined.

(** X10.  The runs of the sentence pattern: each is a non-empty stretch of
    code units other than [.], [!] and [?], followed by the terminators that
    come next, and together they make up the text without its leading
    terminators. *)
Theorem sentence_runs_shape (s : jsstring) :
  concat (matchAll re_sentence s 0) = dropWhile is_term s
  /\ Forall (fun run =>
               exists body terms,
                 run = body ++ terms /\ body <> []
                 /\ forallb (cneg is_term) body = true
                 /\ forallb is_term terms = true)
            (matchAll re_sentence s 0).
Proof.
  split; [apply sentence_runs_concat|].
  remember (length s) as n eqn:En. revert s En.
  induction n as [n IH] using lt_wf_ind. intros s En.
  destruct s as [|c r]; [constructor|].
  pose proof (exec_sentence_cons c r) as E.
  destruct (is_term c) eqn:Ec.
  - cbn [matchAll]. rewrite E.
    apply (IH (length r)); [subst; simpl; lia|reflexivity].
  - cbv zeta in E.
    assert (Hb : takeWhile (cneg is_term) (c :: r) <> []).
    { cbn [takeWhile]. rewrite cneg_apply, Ec. discriminate. }
    rewrite (matchAll_step _ _ _ _ _ E)
      by (intros H; apply app_eq_nil in H as [H _]; exact (Hb H)).
    constructor.
    + exists (takeWhile (cneg is_term) (c :: r)),
             (takeWhile is_term (dropWhile (cneg is_term) (c :: r))).
      repeat split; [exact Hb|apply takeWhile_all|apply takeWhile_all].
    + apply (IH (length (dropWhile is_term
                           (dropWhile (cneg is_term) (c :: r)))));
        [|reflexivity].
      subst n.
      pose proof (dropWhile_length is_term (dropWhile (cneg is_term) (c :: r))).
      assert (length (dropWhile (cneg is_term) (c :: r)) <= length r)%nat.
      { cbn [dropWhile]. rewrite cneg_apply, Ec. cbn [negb].
        apply dropWhile_length. }
      simpl length at 2. lia.
Qed.

(* ------------------------------------------------------------------------- *)
(** ** Decorations *)
(* ------------------------------------------------------------------------- *)

Lemma flat_map_nil_inv {A B : Type} (f : A -> list B) (l : list A) :
  flat_map f l = [] -> Forall (fun a => f a = []) l.
Proof.
  induction l as [|a l IH]; [constructor|].
  cbn [flat_map]. intros H. apply app_eq_nil in H as [Ha Hl].
  constructor; [exact Ha | exact (IH Hl)].
Qed.

(** A node without text gives no span, whatever its structure. *)
Lemma heat_no_text (n : Node) :
  textContent n = [] ->
  forall from to ns st, nodesBetween heatVisit n from to ns st = st.
Proof.
  induction n as [s|ty cs IH] using Node_forall_ind;
    intros Ht from to ns st; [reflexivity|].
  rewrite nodesBetween_Elem. cbn [textContent] in Ht.
  apply flat_map_nil_inv in Ht.
  generalize 0 as pos. revert st.
  induction IH as [|c cs Hc _ IHcs]; intros st pos; [reflexivity|].
  inversion Ht as [|c' cs' Htc Htcs]; subst.
  rewrite visitChildren_cons.
  destruct (pos <? to); [|reflexivity].
  rewrite (IHcs Htcs).
  destruct (pos + nodeSize c >? from); [|reflexivity].
  rewrite heatVisit_spans, (blockSpans_no_text _ _ Htc).
  cbn [fst snd andb]. rewrite app_nil_r.
  destruct (negb (contentSize c =? 0)); [apply (Hc Htc) | reflexivity].
Qed.

Lemma ForallOrdPairs_map {A B : Type} (R : B -> B -> Prop) (g : A -> B)
      (l : list A) :
  ForallOrdPairs (fun a b => R (g a) (g b)) l -> ForallOrdPairs R (map g l).
Proof.
  induction 1 as [|a l Ha _ IH]; cbn [map]; constructor; [|exact IH].
  apply Forall_map. exact Ha.
Qed.

(** X11.  The decorations of a valid document: there are as many as heat
    spans, none when there is no span; each marks a non-empty range inside
    the document with the class [heatmap-red] (danger) or [heatmap-orange]
    (warn), and they come in document order without overlapping. *)
Theorem decorations_within_document (doc : Node) (ds : list Decoration) :
  valid doc = true -> decorations doc = Some ds ->
  ds <> []
  /\ length ds = length (getSentenceHeatmap doc)
  /\ Forall (fun d => 0 <= deco_from d /\ deco_from d < deco_to d
                      /\ deco_to d <= contentSize doc
                      /\ (deco_class d = js "heatmap-red"
                          \/ deco_class d = js "heatmap-orange")) ds
  /\ ForallOrdPairs (fun a b => deco_to a <= deco_from b) ds.
Proof.
  intros Hv Hd. unfold decorations in Hd.
  pose proof (heat_chain doc Hv 0 (contentSize doc) 0) as Hc.
  fold (descendants heatVisit doc []) in Hc.
  fold (getSentenceHeatmap doc) in Hc.
  destruct (getSentenceHeatmap doc) as [|s l] eqn:E; [discriminate|].
  assert (Hds : ds = map (fun s => MkDecoration (from s) (to s)
                                   (heatClass (level s))) (s :: l))
    by (inversion Hd; reflexivity).
  clear Hd. subst ds.
  split; [discriminate|]. split; [apply length_map|].
  split.
  - apply Forall_map. pose proof (chain_bounds _ _ _ Hc) as Hb.
    eapply Forall_impl; [|exact Hb]. cbn beta.
    intros a (H1 & H2 & H3). cbn [deco_from deco_to deco_class].
    repeat split; try lia.
    destruct (level a); [right|left]; reflexivity.
  - apply (ForallOrdPairs_map (fun a b => deco_to a <= deco_from b)).
    cbn [deco_from deco_to]. exact (proj2 (chain_sorted _ _ _ Hc)).
Qed.

Lemma decorations_within_document_witness :
  let doc := Elem doc_t [paragraph scenario] in
  let ds := [MkDecoration 26 204 (js "heatmap-red")] in
  ds <> []
  /\ length ds = length (getSentenceHeatmap doc)
  /\ Forall (fun d => 0 <= deco_from d /\ deco_from d < deco_to d
                      /\ deco_to d <= contentSize doc
                      /\ (deco_class d = js "heatmap-red"
                          \/ deco_class d = js "heatmap-orange")) ds
  /\ ForallOrdPairs (fun a b => deco_to a <= deco_from b) ds.
Proof.
  apply decorations_within_document; vm_compute; reflexivity.
Defined.

(** X12.  A document without any text has no decoration set at all,
    whatever its blocks are. *)
Theorem decorations_none_without_text (doc : Node) :
  textContent doc = [] -> decorations doc = None.
Proof.
  intros H. unfold decorations, getSentenceHeatmap, descendants.
  rewrite (heat_no_text doc H). reflexivity.
Qed.

Lemma decorations_none_without_text_witness :
  decorations (Elem doc_t [paragraph []; Elem blockquote_t [paragraph []]])
  = None.
Proof.
  apply decorations_none_without_text. reflexivity.
Defined.

(* ------------------------------------------------------------------------- *)
(** ** Splitting at separators *)
(* ------------------------------------------------------------------------- *)

Lemma exec_plus_cons (p : cls) (c : N) (r : jsstring) :
  exec [plus p] (c :: r) =
  if p c then Some (c :: takeWhile p r, dropWhile p r) else None.
Proof.
  unfold plus. cbn [exec icls rmax rmin].
  rewrite munch_unbounded. cbn [takeWhile dropWhile].
  destruct (p c); cbn [length Nat.ltb Nat.leb]; [|reflexivity].
  rewrite app_nil_r. reflexivity.
Qed.

Lemma splitGo_skip (re : regex) (s cur : jsstring) (k : nat) :
  (k <= length s)%nat ->
  splitGo re s cur k = splitGo re (skipn k s) cur 0.
Proof.
  revert k; induction s as [|c r IH]; intros k Hk.
  - destruct k; [reflexivity | simpl in Hk; lia].
  - destruct k as [|k]; [reflexivity|].
    cbn [splitGo skipn]. apply IH. simpl in Hk. lia.
Qed.

Lemma splitGo_sep (p : cls) (c : N) (r cur : jsstring) :
  p c = true ->
  splitGo [plus p] (c :: r) cur 0
  = rev cur :: splitGo [plus p] (dropWhile p r) [] 0.
Proof.
  intros Hc. cbn [splitGo]. rewrite exec_plus_cons, Hc. f_equal.
  cbn [length pred].
  pose proof (takeWhile_dropWhile p r) as Hs.
  rewrite splitGo_skip by (rewrite <- Hs at 2; rewrite length_app; lia).
  rewrite <- Hs at 2. rewrite skipn_length_app. reflexivity.
Qed.

Lemma splitGo_unit (p : cls) (c : N) (r cur : jsstring) :
  p c = false ->
  splitGo [plus p] (c :: r) cur 0 = splitGo [plus p] r (c :: cur) 0.
Proof.
  intros Hc. cbn [splitGo]. rewrite exec_plus_cons, Hc. reflexivity.
Qed.

Lemma pieces_insep (p : cls) (s : jsstring) :
  pieces p s [] true = pieces p (dropWhile p s) [] false.
Proof.
  induction s as [|c r IH]; [reflexivity|].
  cbn [pieces dropWhile]. destruct (p c) eqn:E; [exact IH|].
  cbn [pieces]. rewrite E. reflexivity.
Qed.

(** [split] at [/C+/] is the reading [pieces]. *)
Lemma split_pieces (p : cls) (s cur : jsstring) :
  splitGo [plus p] s cur 0 = pieces p s cur false.
Proof.
  remember (length s) as n eqn:En. revert s cur En.
  induction n as [n IH] using lt_wf_ind. intros s cur En.
  destruct s as [|c r]; [reflexivity|].
  cbn [pieces]. destruct (p c) eqn:E.
  - rewrite (splitGo_sep _ _ _ _ E), pieces_insep. f_equal.
    apply (IH (length (dropWhile p r))); [|reflexivity].
    pose proof (dropWhile_length p r). subst n. simpl. lia.
  - rewrite (splitGo_unit _ _ _ _ E).
    apply (IH (length r)); [subst; simpl; lia|reflexivity].
Qed.

(** The pieces put together are the text without its separators. *)
Lemma pieces_concat (p : cls) (s cur : jsstring) (insep : bool) :
  (insep = true -> cur = []) ->
  concat (pieces p s cur insep) = rev cur ++ filter (cneg p) s.
Proof.
  revert cur insep; induction s as [|c r IH]; intros cur insep Hi.
  - cbn [pieces concat filter]. reflexivity.
  - cbn [pieces filter]. rewrite cneg_apply. destruct (p c); cbn [negb].
    + destruct insep.
      * rewrite (Hi eq_refl). apply IH. reflexivity.
      * cbn [concat]. rewrite IH by reflexivity. reflexivity.
    + rewrite IH by discriminate. cbn [rev]. rewrite <- app_assoc.
      reflexivity.
Qed.

(** No piece holds a separator. *)
Lemma pieces_clean (p : cls) (s cur : jsstring) (insep : bool) :
  forallb (cneg p) cur = true ->
  Forall (fun w => forallb (cneg p) w = true) (pieces p s cur insep).
Proof.
  assert (Hrev : forall l, forallb (cneg p) l = true ->
                           forallb (cneg p) (rev l) = true).
  { intros l H. rewrite forallb_forall in *. intros x Hx.
    apply in_rev in Hx. auto. }
  revert cur insep; induction s as [|c r IH]; intros cur insep Hc.
  - cbn [pieces]. constructor; [apply Hrev; exact Hc|constructor].
  - cbn [pieces]. destruct (p c) eqn:E.
    + destruct insep; [apply IH; reflexivity|].
      constructor; [apply Hrev; exact Hc | apply IH; reflexivity].
    + apply IH. cbn [forallb]. rewrite cneg_apply, E, Hc. reflexivity.
Qed.

(** There is at most one piece more than there are separators. *)
Lemma pieces_length (p : cls) (s cur : jsstring) (insep : bool) :
  alength (pieces p s cur insep) <= 1 + count p s.
Proof.
  unfold count. revert cur insep; induction s as [|c r IH]; intros cur insep.
  - cbn. lia.
  - cbn [pieces filter]. destruct (p c).
    + rewrite alength_cons. destruct insep.
      * specialize (IH [] true). lia.
      * rewrite alength_cons. specialize (IH [] true). lia.
    + apply IH.
Qed.

Lemma count_split (p : cls) (s : jsstring) :
  jslength s = jslength (filter (cneg p) s) + count p s.
Proof.
  unfold count, jslength, alength. induction s as [|c r IH]; [reflexivity|].
  cbn [filter length]. rewrite cneg_apply.
  destruct (p c); cbn [negb length]; lia.
Qed.

(** In a text that neither begins nor ends with a separator no piece is
    empty. *)
Lemma pieces_nonempty (p : cls) (s cur : jsstring) (insep : bool) :
  match rev s with [] => True | c :: _ => p c = false end ->
  (s = [] -> cur <> []) ->
  (cur = [] -> insep = false ->
   match s with [] => True | c :: _ => p c = false end) ->
  Forall (fun w => w <> []) (pieces p s cur insep).
Proof.
  assert (Hrev : forall l : jsstring, l <> [] -> rev l <> []).
  { intros l Hl E. apply Hl. rewrite <- (rev_involutive l), E. reflexivity. }
  assert (Htail : forall c r,
             match rev (c :: r) with [] => True | x :: _ => p x = false end ->
             match rev r with [] => True | x :: _ => p x = false end).
  { intros c r. cbn [rev]. destruct (rev r) as [|x l]; [trivial|].
    cbn [app]. trivial. }
  revert cur insep; induction s as [|c r IH]; intros cur insep Hlast Hcur Hhead.
  - cbn [pieces]. constructor; [apply Hrev, Hcur; reflexivity|constructor].
  - cbn [pieces]. destruct (p c) eqn:E.
    + assert (Hr : r <> []).
      { intros ->. cbn in Hlast. congruence. }
      assert (IH' : Forall (fun w => w <> []) (pieces p r [] true)).
      { apply IH; [exact (Htail _ _ Hlast)|intros H; contradiction|].
        intros _ H. discriminate. }
      destruct insep; [exact IH'|].
      constructor; [|exact IH'].
      apply Hrev. intros ->. specialize (Hhead eq_refl eq_refl). congruence.
    + apply IH; [exact (Htail _ _ Hlast)|discriminate|discriminate].
Qed.

Lemma concat_length_pieces (l : list jsstring) :
  Forall (fun w => w <> []) l -> alength l <= jslength (concat l).
Proof.
  induction 1 as [|w l Hw _ IH]; [cbn; lia|].
  cbn [concat]. rewrite alength_cons. unfold jslength in *.
  rewrite length_app. destruct w; [congruence|]. cbn [length]. lia.
Qed.
Lemma pieces_some (p : cls) (s cur : jsstring) (insep : bool) :
  1 <= alength (pieces p s cur insep).
Proof.
  revert cur insep; induction s as [|c r IH]; intros cur insep.
  - cbn. lia.
  - cbn [pieces]. destruct (p c); [|apply IH].
    destruct insep; [apply IH|].
    rewrite alength_cons. specialize (IH [] true). lia.
Qed.

Lemma wordsOf_pieces (t : jsstring) :
  t <> [] -> wordsOf t = pieces is_space t [] false.
Proof.
  intros Ht. unfold wordsOf. destruct t as [|c r]; [congruence|].
  cbn [falsy]. unfold split, re_spaces. apply split_pieces.
Qed.

Lemma trimmed_pieces_nonempty (text : jsstring) :
  Forall (fun w => w <> []) (pieces is_space (trim text) [] false)
  \/ trim text = [].
Proof.
  destruct (trim text) as [|c r] eqn:Et; [right; reflexivity|left].
  apply pieces_nonempty.
  - rewrite <- Et. apply trim_last.
  - discriminate.
  - intros _ _. pose proof (trim_head text) as H. rewrite Et in H. exact H.
Qed.

(** X13.  The words of a text: none is empty, none holds white space, and
    put together they are the trimmed text without its white space. *)
Theorem stats_words_split (text : jsstring) :
  Forall (fun w => w <> [] /\ forallb (cneg is_space) w = true)
         (wordsOf (trim text))
  /\ concat (wordsOf (trim text)) = remove is_space (trim text).
Proof.
  destruct (trimmed_pieces_nonempty text) as [Hne|E];
    [|rewrite E; split; [constructor|reflexivity]].
  destruct (trim text) as [|c r] eqn:Et; [split; [constructor|reflexivity]|].
  rewrite wordsOf_pieces by discriminate. split.
  - apply Forall_forall. intros w Hw. split.
    + rewrite Forall_forall in Hne. exact (Hne w Hw).
    + pose proof (pieces_clean is_space (c :: r) [] false eq_refl) as H.
      rewrite Forall_forall in H. exact (H w Hw).
  - rewrite pieces_concat by discriminate. reflexivity.
Qed.

(** X14.  The counts of the panel hang together: there are no more words
    than characters without white space, and the characters with white
    space are at least those without plus one separator between two words;
    either all three counts are zero or there is at least one word. *)
Theorem stats_counts_related (selectionText textSnapshot : jsstring)
    (editor : option Editor) :
  let st := stats selectionText textSnapshot editor in
  words st <= characters st
  /\ characters st + words st <= charactersWithFormatting st + 1
  /\ ((words st = 0 /\ characters st = 0 /\ charactersWithFormatting st = 0)
      \/ 1 <= words st).
Proof.
  cbv zeta. unfold stats. cbn [words characters charactersWithFormatting].
  set (a := if falsy selectionText then textSnapshot else selectionText).
  destruct (trimmed_pieces_nonempty a) as [Hne|E];
    [|rewrite E; cbn; split; [lia|]; split; [lia|]; left; repeat split].
  destruct (trim a) as [|c r] eqn:Et;
    [cbn; split; [lia|]; split; [lia|]; left; repeat split|].
  rewrite wordsOf_pieces by discriminate.
  pose proof (concat_length_pieces _ Hne) as H1.
  rewrite pieces_concat in H1 by discriminate. cbn [rev app] in H1.
  pose proof (pieces_length is_space (c :: r) [] false) as H2.
  pose proof (count_split is_space (c :: r)) as H3.
  pose proof (pieces_some is_space (c :: r) [] false) as H4.
  unfold remove. split; [exact H1|]. split; [lia|]. right. exact H4.
Qed.

(* ------------------------------------------------------------------------- *)
(** ** Sentences and runs *)
(* ------------------------------------------------------------------------- *)

Lemma pieces_stretches (p : cls) (s cur : jsstring) (insep : bool) :
  (insep = true -> cur = []) ->
  length (filter (fun x => negb (falsy x)) (pieces p s cur insep))
  = ((if falsy cur then 0 else 1) + stretches p (negb (falsy cur)) s)%nat.
Proof.
  assert (Hrev : forall l : jsstring, falsy (rev l) = falsy l).
  { intros [|x l]; [reflexivity|]. cbn [rev].
    destruct (rev l); reflexivity. }
  revert cur insep; induction s as [|c r IH]; intros cur insep Hi.
  - cbn [pieces filter stretches]. rewrite Hrev.
    destruct (falsy cur); reflexivity.
  - cbn [pieces stretches]. destruct (p c).
    + destruct insep.
      * rewrite (Hi eq_refl). rewrite IH by reflexivity. reflexivity.
      * cbn [filter]. rewrite Hrev.
        destruct (falsy cur); cbn [negb length];
          rewrite IH by reflexivity; reflexivity.
    + rewrite IH by discriminate. cbn [falsy negb].
      destruct (falsy cur); cbn [negb]; lia.
Qed.

Lemma stretches_skip_units (p : cls) (s : jsstring) :
  stretches p true s = stretches p true (dropWhile (cneg p) s).
Proof.
  induction s as [|c r IH]; [reflexivity|].
  cbn [dropWhile]. rewrite cneg_apply.
  destruct (p c) eqn:E; cbn [negb]; [reflexivity|].
  cbn [stretches]. rewrite E. exact IH.
Qed.

Lemma stretches_skip_seps (p : cls) (b : bool) (s : jsstring) :
  match s with [] => True | c :: _ => p c = true end ->
  stretches p b s = stretches p false (dropWhile p s).
Proof.
  destruct s as [|c r]; [reflexivity|]. intros Hc.
  cbn [stretches dropWhile]. rewrite Hc.
  induction r as [|d r IH]; [reflexivity|].
  cbn [dropWhile]. destruct (p d) eqn:E; [|reflexivity].
  cbn [stretches]. rewrite E. exact IH.
Qed.

(** The sentence pattern finds one run for each stretch of code units that
    are not terminators. *)
Lemma sentence_runs_stretches (s : jsstring) :
  length (matchAll re_sentence s 0) = stretches is_term false s.
Proof.
  remember (length s) as n eqn:En. revert s En.
  induction n as [n IH] using lt_wf_ind. intros s En.
  destruct s as [|c r]; [reflexivity|].
  pose proof (exec_sentence_cons c r) as E.
  destruct (is_term c) eqn:Ec.
  - cbn [matchAll stretches]. rewrite E, Ec.
    apply (IH (length r)); [subst; simpl; lia|reflexivity].
  - cbv zeta in E.
    assert (Hb : takeWhile (cneg is_term) (c :: r) <> []).
    { cbn [takeWhile]. rewrite cneg_apply, Ec. discriminate. }
    rewrite (matchAll_step _ _ _ _ _ E)
      by (intros H; apply app_eq_nil in H as [H _]; exact (Hb H)).
    cbn [length stretches]. rewrite Ec. cbn [Nat.add]. f_equal.
    assert (Ed : dropWhile (cneg is_term) (c :: r) = dropWhile (cneg is_term) r).
    { cbn [dropWhile]. rewrite cneg_apply, Ec. reflexivity. }
    rewrite Ed.
    rewrite (IH (length (dropWhile is_term (dropWhile (cneg is_term) r))));
      [|subst n; pose proof (dropWhile_length is_term
                               (dropWhile (cneg is_term) r));
        pose proof (dropWhile_length (cneg is_term) r); simpl; lia
       |reflexivity].
    rewrite (stretches_skip_units is_term r). symmetry.
    apply stretches_skip_seps.
    destruct (dropWhile (cneg is_term) r) as [|d l] eqn:Edr; [exact I|].
    apply dropWhile_head in Edr. rewrite cneg_apply in Edr.
    apply negb_false_iff. exact Edr.
Qed.

(** X15.  The sentence count of the panel is the number of runs the sentence
    pattern of the heatmap finds in the same trimmed text: both count the
    stretches of code units between terminators, a stretch of white space
    included. *)
Theorem stats_sentences_runs (selectionText textSnapshot : jsstring)
    (editor : option Editor) :
  let text := if falsy selectionText then textSnapshot else selectionText in
  sentences (stats selectionText textSnapshot editor)
  = alength (matchAll re_sentence (trim text) 0).
Proof.
  cbv zeta. unfold stats. cbn [sentences].
  set (t := trim (if falsy selectionText then textSnapshot else selectionText)).
  unfold alength. f_equal. rewrite sentence_runs_stretches.
  unfold sentencesOf. destruct t as [|c r]; [reflexivity|].
  cbn [falsy]. unfold split, re_terms. rewrite split_pieces.
  rewrite pieces_stretches by discriminate. reflexivity.
Qed.

(* ------------------------------------------------------------------------- *)
(** ** The keyword list and the text *)
(* ------------------------------------------------------------------------- *)

Lemma sort_Permutation {A : Type} (cmp : A -> A -> Z) (l : list A) :
  Permutation (sort cmp l) l.
Proof.
  induction l as [|z l IH]; [constructor|].
  unfold sort. cbn [fold_right]. fold (sort cmp l).
  transitivity (z :: sort cmp l); [|constructor; exact IH].
  clear IH. induction (sort cmp l) as [|w l' IH']; [reflexivity|].
  cbn [sort_insert]. destruct (cmp z w >? 0); [|reflexivity].
  transitivity (w :: z :: l'); [constructor; exact IH' | constructor].
Qed.

Lemma Object_entries_Permutation (o : object) :
  Permutation (Object_entries o) o.
Proof.
  unfold Object_entries.
  transitivity (filter (fun e => is_index (fst e)) o
                ++ filter (fun e => negb (is_index (fst e))) o).
  - apply Permutation_app_tail.
    induction (filter (fun e => is_index (fst e)) o) as [|z l IH];
      [constructor|].
    cbn [fold_right].
    transitivity (z :: fold_right insert_index [] l); [|constructor; exact IH].
    clear IH. induction (fold_right insert_index [] l) as [|w l' IH'];
      [reflexivity|].
    cbn [insert_index].
    destruct (index_of (fst z) <? index_of (fst w)); [reflexivity|].
    transitivity (w :: z :: l'); [constructor; exact IH' | constructor].
  - induction o as [|e o IH]; [constructor|].
    cbn [filter]. destruct (is_index (fst e)); cbn [negb app].
    + constructor. exact IH.
    + symmetry. apply Permutation_cons_app. symmetry. exact IH.
Qed.

(** Every turn of the tally loop keeps the keys of [freq] distinct, whatever
    it stores. *)
Lemma NoDup_addKey (o : object) (k : jsstring) :
  NoDup (map fst o) -> NoDup (map fst (addKey o k)).
Proof.
  intros H. unfold addKey. rewrite keys_set.
  destruct (own o k) eqn:E; [exact H|].
  apply own_None in E.
  apply NoDup_app; [exact H | repeat constructor; intros [] |].
  intros a Ha [<-|[]]. exact (E Ha).
Qed.

Lemma NoDup_tally (ws : list jsstring) : NoDup (map fst (tally ws [])).
Proof.
  rewrite tally_fold.
  assert (H : forall keys o, NoDup (map fst o) ->
                             NoDup (map fst (fold_left addKey keys o))).
  { induction keys as [|k keys IH]; intros o Ho; [exact Ho|].
    cbn [fold_left]. apply IH, NoDup_addKey, Ho. }
  apply H. constructor.
Qed.

Lemma topEntries_keys (ws : list jsstring) (e : jsstring * jsval) :
  In e (topEntries (tally ws [])) -> In e (tally ws []).
Proof.
  unfold topEntries. intros H. apply In_firstn in H.
  apply (proj1 (sort_In _ _ _)) in H.
  apply (proj1 (Object_entries_In _ _)) in H. exact H.
Qed.

Lemma keyOf_az09 (w : jsstring) : forallb is_az09 (keyOf w) = true.
Proof.
  unfold keyOf, remove. rewrite forallb_forall. intros x Hx.
  apply filter_In in Hx as [_ Hx]. rewrite !cneg_apply in Hx.
  apply negb_true_iff, negb_false_iff in Hx. exact Hx.
Qed.

(** X16.  Every keyword comes from the text: its word is the key of one of
    the words (the word in lower case with everything but [a-z] and [0-9]
    taken out), is not empty, is made of [a-z0-9] only and is no stop word;
    no word is listed twice, and at most ten are listed. *)
Theorem keywords_from_text (selectionText textSnapshot : jsstring)
    (editor : option Editor) :
  let text := if falsy selectionText then textSnapshot else selectionText in
  let listed := keywords (stats selectionText textSnapshot editor) in
  Forall (fun k => (exists w, In w (wordsOf (trim text)) /\ word k = keyOf w)
                   /\ word k <> []
                   /\ forallb is_az09 (word k) = true
                   /\ STOP_WORDS_has (word k) = false) listed
  /\ NoDup (map word listed)
  /\ (length listed <= 10)%nat.
Proof.
  cbv zeta. unfold stats. cbn [keywords].
  set (ws := wordsOf (trim (if falsy selectionText then textSnapshot
                            else selectionText))).
  split; [|split].
  - apply Forall_forall. intros k Hk.
    apply (in_map word) in Hk. rewrite keyword_words in Hk.
    apply in_map_iff in Hk as (e & <- & He).
    apply topEntries_keys in He.
    apply (in_map fst) in He. rewrite tally_fold in He.
    apply keys_fold in He as [[]|He].
    unfold countedKeys in He. apply filter_In in He as [Hm Hc].
    apply in_map_iff in Hm as (w & Ew & Hw).
    unfold counted in Hc. apply negb_true_iff, orb_false_iff in Hc as [Hf Hs].
    split; [exists w; split; [exact Hw|symmetry; exact Ew]|].
    split; [intros E; rewrite E in Hf; discriminate|].
    split; [rewrite <- Ew; apply keyOf_az09|exact Hs].
  - rewrite keyword_words. unfold topEntries.
    rewrite <- firstn_map. apply NoDup_firstn.
    eapply Permutation_NoDup; [|exact (NoDup_tally ws)].
    apply Permutation_map. symmetry.
    transitivity (Object_entries (tally ws []));
      [apply sort_Permutation | apply Object_entries_Permutation].
  - rewrite length_map. unfold topEntries. apply firstn_le_length.
Qed.

(** X17.  Unless a word has the key [constructor], the density of a keyword
    is its number of occurrences among the counted keys, divided by the
    number of words, times 100, to one decimal; the number of occurrences is
    at least 1 and at most the number of words. *)
Theorem keywords_density (selectionText textSnapshot : jsstring)
    (editor : option Editor) (k : Keyword) :
  let text := if falsy selectionText then textSnapshot else selectionText in
  let keys := countedKeys (wordsOf (trim text)) in
  let st := stats selectionText textSnapshot editor in
  ~ In (js "constructor") keys ->
  In k (keywords st) ->
  1 <= frequency (word k) keys <= words st
  /\ density k
     = F64.toFixed1
         (F64.mul (F64.div (F64.of_Z (frequency (word k) keys))
                           (F64.of_Z (words st)))
                  (F64.of_Z 100)).
Proof.
  cbv zeta. intros Hc. unfold stats. cbn [keywords words].
  set (ws := wordsOf (trim (if falsy selectionText then textSnapshot
                            else selectionText))) in *.
  intros Hk. apply in_map_iff in Hk as (e & <- & He).
  apply topEntries_keys in He.
  pose proof (tally_tallied ws Hc) as Ht.
  destruct (tallied_entry _ _ _ Ht He) as [Hv _].
  pose proof (proj1 (tallied_seen _ _ (fst e) Ht)
                (in_map fst _ _ He)) as Hin.
  destruct e as [w v]. cbn [fst snd] in *. subst v.
  cbn [toKeyword word density toFloat toNumber].
  split; [|reflexivity].
  pose proof (frequency_nonneg w (countedKeys ws)) as H0.
  pose proof (proj1 (frequency_zero w (countedKeys ws))) as Hz.
  pose proof (frequency_sum [w] (countedKeys ws)
                ltac:(repeat constructor; intros [])) as Hs.
  cbn [map fold_right] in Hs.
  pose proof (countedKeys_length ws) as Hl.
  split; [|lia].
  destruct (Z.eq_dec (frequency w (countedKeys ws)) 0) as [E|E]; [|lia].
  exfalso. exact (Hz E Hin).
Qed.

Lemma keywords_density_witness :
  let k := MkKeyword (js "cat") (js "66.7") in
  let keys := countedKeys (wordsOf (trim (js "cat cat dog"))) in
  let st := stats [] (js "cat cat dog") None in
  1 <= frequency (word k) keys <= words st
  /\ density k
     = F64.toFixed1
         (F64.mul (F64.div (F64.of_Z (frequency (word k) keys))
                           (F64.of_Z (words st)))
                  (F64.of_Z 100)).
Proof.
  cbv zeta.
  apply (keywords_density [] (js "cat cat dog") None
           (MkKeyword (js "cat") (js "66.7")));
    [vm_compute; intuition discriminate | vm_compute; left; reflexivity].
Defined.

Lemma keywords_counts_sum_witness :
  fold_right Z.add 0
    (map (fun k => frequency k (countedKeys (wordsOf (trim (js "cat cat dog")))))
         (map word (keywords (stats [] (js "cat cat dog") None))))
  <= words (stats [] (js "cat cat dog") None).
Proof.
  apply (keywords_counts_sum [] (js "cat cat dog") None).
  vm_compute. intuition discriminate.
Defined.

(* ------------------------------------------------------------------------- *)
(** ** Counting paragraphs under a selection *)
(* ------------------------------------------------------------------------- *)

Lemma inline_only_not_block (n : Node) : inline_only n = true -> isBlock n = false.
Proof.
  destruct n as [s|ty cs]; [reflexivity|].
  cbn [inline_only isBlock]. intros H. apply andb_true_iff in H as [H _].
  apply negb_true_iff. exact H.
Qed.

Lemma countBlock_eq (n : Node) (pos st : Z) :
  countBlock n pos st = (true, if isBlock n then st + 1 else st).
Proof. reflexivity. Qed.

Lemma count_inline_children (from to ns : Z) (cs : list Node) :
  Forall (fun c => inline_only c = true ->
                   forall from to ns st,
                     nodesBetween countBlock c from to ns st = st) cs ->
  forallb inline_only cs = true ->
  forall pos st,
    visitChildren countBlock (nodesBetween countBlock) from to ns cs pos st = st.
Proof.
  induction 1 as [|c cs Hc _ IH]; intros Hin pos st; [reflexivity|].
  cbn [forallb] in Hin. apply andb_true_iff in Hin as [Hic Hics].
  rewrite visitChildren_cons.
  destruct (pos <? to); [|reflexivity].
  rewrite (IH Hics).
  destruct (pos + nodeSize c >? from); [|reflexivity].
  rewrite !countBlock_eq, (inline_only_not_block _ Hic).
  cbn [fst snd andb].
  destruct (negb (contentSize c =? 0)); [apply (Hc Hic) | reflexivity].
Qed.

(** Inline content holds no block to count. *)
Lemma count_inline (n : Node) :
  inline_only n = true ->
  forall from to ns st, nodesBetween countBlock n from to ns st = st.
Proof.
  induction n as [s|ty cs IH] using Node_forall_ind;
    intros Hi from to ns st; [reflexivity|].
  rewrite nodesBetween_Elem.
  cbn [inline_only] in Hi. apply andb_true_iff in Hi as [_ Hi].
  apply count_inline_children; assumption.
Qed.

Lemma textblockChild_size (c : Node) :
  textblockChild c = true -> 2 <= nodeSize c /\ isBlock c = true.
Proof.
  destruct c as [s|ty cs]; [discriminate|].
  cbn [textblockChild]. intros H.
  apply andb_true_iff in H as [H _].
  apply andb_true_iff in H as [H Hl].
  apply andb_true_iff in H as [Hb _].
  apply negb_true_iff in Hl.
  rewrite nodeSize_Elem, Hl. cbn [isBlock].
  pose proof (fragmentSize_nonneg cs). split; [lia|exact Hb].
Qed.

Lemma count_flat_children (from to ns : Z) (cs : list Node) :
  forallb textblockChild cs = true -> from <= 1 ->
  forall pos st,
    0 <= pos -> pos + fragmentSize cs <= to + 1 ->
    visitChildren countBlock (nodesBetween countBlock) from to ns cs pos st
    = st + alength cs.
Proof.
  intros Hcs Hfrom.
  induction cs as [|c cs IH]; intros pos st Hpos Hto; [cbn; lia|].
  cbn [forallb] in Hcs. apply andb_true_iff in Hcs as [Hc Hcs].
  destruct (textblockChild_size c Hc) as [Hsize Hblock].
  rewrite fragmentSize_cons in Hto.
  pose proof (fragmentSize_nonneg cs) as Hrest.
  rewrite visitChildren_cons.
  replace (pos <? to) with true by (symmetry; apply Z.ltb_lt; lia).
  replace (pos + nodeSize c >? from) with true
    by (symmetry; apply Z.gtb_lt; lia).
  rewrite (IH Hcs) by lia.
  rewrite alength_cons.
  rewrite !countBlock_eq, Hblock. cbn [fst snd andb].
  destruct c as [s|ty cc]; [discriminate|].
  cbn [textblockChild] in Hc. apply andb_true_iff in Hc as [_ Hin].
  destruct (negb (contentSize (Elem ty cc) =? 0)); [|lia].
  rewrite nodesBetween_Elem.
  rewrite count_inline_children; [lia| |exact Hin].
  apply Forall_forall. intros x _ Hx. apply count_inline. exact Hx.
Qed.

(** X18.  In a flat document, whose children are textblocks with inline
    content, a selection that runs from the start (position 0 or 1) to the
    end (the content size, or one less) counts each child once: the panel
    shows the same number of paragraphs as with no selection. *)
Theorem paragraphs_selection_flat (d : Node) (sel : Selection) :
  forallb textblockChild (children d) = true ->
  sel_from sel <= 1 -> contentSize d - 1 <= sel_to sel ->
  countParagraphs (Some (MkEditor d sel)) = childCount d.
Proof.
  intros Hflat Hfrom Hto. unfold countParagraphs. cbn [doc selection].
  destruct (sel_from sel =? sel_to sel); [reflexivity|].
  destruct d as [s|ty cs]; [reflexivity|].
  rewrite nodesBetween_Elem. cbn [children] in *. unfold childCount.
  cbn [children]. unfold contentSize in Hto. cbn [children] in Hto.
  rewrite (count_flat_children _ _ _ cs Hflat Hfrom) by lia. lia.
Qed.

Lemma paragraphs_selection_flat_witness :
  let d := Elem doc_t [paragraph (js "One."); paragraph []; paragraph (js "Two.")] in
  countParagraphs (Some (MkEditor d (MkSelection 1 13))) = childCount d
  /\ childCount d = 3.
Proof.
  cbv zeta. split; [|reflexivity].
  apply paragraphs_selection_flat; [reflexivity|cbn; lia|vm_compute; discriminate].
Defined.

(* ------------------------------------------------------------------------- *)
(** ** Bounds of the syllable count *)
(* ------------------------------------------------------------------------- *)

Lemma vowelRuns_le_vowels (w : jsstring) : vowelRuns w <= count is_vowel w.
Proof.
  unfold count.
  assert (H : forall n w, (length w <= n)%nat ->
                          vowelRuns w <= alength (filter is_vowel w)).
  { clear w. induction n as [|n IH]; intros w Hn.
    - destruct w; [cbn; lia | simpl in Hn; lia].
    - destruct w as [|c r]; [cbn; lia|].
      simpl in Hn. cbn [vowelRuns filter].
      destruct (is_vowel c) eqn:Ec.
      + rewrite alength_cons. destruct r as [|c' r'].
        * cbn. lia.
        * cbn [filter]. destruct (is_vowel c') eqn:Ec'.
          -- rewrite alength_cons.
             specialize (IH r' ltac:(simpl in Hn; lia)). lia.
          -- specialize (IH (c' :: r') ltac:(simpl in *; lia)).
             cbn [filter] in IH. rewrite Ec' in IH. lia.
      + apply IH. lia. }
  apply (H (length w)). lia.
Qed.

Lemma endsWith_le_e (w : jsstring) :
  endsWith w (js "le") = true -> endsWith w (js "e") = true.
Proof.
  unfold endsWith. intros H. apply jseqb_eq in H.
  change (length (js "le")) with 2%nat in H.
  change (length (js "e")) with 1%nat.
  assert (Hl : (2 <= length w)%nat).
  { destruct (Nat.le_gt_cases 2 (length w)) as [Hl|Hl]; [exact Hl|].
    replace (length w - 2)%nat with 0%nat in H by lia.
    cbn [skipn] in H. rewrite H in Hl. simpl in Hl. lia. }
  replace (length w - 1)%nat with (1 + (length w - 2))%nat by lia.
  rewrite <- skipn_skipn, H. reflexivity.
Qed.

(** X19.  The syllable count of a word is 0 exactly when no letter [a-z] is
    left of it; otherwise it is at least 1 and at most the number of vowel
    letters (a, e, i, o, u, y) left, or 1 if there is none. *)
Theorem countSyllables_bounds (word : jsstring) :
  let letters := filter is_az (toLowerCase word) in
  (letters = [] /\ countSyllables word = 0)
  \/ (letters <> []
      /\ 1 <= countSyllables word <= Z.max 1 (count is_vowel letters)).
Proof.
  cbv zeta. rewrite countSyllables_refines. unfold countSyllables_spec.
  set (w := filter is_az (toLowerCase word)).
  destruct w as [|c r] eqn:Ew; [left; split; reflexivity|right].
  split; [discriminate|].
  destruct (length (c :: r) <=? 3)%nat; [lia|].
  pose proof (vowelRuns_le_vowels (c :: r)) as Hv.
  pose proof (endsWith_le_e (c :: r)) as He.
  destruct (endsWith (c :: r) (js "le"));
    [rewrite (He eq_refl)|destruct (endsWith (c :: r) (js "e"))]; lia.
Qed.

Lemma no_letter_lower (c : N) :
  no_letter c = true -> filter is_az (lower_unit c) = [].
Proof.
  unfold no_letter, is_letter, lower_unit. intros H.
  apply andb_true_iff in H as [H H3].
  apply andb_true_iff in H as [H1 H2].
  apply negb_true_iff in H1, H2, H3.
  apply orb_false_iff in H1 as [Hu Hl].
  rewrite Hu, H2, H3. cbn [filter]. unfold is_az. rewrite Hl. reflexivity.
Qed.

Lemma no_letter_text (s : jsstring) :
  forallb no_letter s = true -> filter is_az (toLowerCase s) = [].
Proof.
  unfold toLowerCase. induction s as [|c r IH]; intros H; [reflexivity|].
  cbn [forallb] in H. apply andb_true_iff in H as [Hc Hr].
  cbn [flat_map]. rewrite filter_app, (no_letter_lower _ Hc), (IH Hr).
  reflexivity.
Qed.

(** X20.  Punctuation, digits and other code units that are no letters do
    not change the syllable count of a word, wherever they stand around it:
    a word is counted as it is with a comma or a full stop attached. *)
Theorem countSyllables_ignores_marks (pre word post : jsstring) :
  forallb no_letter pre = true -> forallb no_letter post = true ->
  countSyllables (pre ++ word ++ post) = countSyllables word.
Proof.
  intros Hb Ha.
  assert (E : remove (cneg is_az) (toLowerCase (pre ++ word ++ post))
              = remove (cneg is_az) (toLowerCase word)).
  { rewrite !remove_cneg. unfold toLowerCase.
    rewrite !flat_map_app, !filter_app.
    fold (toLowerCase pre). fold (toLowerCase post).
    rewrite (no_letter_text _ Hb), (no_letter_text _ Ha), app_nil_r.
    reflexivity. }
  unfold countSyllables. rewrite E. reflexivity.
Qed.

Lemma countSyllables_ignores_marks_witness :
  countSyllables (js "(" ++ js "Beautiful" ++ js ").") = countSyllables (js "Beautiful").
Proof.
  apply countSyllables_ignores_marks; reflexivity.
Defined.

(* ------------------------------------------------------------------------- *)
(** ** Texts without a sentence *)
(* ------------------------------------------------------------------------- *)

Lemma sentencesOf_stretches (t : jsstring) :
  length (sentencesOf t) = stretches is_term false t.
Proof.
  unfold sentencesOf. destruct t as [|c r]; [reflexivity|].
  cbn [falsy]. unfold split, re_terms. rewrite split_pieces.
  rewrite pieces_stretches by discriminate. reflexivity.
Qed.

Lemma stretches_none (p : cls) (s : jsstring) :
  stretches p false s = O <-> forallb p s = true.
Proof.
  induction s as [|c r IH]; [cbn; tauto|].
  cbn [stretches forallb]. destruct (p c); cbn [andb]; [exact IH|].
  split; [lia|discriminate].
Qed.

Lemma pieces_no_sep (p : cls) (s cur : jsstring) :
  forallb (cneg p) s = true -> pieces p s cur false = [rev cur ++ s].
Proof.
  revert cur; induction s as [|c r IH]; intros cur H.
  - cbn [pieces]. rewrite app_nil_r. reflexivity.
  - cbn [forallb] in H. apply andb_true_iff in H as [Hc Hr].
    rewrite cneg_apply in Hc. apply negb_true_iff in Hc.
    cbn [pieces]. rewrite Hc, (IH _ Hr). cbn [rev].
    rewrite <- app_assoc. reflexivity.
Qed.

Lemma is_term_cases (c : N) :
  is_term c = true -> c = 46%N \/ c = 33%N \/ c = 63%N.
Proof.
  unfold is_term, one_of. cbn [existsb]. rewrite orb_false_r.
  intros H. apply orb_true_iff in H as [H|H];
    [|apply orb_true_iff in H as [H|H]];
    apply N.eqb_eq in H; auto.
Qed.

Lemma terminators_words (t : jsstring) :
  forallb is_term t = true ->
  (alength (wordsOf t) <= 1) /\ tally (wordsOf t) [] = [].
Proof.
  intros H. destruct t as [|c r]; [split; [cbn; lia|reflexivity]|].
  assert (Hs : forallb (cneg is_space) (c :: r) = true).
  { rewrite forallb_forall in *. intros x Hx. apply H in Hx.
    destruct (is_term_cases x Hx) as [->|[->| ->]]; reflexivity. }
  assert (Hk : keyOf (c :: r) = []).
  { unfold keyOf, remove, toLowerCase.
    clear Hs. induction (c :: r) as [|x l IH]; [reflexivity|].
    cbn [forallb] in H. apply andb_true_iff in H as [Hx Hl].
    cbn [flat_map]. rewrite filter_app, (IH Hl), app_nil_r.
    destruct (is_term_cases x Hx) as [->|[->| ->]]; reflexivity. }
  rewrite wordsOf_pieces by discriminate.
  rewrite (pieces_no_sep _ _ _ Hs). cbn [rev app].
  split; [cbn; lia|]. cbn [tally]. rewrite Hk. reflexivity.
Qed.

(** X21.  No sentence is counted exactly when the trimmed text is made of
    [.], [!] and [?] only (or is empty); the panel then shows no reading
    grade and no keyword, and at most one word. *)
Theorem stats_no_sentence (selectionText textSnapshot : jsstring)
    (editor : option Editor) :
  let text := if falsy selectionText then textSnapshot else selectionText in
  let st := stats selectionText textSnapshot editor in
  (sentences st = 0 <-> forallb is_term (trim text) = true)
  /\ (sentences st = 0 ->
      readingGrade st = noGrade /\ keywords st = [] /\ words st <= 1).
Proof.
  cbv zeta. unfold stats. cbn [sentences readingGrade keywords words].
  set (t := trim (if falsy selectionText then textSnapshot else selectionText)).
  assert (Hiff : alength (sentencesOf t) = 0 <-> forallb is_term t = true).
  { unfold alength. rewrite sentencesOf_stretches, <- stretches_none. lia. }
  split; [exact Hiff|].
  intros H0. rewrite H0. apply Hiff in H0.
  destruct (terminators_words t H0) as [Hw Ht].
  rewrite Ht. split; [|split; [reflexivity|exact Hw]].
  unfold gradeOf. cbn [Z.eqb negb]. rewrite andb_false_r. reflexivity.
Qed.

Lemma stats_no_sentence_witness :
  readingGrade (stats [] (js " ?! ") None) = noGrade
  /\ keywords (stats [] (js " ?! ") None) = []
  /\ words (stats [] (js " ?! ") None) <= 1.
Proof.
  apply (proj2 (stats_no_sentence [] (js " ?! ") None)). reflexivity.
Defined.
